(** * EliasDB: the EQL Pratt parser and the page counting of the paged storage

    A shallow embedding of [eql/parser] (the AST, the token to prototype
    table, the parser main loop and its denotation functions, the plain AST
    conversion) and a model of the page list of [storage/paging], with the
    properties the specification states about them. *)

From stdpp Require Import base option list strings gmap sorting.
From Stdlib Require Import ZArith Lia Ascii.

#[local] Set Warnings "-register-all,-clear-no-such-hyp".
#[local] Open Scope Z_scope.
#[local] Open Scope string_scope.

(** ** Lexer tokens *)

(** The identifiers of the lexer tokens.  [LexTokenID] is an integer type in
    the source and its constants are declared next to the lexer; these are
    the constants the parser file names.  [TokenSHOWTERM] is the extra
    identifier [LexTokenID(-1)] which the parser declares itself. *)
Inductive LexTokenID : Set :=
  | TokenError | TokenEOF | TokenVALUE | TokenNODEKIND | TokenGeneral
  | TokenGEQ | TokenLEQ | TokenNEQ | TokenEQ | TokenGT | TokenLT
  | TokenLPAREN | TokenRPAREN | TokenLBRACK | TokenRBRACK
  | TokenCOMMA | TokenAT
  | TokenPLUS | TokenMINUS | TokenTIMES | TokenDIV | TokenDIVINT | TokenMODINT
  | TokenGET | TokenLOOKUP | TokenFROM | TokenGROUP | TokenWITH | TokenLIST
  | TokenNULLTRAVERSAL | TokenFILTERING | TokenORDERING
  | TokenWHERE | TokenTRAVERSE | TokenEND | TokenPRIMARY
  | TokenSHOW | TokenAS | TokenFORMAT
  | TokenAND | TokenOR | TokenLIKE | TokenIN | TokenCONTAINS
  | TokenBEGINSWITH | TokenENDSWITH | TokenCONTAINSNOT | TokenNOT | TokenNOTIN
  | TokenFALSE | TokenTRUE | TokenUNIQUE | TokenUNIQUECOUNT | TokenNULL
  | TokenISNOTNULL | TokenASCENDING | TokenDESCENDING
  | TokenSHOWTERM.

#[global] Instance LexTokenID_eq_dec : EqDecision LexTokenID.
Proof. solve_decision. Defined.

(** A lexer token: the five fields of the struct literal
    [LexToken{TokenGeneral, 0, fmt.Sprint(value), 0, 0}], which are the
    identifier, the position in the input, the value, and the line and the
    column of the token. *)
Record LexToken : Set := mkLexToken {
  ID : LexTokenID;
  Pos : Z;
  Val : string;
  Lline : Z;
  Lpos : Z
}.

#[global] Instance LexToken_eq_dec : EqDecision LexToken.
Proof. solve_decision. Defined.

(** The value received from a closed channel: the zero token, which the
    source calls "an empty error token". *)
Definition zeroToken : LexToken := mkLexToken TokenError 0 "" 0 0.

(** ** AST nodes *)

(** Modelled from the spec: the node name constants ([NodeVALUE], [NodeGET],
    ...) are declared outside the parser file; each is the symbolic name the
    specification lists for it. *)
Definition NodeEOF := "EOF".
Definition NodeVALUE := "VALUE".
Definition NodeTRUE := "TRUE".
Definition NodeFALSE := "FALSE".
Definition NodeNULL := "NULL".
Definition NodeFUNC := "FUNC".
Definition NodeORDERING := "ORDERING".
Definition NodeFILTERING := "FILTERING".
Definition NodeNULLTRAVERSAL := "NULLTRAVERSAL".
Definition NodeCOMMA := "COMMA".
Definition NodeGROUP := "GROUP".
Definition NodeEND := "END".
Definition NodeAS := "AS".
Definition NodeFORMAT := "FORMAT".
Definition NodeGET := "GET".
Definition NodeLOOKUP := "LOOKUP".
Definition NodeFROM := "FROM".
Definition NodeWHERE := "WHERE".
Definition NodeUNIQUE := "UNIQUE".
Definition NodeUNIQUECOUNT := "UNIQUECOUNT".
Definition NodeISNOTNULL := "ISNOTNULL".
Definition NodeASCENDING := "ASCENDING".
Definition NodeDESCENDING := "DESCENDING".
Definition NodeTRAVERSE := "TRAVERSE".
Definition NodePRIMARY := "PRIMARY".
Definition NodeSHOW := "SHOW".
Definition NodeSHOWTERM := "SHOWTERM".
Definition NodeWITH := "WITH".
Definition NodeLIST := "LIST".
Definition NodeNOT := "NOT".
Definition NodeOR := "OR".
Definition NodeAND := "AND".
Definition NodeGEQ := "GEQ".
Definition NodeLEQ := "LEQ".
Definition NodeNEQ := "NEQ".
Definition NodeEQ := "EQ".
Definition NodeGT := "GT".
Definition NodeLT := "LT".
Definition NodeLIKE := "LIKE".
Definition NodeIN := "IN".
Definition NodeCONTAINS := "CONTAINS".
Definition NodeBEGINSWITH := "BEGINSWITH".
Definition NodeENDSWITH := "ENDSWITH".
Definition NodeCONTAINSNOT := "CONTAINSNOT".
Definition NodeNOTIN := "NOTIN".
Definition NodePLUS := "PLUS".
Definition NodeMINUS := "MINUS".
Definition NodeTIMES := "TIMES".
Definition NodeDIV := "DIV".
Definition NodeMODINT := "MODINT".
Definition NodeDIVINT := "DIVINT".
Definition NodeLPAREN := "LPAREN".
Definition NodeRPAREN := "RPAREN".
Definition NodeLBRACK := "LBRACK".
Definition NodeRBRACK := "RBRACK".

(** The function-valued fields of a node hold one of the denotation
    functions of the parser file, or nil.  The functions are named here and
    dispatched by [callNullDenotation] and [callLeftDenotation] below. *)
Inductive NullDenotation : Set :=
  | NdTerm | NdInner | NdPrefix | NdGet | NdLookup | NdFrom | NdTraverse
  | NdFunc | NdShow | NdWith | NdWithFunc | NdList.

Inductive LeftDenotation : Set :=
  | LdInfix.

(** Modelled from the spec: the [Runtime] interface is declared outside the
    parser file; a runtime component is an opaque handle which the parser
    stores on the node as it is. *)
Inductive RuntimeComponent : Set :=
  | RuntimeHandle (h : nat).

(** [ASTNode]: a nil [Token] or [Runtime] is [None], [Children] is the
    slice of child nodes.  Nodes are handled by pointer in the source and
    their [Children] are appended in place; here a node is a value and a
    function which appends to a node returns the node it changed. *)
Inductive ASTNode : Set := mkASTNode {
  Name : string;
  Token : option LexToken;
  Children : list ASTNode;
  Runtime : option RuntimeComponent;
  binding : Z;
  nullDenotation : option NullDenotation;
  leftDenotation : option LeftDenotation
}.

Definition appendChild (n c : ASTNode) : ASTNode :=
  mkASTNode (Name n) (Token n) (Children n ++ [c]) (Runtime n) (binding n)
    (nullDenotation n) (leftDenotation n).

Definition setChildren (n : ASTNode) (cs : list ASTNode) : ASTNode :=
  mkASTNode (Name n) (Token n) cs (Runtime n) (binding n)
    (nullDenotation n) (leftDenotation n).

Definition setRuntime (n : ASTNode) (r : option RuntimeComponent) : ASTNode :=
  mkASTNode (Name n) (Token n) (Children n) r (binding n)
    (nullDenotation n) (leftDenotation n).

(** A prototype node of the table: no token, no children, no runtime. *)
Definition proto (name : string) (b : Z) (nd : option NullDenotation)
    (ld : option LeftDenotation) : ASTNode :=
  mkASTNode name None [] None b nd ld.

(** [astNodeMap]: the map of AST nodes corresponding to lexer tokens, as
    [init] fills it.  A token identifier without an entry gives [None]. *)
Definition astNodeMap (id : LexTokenID) : option ASTNode :=
  match id with
  | TokenEOF => Some (proto NodeEOF 0 (Some NdTerm) None)
  | TokenVALUE => Some (proto NodeVALUE 0 (Some NdTerm) None)
  | TokenNODEKIND => Some (proto NodeVALUE 0 (Some NdTerm) None)
  | TokenTRUE => Some (proto NodeTRUE 0 (Some NdTerm) None)
  | TokenFALSE => Some (proto NodeFALSE 0 (Some NdTerm) None)
  | TokenNULL => Some (proto NodeNULL 0 (Some NdTerm) None)
  | TokenAT => Some (proto NodeFUNC 0 (Some NdFunc) None)
  | TokenORDERING => Some (proto NodeORDERING 0 (Some NdWithFunc) None)
  | TokenFILTERING => Some (proto NodeFILTERING 0 (Some NdWithFunc) None)
  | TokenNULLTRAVERSAL =>
      Some (proto NodeNULLTRAVERSAL 0 (Some NdWithFunc) None)
  (* Special tokens - always handled in a denotation function *)
  | TokenCOMMA => Some (proto NodeCOMMA 0 None None)
  | TokenGROUP => Some (proto NodeGROUP 0 None None)
  | TokenEND => Some (proto NodeEND 0 None None)
  | TokenAS => Some (proto NodeAS 0 None None)
  | TokenFORMAT => Some (proto NodeFORMAT 0 None None)
  (* Keywords *)
  | TokenGET => Some (proto NodeGET 0 (Some NdGet) None)
  | TokenLOOKUP => Some (proto NodeLOOKUP 0 (Some NdLookup) None)
  | TokenFROM => Some (proto NodeFROM 0 (Some NdFrom) None)
  | TokenWHERE => Some (proto NodeWHERE 0 (Some NdPrefix) None)
  | TokenUNIQUE => Some (proto NodeUNIQUE 0 (Some NdPrefix) None)
  | TokenUNIQUECOUNT => Some (proto NodeUNIQUECOUNT 0 (Some NdPrefix) None)
  | TokenISNOTNULL => Some (proto NodeISNOTNULL 0 (Some NdPrefix) None)
  | TokenASCENDING => Some (proto NodeASCENDING 0 (Some NdPrefix) None)
  | TokenDESCENDING => Some (proto NodeDESCENDING 0 (Some NdPrefix) None)
  | TokenTRAVERSE => Some (proto NodeTRAVERSE 0 (Some NdTraverse) None)
  | TokenPRIMARY => Some (proto NodePRIMARY 0 (Some NdPrefix) None)
  | TokenSHOW => Some (proto NodeSHOW 0 (Some NdShow) None)
  | TokenSHOWTERM => Some (proto NodeSHOWTERM 0 (Some NdShow) None)
  | TokenWITH => Some (proto NodeWITH 0 (Some NdWith) None)
  | TokenLIST => Some (proto NodeLIST 0 None None)
  (* Boolean operations *)
  | TokenNOT => Some (proto NodeNOT 20 (Some NdPrefix) None)
  | TokenOR => Some (proto NodeOR 30 None (Some LdInfix))
  | TokenAND => Some (proto NodeAND 40 None (Some LdInfix))
  | TokenGEQ => Some (proto NodeGEQ 60 None (Some LdInfix))
  | TokenLEQ => Some (proto NodeLEQ 60 None (Some LdInfix))
  | TokenNEQ => Some (proto NodeNEQ 60 None (Some LdInfix))
  | TokenEQ => Some (proto NodeEQ 60 None (Some LdInfix))
  | TokenGT => Some (proto NodeGT 60 None (Some LdInfix))
  | TokenLT => Some (proto NodeLT 60 None (Some LdInfix))
  | TokenLIKE => Some (proto NodeLIKE 60 None (Some LdInfix))
  | TokenIN => Some (proto NodeIN 60 None (Some LdInfix))
  | TokenCONTAINS => Some (proto NodeCONTAINS 60 None (Some LdInfix))
  | TokenBEGINSWITH => Some (proto NodeBEGINSWITH 60 None (Some LdInfix))
  | TokenENDSWITH => Some (proto NodeENDSWITH 60 None (Some LdInfix))
  | TokenCONTAINSNOT => Some (proto NodeCONTAINSNOT 60 None (Some LdInfix))
  | TokenNOTIN => Some (proto NodeNOTIN 60 None (Some LdInfix))
  (* Simple arithmetic expressions *)
  | TokenPLUS => Some (proto NodePLUS 110 (Some NdPrefix) (Some LdInfix))
  | TokenMINUS => Some (proto NodeMINUS 110 (Some NdPrefix) (Some LdInfix))
  | TokenTIMES => Some (proto NodeTIMES 120 None (Some LdInfix))
  | TokenDIV => Some (proto NodeDIV 120 None (Some LdInfix))
  | TokenMODINT => Some (proto NodeMODINT 120 None (Some LdInfix))
  | TokenDIVINT => Some (proto NodeDIVINT 120 None (Some LdInfix))
  (* Brackets *)
  | TokenLPAREN => Some (proto NodeLPAREN 150 (Some NdInner) None)
  | TokenRPAREN => Some (proto NodeRPAREN 0 None None)
  | TokenLBRACK => Some (proto NodeLBRACK 150 (Some NdList) None)
  | TokenRBRACK => Some (proto NodeRBRACK 0 None None)
  | TokenError | TokenGeneral => None
  end.

(** ** Parser state, errors and the parser monad *)

(** The [Runtime] method of a runtime provider. *)
Definition RuntimeProvider : Set := ASTNode -> RuntimeComponent.

(** The [parser] struct.  [tokens] is what is still to be received from the
    channel of lexer tokens; the empty list is the closed channel. *)
Record parser : Set := mkParser {
  name : string;
  node : option ASTNode;
  tokens : list LexToken;
  rp : option RuntimeProvider
}.

Definition setNode (p : parser) (n : option ASTNode) : parser :=
  mkParser (name p) n (tokens p) (rp p).

Definition setTokens (p : parser) (ts : list LexToken) : parser :=
  mkParser (name p) (node p) ts (rp p).

Inductive ErrorType : Set :=
  | ErrUnexpectedEnd | ErrLexicalError | ErrUnknownToken
  | ErrImpossibleNullDenotation | ErrImpossibleLeftDenotation
  | ErrUnexpectedToken.

(** The detail string of a parser error: a plain string, the [String()] of a
    token, or the [fmt.Sprintf("id:%v (%v)", token.ID, token)] of a token
    which has no entry in the table. *)
Inductive ErrorDetail : Set :=
  | DetailString (s : string)
  | DetailToken (t : LexToken)
  | DetailUnknownID (t : LexToken).

(** What [newParserError] is given: the name of the input, the error type,
    the detail and the token. *)
Record ParserError : Set := mkParserError {
  Source : string;
  ErrType : ErrorType;
  Detail : ErrorDetail;
  ErrToken : LexToken
}.

Definition newParserError (p : parser) (t : ErrorType) (d : ErrorDetail)
    (token : LexToken) : ParserError :=
  mkParserError (name p) t d token.

(** The result of a call: a value, a parser error, a Go run-time panic (a
    nil dereference or an index out of range), or the bound on the
    recursion reached. *)
Inductive outcome (A : Type) : Type :=
  | OK (a : A)
  | Err (e : ParserError)
  | Panic
  | OutOfFuel.
Arguments OK {A} a.
Arguments Err {A} e.
Arguments Panic {A}.
Arguments OutOfFuel {A}.

(** A method of the parser: the parser state is kept when an error is
    returned, since some callers ignore the error and go on. *)
Definition M (A : Type) : Type := parser -> outcome A * parser.

Definition ret {A} (a : A) : M A := fun p => (OK a, p).

Definition bind {A B} (m : M A) (k : A -> M B) : M B := fun p =>
  match m p with
  | (OK a, p') => k a p'
  | (Err e, p') => (Err e, p')
  | (Panic, p') => (Panic, p')
  | (OutOfFuel, p') => (OutOfFuel, p')
  end.

Notation "'do' x <- m ; k" := (bind m (fun x => k))
  (at level 10, x name, m at level 100, k at level 200).
Notation "'do' '_' <- m ; k" := (bind m (fun _ => k))
  (at level 10, m at level 100, k at level 200).

Definition panic {A} : M A := fun p => (Panic, p).
Definition outOfFuel {A} : M A := fun p => (OutOfFuel, p).

(** [return nil, p.newParserError(t, d, token)] *)
Definition parserError {A} (t : ErrorType) (d : ErrorDetail)
    (token : LexToken) : M A :=
  fun p => (Err (newParserError p t d token), p).

(** A call whose error the caller looks at itself: [err := f(...)]. *)
Definition catch {A} (m : M A) : M (ParserError + A) := fun p =>
  match m p with
  | (OK a, p') => (OK (inr a), p')
  | (Err e, p') => (OK (inl e), p')
  | (Panic, p') => (Panic, p')
  | (OutOfFuel, p') => (OutOfFuel, p')
  end.

(** Following a pointer: nil panics. *)
Definition deref {A} (o : option A) : M A :=
  match o with
  | Some a => ret a
  | None => panic
  end.

Definition getParser : M parser := fun p => (OK p, p).

(** [p.node], the pointer. *)
Definition getNode : M (option ASTNode) := fun p => (OK (node p), p).

(** [p.node.Token] followed to the token, as in [p.node.Token.ID]. *)
Definition curToken : M LexToken :=
  do n <- getNode;
  do n <- deref n;
  deref (Token n).

(** [instance]: a new instance of a node, connected to a lexer token. *)
Definition instance (p : parser) (n : ASTNode) (t : option LexToken)
    : ASTNode :=
  let ret := mkASTNode (Name n) t [] None (binding n) (nullDenotation n)
               (leftDenotation n) in
  match rp p with
  | Some provider => setRuntime ret (Some (provider ret))
  | None => ret
  end.

(** [next] retrieves the next lexer token. *)
Definition next : M ASTNode := fun p =>
  match tokens p with
  | [] =>
      (Err (newParserError p ErrUnexpectedEnd (DetailString "") zeroToken), p)
  | token :: rest =>
      let p' := setTokens p rest in
      if decide (ID token = TokenError) then
        (Err (newParserError p ErrLexicalError (DetailString (Val token))
                token), p')
      else
        match astNodeMap (ID token) with
        | Some n => (OK (instance p n (Some token)), p')
        | None =>
            (Err (newParserError p ErrUnknownToken (DetailUnknownID token)
                    token), p')
        end
  end.

(** [p.node, err = p.next()]: the current node becomes the node returned,
    which is nil when [next] fails. *)
Definition nextNode : M unit := fun p =>
  match next p with
  | (OK n, p') => (OK tt, setNode p' (Some n))
  | (Err e, p') => (Err e, setNode p' None)
  | (Panic, p') => (Panic, p')
  | (OutOfFuel, p') => (OutOfFuel, p')
  end.

(** ** Helper functions *)

(** The closure [canSkip] of [skipToken]. *)
Fixpoint canSkip (ids : list LexTokenID) (id : LexTokenID) : bool :=
  match ids with
  | [] => false
  | i :: ids' => if decide (i = id) then true else canSkip ids' id
  end.

(** [skipToken] skips over a given token. *)
Definition skipToken (ids : list LexTokenID) : M unit :=
  do t <- curToken;
  if negb (canSkip ids (ID t)) then
    if decide (ID t = TokenEOF) then
      parserError ErrUnexpectedEnd (DetailString "") t
    else
      parserError ErrUnexpectedToken (DetailString (Val t)) t
  else nextNode.

(** [acceptChild] accepts the current token as a child of [self]; the result
    is [self] with the child appended. *)
Definition acceptChild (self : ASTNode) (id : LexTokenID) : M ASTNode :=
  do current <- getNode;
  do _ <- nextNode;
  do current <- deref current;
  do t <- deref (Token current);
  if decide (ID t = id) then ret (appendChild self current)
  else parserError ErrUnexpectedToken (DetailString (Val t)) t.

(** ** Denotation functions

    The denotation functions call [run], and [run] calls them through the
    fields of the node.  They are written over the [run] they call; the
    loops which wait for a token take a bound on their iterations. *)

Section Denotations.

Variable run : Z -> M ASTNode.
Variable fuel : nat.

(** [ndTerm] is used for terminals. *)
Definition ndTerm (self : ASTNode) : M ASTNode := ret self.

(** [ndInner] returns the inner expression of an enclosed block and
    discards the block token. *)
Definition ndInner (self : ASTNode) : M ASTNode :=
  do exp <- run 0;
  do _ <- skipToken [TokenRPAREN];
  ret exp.

(** [ndPrefix] is used for prefix operators. *)
Definition ndPrefix (self : ASTNode) : M ASTNode :=
  do val <- run (binding self + 20);
  ret (appendChild self val).

(** [for p.node.Token.ID != TokenEOF { exp, err := p.run(0); ... }]:
    parse the rest and add it as children. *)
Fixpoint parseRest (k : nat) (self : ASTNode) : M ASTNode :=
  do t <- curToken;
  if decide (ID t <> TokenEOF) then
    match k with
    | O => outOfFuel
    | S k' =>
        do exp <- run 0;
        parseRest k' (appendChild self exp)
    end
  else ret self.

(** [ndGet] is used to parse lookup expressions. *)
Definition ndGet (self : ASTNode) : M ASTNode :=
  do self <- acceptChild self TokenNODEKIND;
  parseRest fuel self.

(** [for skipToken(p, TokenCOMMA) == nil { acceptChild(p, self,
    TokenVALUE) }]: read all commas and accept further values. *)
Fixpoint commaValues (k : nat) (self : ASTNode) : M ASTNode :=
  match k with
  | O => outOfFuel
  | S k' =>
      do skipped <- catch (skipToken [TokenCOMMA]);
      match skipped with
      | inl _ => ret self
      | inr _ =>
          do self <- acceptChild self TokenVALUE;
          commaValues k' self
      end
  end.

(** [ndLookup] is used to parse lookup expressions. *)
Definition ndLookup (self : ASTNode) : M ASTNode :=
  do self <- acceptChild self TokenNODEKIND;
  do self <- acceptChild self TokenVALUE;
  do self <- commaValues fuel self;
  parseRest fuel self.

(** [ndFrom] is used to parse from group ... expressions: the group name
    becomes a child of [self.Children[0]]. *)
Definition ndFrom (self : ASTNode) : M ASTNode :=
  do self <- acceptChild self TokenGROUP;
  match Children self with
  | [] => panic
  | group :: others =>
      do group <- acceptChild group TokenVALUE;
      ret (setChildren self (group :: others))
  end.

(** The loop of [ndTraverse]. *)
Fixpoint traverseRest (k : nat) (self : ASTNode) : M ASTNode :=
  do t <- curToken;
  if decide (ID t <> TokenEOF /\ ID t <> TokenEND) then
    match k with
    | O => outOfFuel
    | S k' =>
        do exp <- run 0;
        traverseRest k' (appendChild self exp)
    end
  else ret self.

(** [ndTraverse] is used to parse traverse expressions. *)
Definition ndTraverse (self : ASTNode) : M ASTNode :=
  do self <- acceptChild self TokenVALUE;
  do self <- traverseRest fuel self;
  do t <- curToken;
  do _ <- (if decide (ID t = TokenEND) then
             do _ <- catch (skipToken [TokenEND]); ret tt
           else ret tt);
  ret self.

(** [ndFunc] is used to parse functions. *)
Definition ndFunc (self : ASTNode) : M ASTNode :=
  do self <- acceptChild self TokenVALUE;
  do _ <- skipToken [TokenLPAREN];
  do t <- curToken;
  do self <- (if decide (ID t = TokenVALUE) then
                do accepted <- catch (acceptChild self TokenVALUE);
                commaValues fuel
                  (match accepted with inr self' => self' | inl _ => self end)
              else ret self);
  do _ <- skipToken [TokenRPAREN];
  ret self.

(** [if p.node.Token.ID == id { current := p.node; acceptChild(p, st, id);
    if err := acceptChild(p, current, TokenVALUE); err != nil ... }]: the
    suffix node [current] becomes a child of [st] when the first call
    succeeds, and the value which the second call appends to [current] is
    seen through [st], which holds the pointer. *)
Definition acceptSuffix (st : ASTNode) (id : LexTokenID) : M ASTNode :=
  do t <- curToken;
  if decide (ID t = id) then
    do current <- getNode;
    do current <- deref current;
    do accepted <- catch (acceptChild st id);
    do current <- acceptChild current TokenVALUE;
    ret (match accepted with
         | inr _ => appendChild st current
         | inl _ => st
         end)
  else ret st.

(** The closure [acceptShowTerm] of [ndShow]. *)
Definition acceptShowTerm (self : ASTNode) : M ASTNode :=
  do p <- getParser;
  do showterm <- deref (astNodeMap TokenSHOWTERM);
  do current <- getNode;
  do current <- deref current;
  let st := instance p showterm (Token current) in
  do t <- curToken;
  do st <- (if decide (ID t = TokenAT) then
              do exp <- run 0;
              ret (appendChild st exp)
            else
              do _ <- catch (skipToken [TokenVALUE]);
              ret st);
  do st <- acceptSuffix st TokenAS;
  do st <- acceptSuffix st TokenFORMAT;
  ret (appendChild self st).

(** [for skipToken(p, TokenCOMMA) == nil { acceptShowTerm() }] *)
Fixpoint showTerms (k : nat) (self : ASTNode) : M ASTNode :=
  match k with
  | O => outOfFuel
  | S k' =>
      do skipped <- catch (skipToken [TokenCOMMA]);
      match skipped with
      | inl _ => ret self
      | inr _ =>
          do self <- acceptShowTerm self;
          showTerms k' self
      end
  end.

(** [ndShow] is used to parse a show clauses. *)
Definition ndShow (self : ASTNode) : M ASTNode :=
  do t <- curToken;
  if decide (ID t = TokenVALUE \/ ID t = TokenAT) then
    do self <- acceptShowTerm self;
    showTerms fuel self
  else ret self.

(** [if p.node.Token.ID == TokenCOMMA { skipToken(p, TokenCOMMA) }] *)
Definition skipComma : M unit :=
  do t <- curToken;
  if decide (ID t = TokenCOMMA) then
    do _ <- catch (skipToken [TokenCOMMA]); ret tt
  else ret tt.

(** The loop shared by [ndWith] (until [TokenEOF]), [ndWithFunc] (until
    [TokenRPAREN]) and [ndList] (until [TokenRBRACK]): expressions with
    commas between them. *)
Fixpoint parseList (stop : LexTokenID) (k : nat) (self : ASTNode)
    : M ASTNode :=
  do t <- curToken;
  if decide (ID t <> stop) then
    match k with
    | O => outOfFuel
    | S k' =>
        do exp <- run 0;
        let self := appendChild self exp in
        do _ <- skipComma;
        parseList stop k' self
    end
  else ret self.

(** [ndWith] is used to parse a with clauses. *)
Definition ndWith (self : ASTNode) : M ASTNode :=
  parseList TokenEOF fuel self.

(** [ndWithFunc] is used to parse directives in with clauses. *)
Definition ndWithFunc (self : ASTNode) : M ASTNode :=
  do _ <- skipToken [TokenLPAREN];
  do self <- parseList TokenRPAREN fuel self;
  do _ <- skipToken [TokenRPAREN];
  ret self.

(** [ndList] is used to collect elements of a list. *)
Definition ndList (self : ASTNode) : M ASTNode :=
  do p <- getParser;
  do list <- deref (astNodeMap TokenLIST);
  let st := instance p list (Token self) in
  do st <- parseList TokenRBRACK fuel st;
  do _ <- skipToken [TokenRBRACK];
  ret st.

(** [ldInfix] is used for infix operators. *)
Definition ldInfix (self left : ASTNode) : M ASTNode :=
  do right <- run (binding self);
  ret (appendChild (appendChild self left) right).

(** [n.nullDenotation(p, n)] *)
Definition callNullDenotation (nd : NullDenotation) (self : ASTNode)
    : M ASTNode :=
  match nd with
  | NdTerm => ndTerm self
  | NdInner => ndInner self
  | NdPrefix => ndPrefix self
  | NdGet => ndGet self
  | NdLookup => ndLookup self
  | NdFrom => ndFrom self
  | NdTraverse => ndTraverse self
  | NdFunc => ndFunc self
  | NdShow => ndShow self
  | NdWith => ndWith self
  | NdWithFunc => ndWithFunc self
  | NdList => ndList self
  end.

(** [n.leftDenotation(p, n, left)] *)
Definition callLeftDenotation (ld : LeftDenotation) (self left : ASTNode)
    : M ASTNode :=
  match ld with
  | LdInfix => ldInfix self left
  end.

(** The loop of [run]: collect left denotations as long as the left
    binding power is greater than the initial right one. *)
Fixpoint runLoop (k : nat) (rightBinding : Z) (left : ASTNode)
    : M ASTNode :=
  do cur <- getNode;
  do cur <- deref cur;
  if decide (rightBinding < binding cur) then
    match k with
    | O => outOfFuel
    | S k' =>
        do _ <- nextNode;
        match leftDenotation cur with
        | None =>
            do t <- deref (Token cur);
            parserError ErrImpossibleLeftDenotation (DetailToken t) t
        | Some ld =>
            do nleft <- callLeftDenotation ld cur left;
            runLoop k' rightBinding nleft
        end
    end
  else ret left.

End Denotations.

(** [run] models the main parser function.  Each call takes a token from
    the channel before it calls a denotation function, so the depth of the
    calls and the iterations of a loop are bounded by the number of tokens;
    [fuel] is that bound. *)
Fixpoint run (fuel : nat) (rightBinding : Z) : M ASTNode :=
  match fuel with
  | O => outOfFuel
  | S fuel' =>
      do n <- getNode;
      do _ <- nextNode;
      do n <- deref n;
      match nullDenotation n with
      | None =>
          do t <- deref (Token n);
          parserError ErrImpossibleNullDenotation (DetailToken t) t
      | Some nd =>
          do left <- callNullDenotation (run fuel') fuel' nd n;
          runLoop (run fuel') fuel' rightBinding left
      end
  end.

(** The body of [ParseWithRuntime] from the parser [p] it builds: take the
    first token, then [p.run(0)]. *)
Definition parse (p : parser) : outcome ASTNode :=
  match next p with
  | (OK n, p') => fst (run (S (length (tokens p'))) 0 (setNode p' (Some n)))
  | (Err e, _) => Err e
  | (Panic, _) => Panic
  | (OutOfFuel, _) => OutOfFuel
  end.

(** ** The lexer *)

Module Lexer.

(** Where the lexer is in its input: offset, line and column. *)
Record Cursor : Set := mkCursor { cOff : Z; cLine : Z; cCol : Z }.

Definition startCursor : Cursor := mkCursor 0 1 1.

Definition newline : ascii := ascii_of_nat 10.
Definition dquote : ascii := ascii_of_nat 34.

Definition stepCursor (c : ascii) (cur : Cursor) : Cursor :=
  if decide (c = newline) then mkCursor (cOff cur + 1) (cLine cur + 1) 1
  else mkCursor (cOff cur + 1) (cLine cur) (cCol cur + 1).

Definition isSpace (c : ascii) : bool :=
  bool_decide (c = " "%char \/ c = newline \/ c = ascii_of_nat 9 \/
               c = ascii_of_nat 13).

Definition lower (c : ascii) : ascii :=
  let n := nat_of_ascii c in
  if ((65 <=? n) && (n <=? 90))%nat then ascii_of_nat (n + 32) else c.

Fixpoint lowerString (s : string) : string :=
  match s with
  | EmptyString => EmptyString
  | String c s' => String (lower c) (lowerString s')
  end.

Definition keywords : list (string * LexTokenID) :=
  [ ("get", TokenGET); ("lookup", TokenLOOKUP); ("from", TokenFROM);
    ("group", TokenGROUP); ("with", TokenWITH);
    ("filtering", TokenFILTERING); ("ordering", TokenORDERING);
    ("nulltraversal", TokenNULLTRAVERSAL); ("where", TokenWHERE);
    ("traverse", TokenTRAVERSE); ("end", TokenEND);
    ("primary", TokenPRIMARY); ("show", TokenSHOW); ("as", TokenAS);
    ("format", TokenFORMAT); ("and", TokenAND); ("or", TokenOR);
    ("like", TokenLIKE); ("in", TokenIN); ("contains", TokenCONTAINS);
    ("beginswith", TokenBEGINSWITH); ("endswith", TokenENDSWITH);
    ("containsnot", TokenCONTAINSNOT); ("not", TokenNOT);
    ("notin", TokenNOTIN); ("false", TokenFALSE); ("true", TokenTRUE);
    ("unique", TokenUNIQUE); ("uniquecount", TokenUNIQUECOUNT);
    ("null", TokenNULL); ("isnotnull", TokenISNOTNULL);
    ("ascending", TokenASCENDING); ("descending", TokenDESCENDING) ].

Fixpoint lookupKeyword (table : list (string * LexTokenID)) (w : string)
    : option LexTokenID :=
  match table with
  | [] => None
  | (k, id) :: table' =>
      if decide (k = w) then Some id else lookupKeyword table' w
  end.

(** Symbols of one character and of two characters. *)
Definition symbol1 (c : ascii) : option LexTokenID :=
  if decide (c = "="%char) then Some TokenEQ
  else if decide (c = ">"%char) then Some TokenGT
  else if decide (c = "<"%char) then Some TokenLT
  else if decide (c = "("%char) then Some TokenLPAREN
  else if decide (c = ")"%char) then Some TokenRPAREN
  else if decide (c = "["%char) then Some TokenLBRACK
  else if decide (c = "]"%char) then Some TokenRBRACK
  else if decide (c = ","%char) then Some TokenCOMMA
  else if decide (c = "@"%char) then Some TokenAT
  else if decide (c = "+"%char) then Some TokenPLUS
  else if decide (c = "-"%char) then Some TokenMINUS
  else if decide (c = "*"%char) then Some TokenTIMES
  else if decide (c = "/"%char) then Some TokenDIV
  else if decide (c = "%"%char) then Some TokenMODINT
  else None.

Definition symbol2 (c1 c2 : ascii) : option LexTokenID :=
  if decide (c1 = ">"%char /\ c2 = "="%char) then Some TokenGEQ
  else if decide (c1 = "<"%char /\ c2 = "="%char) then Some TokenLEQ
  else if decide (c1 = "!"%char /\ c2 = "="%char) then Some TokenNEQ
  else if decide (c1 = "/"%char /\ c2 = "/"%char) then Some TokenDIVINT
  else None.

Definition tokenAt (id : LexTokenID) (cur : Cursor) (val : string)
    : LexToken :=
  mkLexToken id (cOff cur) val (cLine cur) (cCol cur).

(** What the lexer is reading. *)
Inductive Mode : Set :=
  | Between
  | InWord (start : Cursor) (buf : string)
  | InQuote (start : Cursor) (buf : string).

(** The token of a word: a node kind after [get] and [lookup], a keyword,
    or a value; with it, whether a node kind follows. *)
Definition wordToken (start : Cursor) (w : string) (kind : bool)
    : LexToken * bool :=
  if kind then (tokenAt TokenNODEKIND start w, false)
  else
    match lookupKeyword keywords (lowerString w) with
    | Some id =>
        (tokenAt id start w,
         bool_decide (id = TokenGET \/ id = TokenLOOKUP))
    | None => (tokenAt TokenVALUE start w, false)
    end.

(** The word which ends where a space, a quote or a symbol begins. *)
Definition flush (m : Mode) (kind : bool) : list LexToken * bool :=
  match m with
  | InWord start w =>
      let (t, kind') := wordToken start w kind in ([t], kind')
  | _ => ([], kind)
  end.

Local Infix "++ₗ" := (@app LexToken) (at level 60, right associativity).

Definition snoc (s : string) (c : ascii) : string :=
  s ++ String c EmptyString.

Fixpoint lexFrom (cs : list ascii) (cur : Cursor) (m : Mode) (kind : bool)
    {struct cs} : list LexToken :=
  match cs with
  | [] =>
      match m with
      | InQuote start _ =>
          [tokenAt TokenError start "Unexpected end while reading value"]
      | _ => fst (flush m kind) ++ₗ [tokenAt TokenEOF cur ""]
      end
  | c :: rest =>
      let cur1 := stepCursor c cur in
      match m with
      | InQuote start buf =>
          if decide (c = dquote) then
            tokenAt TokenVALUE start buf :: lexFrom rest cur1 Between false
          else lexFrom rest cur1 (InQuote start (snoc buf c)) kind
      | _ =>
          let single (_ : unit) : list LexToken :=
            match symbol1 c with
            | Some id =>
                fst (flush m kind) ++ₗ
                tokenAt id cur (String c EmptyString) ::
                lexFrom rest cur1 Between false
            | None =>
                if decide (c = "!"%char) then
                  fst (flush m kind) ++ₗ
                  [tokenAt TokenError cur "Unknown symbol"]
                else
                  match m with
                  | InWord start buf =>
                      lexFrom rest cur1 (InWord start (snoc buf c)) kind
                  | _ =>
                      lexFrom rest cur1
                        (InWord cur (String c EmptyString)) kind
                  end
            end in
          if isSpace c then
            fst (flush m kind) ++ₗ
            lexFrom rest cur1 Between (snd (flush m kind))
          else if decide (c = dquote) then
            fst (flush m kind) ++ₗ
            lexFrom rest cur1 (InQuote cur EmptyString)
              (snd (flush m kind))
          else
            match rest with
            | c2 :: rest2 =>
                match symbol2 c c2 with
                | Some id =>
                    fst (flush m kind) ++ₗ
                    tokenAt id cur (String c (String c2 EmptyString)) ::
                    lexFrom rest2 (stepCursor c2 cur1) Between false
                | None => single tt
                end
            | [] => single tt
            end
      end
  end.

End Lexer.

(** Modelled from the spec: the lexer [Lex] is declared outside the parser
    file.  The specification gives the interface of its result: a sequence
    of tokens with an identifier, a value, a line and a column, ended by an
    EOF token or by a single error token, after which the channel is closed.
    This lexer reads words between spaces, values between double quotes and
    the operator symbols; a word is a keyword whatever its case, the word
    after [get] and [lookup] is a node kind, any other word is a value. *)
Definition Lex (name input : string) : list LexToken :=
  Lexer.lexFrom (String.list_ascii_of_string input) Lexer.startCursor
    Lexer.Between false.

(** [ParseWithRuntime] parses a given input string and returns an AST
    decorated with runtime components. *)
Definition ParseWithRuntime (name input : string)
    (rp : option RuntimeProvider) : outcome ASTNode :=
  parse (mkParser name None (Lex name input) rp).

(** [Parse] parses a given input string and returns an AST. *)
Definition Parse (name input : string) : outcome ASTNode :=
  ParseWithRuntime name input None.

(** The inputs of the scenarios. *)
Definition quoted (s : string) : string :=
  String Lexer.dquote (s ++ String Lexer.dquote EmptyString).

Definition inputGetSong : string := "get Song where name = " ++ quoted "Aria1".

(** ** The shape of a tree *)

(** A node as the specification writes it, [(NAME value child ...)]: the
    name, the value of the token (none for a nil token) and the children. *)
Inductive SExp : Set :=
  | SNode (name : string) (value : option string) (args : list SExp).

Fixpoint sexp (n : ASTNode) : SExp :=
  match n with
  | mkASTNode nm t cs _ _ _ _ => SNode nm (Val <$> t) (sexp <$> cs)
  end.

(** Two trees are structurally equal when they have the same node name, the
    same token value and the same children, recursively. *)
Definition structEq (n m : ASTNode) : Prop := sexp n = sexp m.

(** The names which occur in a tree. *)
Fixpoint names (n : ASTNode) : list string :=
  match n with
  | mkASTNode nm _ cs _ _ _ _ => nm :: mjoin (names <$> cs)
  end.

(** ** Plain ASTs *)

(** The values of a plain AST, which are of type [interface{}]: a string, a
    slice of maps ([[]map[string]interface{}], what [Plain] builds), a slice
    of values ([[]interface{}], what a JSON decoder builds), a map, or a
    value of another type, given by what [fmt.Sprint] prints for it. *)
Inductive Iface : Type :=
  | IString (s : string)
  | IMapSlice (l : list PlainAST)
  | ISlice (l : list Iface)
  | IMap (m : PlainAST)
  | IOther (printed : string)
with PlainAST : Type :=
  | PlainMap (entries : gmap string Iface).

Definition entriesOf (m : PlainAST) : gmap string Iface :=
  match m with PlainMap entries => entries end.

Definition joinWith (sep : string) (l : list string) : string :=
  match l with
  | [] => EmptyString
  | s :: l' => s ++ foldr (fun x acc => sep ++ x ++ acc) EmptyString l'
  end.

Definition keyLe (a b : string * string) : Prop := String.leb a.1 b.1 = true.

#[global] Instance keyLe_dec a b : Decision (keyLe a b).
Proof. unfold keyLe. apply _. Defined.

(** [fmt.Sprint] of a value: a string prints as itself, a slice as
    [[a b]], a map as [map[k:v k:v]] with its keys in order. *)
Fixpoint Sprint (v : Iface) : string :=
  match v with
  | IString s => s
  | IMapSlice l => "[" ++ joinWith " " (SprintMap <$> l) ++ "]"
  | ISlice l => "[" ++ joinWith " " (Sprint <$> l) ++ "]"
  | IMap m => SprintMap m
  | IOther printed => printed
  end
with SprintMap (m : PlainAST) : string :=
  match m with
  | PlainMap entries =>
      "map[" ++
      joinWith " "
        ((fun kv => kv.1 ++ ":" ++ kv.2) <$>
         merge_sort keyLe (map_to_list (Sprint <$> entries))) ++
      "]"
  end.

(** The errors of [ASTFromPlain]. *)
Inductive PlainError : Type :=
  | WithoutName (m : PlainAST)
  | WithoutValue (m : PlainAST).

(** The result of [ASTFromPlain]: a value, an error, or a panic of a type
    assertion which fails. *)
Inductive converted (A : Type) : Type :=
  | Converted (a : A)
  | ConvError (e : PlainError)
  | ConvPanic.
Arguments Converted {A} a.
Arguments ConvError {A} e.
Arguments ConvPanic {A}.

Definition isMap (v : Iface) : bool :=
  match v with IMap _ => true | _ => false end.

(** [ASTFromPlain] creates an AST from a plain AST.  The children are
    converted by [childrenFromPlain], which is applied to the entry under
    the key children: a slice of values is first converted, element by
    element, to a slice of maps (a type assertion on each element), then
    the maps are converted in order, up to the first error. *)
Fixpoint ASTFromPlain (plainAST : PlainAST) : converted ASTNode :=
  match plainAST with
  | PlainMap entries =>
      match entries !! "name" with
      | None => ConvError (WithoutName plainAST)
      | Some name =>
          match entries !! "value" with
          | None => ConvError (WithoutValue plainAST)
          | Some value =>
              let node astChildren :=
                mkASTNode (Sprint name)
                  (Some (mkLexToken TokenGeneral 0 (Sprint value) 0 0))
                  astChildren None 0 None None in
              match (childrenFromPlain <$> entries) !! "children" with
              | None => Converted (node [])
              | Some (Converted astChildren) => Converted (node astChildren)
              | Some (ConvError e) => ConvError e
              | Some ConvPanic => ConvPanic
              end
          end
      end
  end
with childrenFromPlain (children : Iface) : converted (list ASTNode) :=
  match children with
  | ISlice ic =>
      if forallb isMap ic then
        (fix each (l : list Iface) : converted (list ASTNode) :=
           match l with
           | [] => Converted []
           | IMap child :: l' =>
               match ASTFromPlain child with
               | Converted astChild =>
                   match each l' with
                   | Converted cs => Converted (astChild :: cs)
                   | other => other
                   end
               | ConvError e => ConvError e
               | ConvPanic => ConvPanic
               end
           | _ :: _ => ConvPanic
           end) ic
      else ConvPanic
  | IMapSlice l =>
      (fix each (l : list PlainAST) : converted (list ASTNode) :=
         match l with
         | [] => Converted []
         | child :: l' =>
             match ASTFromPlain child with
             | Converted astChild =>
                 match each l' with
                 | Converted cs => Converted (astChild :: cs)
                 | other => other
                 end
             | ConvError e => ConvError e
             | ConvPanic => ConvPanic
             end
         end) l
  | _ => ConvPanic
  end.

(** [Plain] returns this ASTNode and all its children as plain AST; [None]
    is the panic on a nil token. *)
Fixpoint Plain (n : ASTNode) : option PlainAST :=
  match n with
  | mkASTNode nm t cs _ _ _ _ =>
      let ret : gmap string Iface := <["name" := IString nm]> ∅ in
      children ← mapM Plain cs;
      let ret :=
        if decide (0 < Z.of_nat (List.length cs))
        then <["children" := IMapSlice children]> ret else ret in
      token ← t;
      Some (PlainMap (<["value" := IString (Val token)]> ret))
  end.


(** ** What the specification expects *)

(** Modelled from the spec: the name which the specification gives to the
    node of a node kind.  The parser file has no such constant: its table
    gives the token [TokenNODEKIND] the name [NodeVALUE]. *)
Definition NodeNODEKIND := "NODEKIND".

(** The binding powers as the specification lists them: the tokens of a
    row have the binding power of the row. *)
Definition statedPowers : list (list LexTokenID * Z) :=
  [ ([TokenNOT], 20);
    ([TokenOR], 30);
    ([TokenAND], 40);
    ([TokenGEQ; TokenLEQ; TokenNEQ; TokenEQ; TokenGT; TokenLT; TokenLIKE;
      TokenIN; TokenCONTAINS; TokenBEGINSWITH; TokenENDSWITH;
      TokenCONTAINSNOT; TokenNOTIN], 60);
    ([TokenPLUS; TokenMINUS], 110);
    ([TokenTIMES; TokenDIV; TokenMODINT; TokenDIVINT], 120);
    ([TokenLPAREN; TokenLBRACK], 150) ].

(** A token for which the specification lists a binding power. *)
Definition stated (id : LexTokenID) : Prop :=
  Exists (fun row => id ∈ row.1) statedPowers.

(** A leaf [(VALUE v)] and the trees of the scenarios. *)
Definition value (v : string) : SExp := SNode NodeVALUE (Some v) [].

Definition binary (nm v : string) (l r : SExp) : SExp :=
  SNode nm (Some v) [l; r].

(** The tree of scenario S2 as the specification states it, for some values
    of the GET, WHERE and EQ nodes. *)
Definition statedGetSong (vg vw ve : option string) : SExp :=
  SNode NodeGET vg
    [ SNode NodeNODEKIND (Some "Song") [];
      SNode NodeWHERE vw [ SNode NodeEQ ve [value "name"; value "Aria1"] ] ].

(** The identifiers and the values of a stream of tokens. *)
Definition tokenKinds (ts : list LexToken) : list (LexTokenID * string) :=
  (fun t => (ID t, Val t)) <$> ts.

(** The type of an outcome which is an error. *)
Definition errorType {A} (o : outcome A) : option ErrorType :=
  match o with
  | Err e => Some (ErrType e)
  | _ => None
  end.

(** The identifiers of the tokens which occur in a tree. *)
Fixpoint tokenIDs (n : ASTNode) : list LexTokenID :=
  match n with
  | mkASTNode _ t cs _ _ _ _ =>
      match t with Some t => [ID t] | None => [] end ++ mjoin (tokenIDs <$> cs)
  end.

(** Every node of the tree has a token. *)
Inductive tokened : ASTNode -> Prop :=
  | tokened_node n :
      is_Some (Token n) -> Forall tokened (Children n) -> tokened n.

(** The current node of the parser, if there is one, has its tokens. *)
Definition nodeTokened (p : parser) : Prop :=
  forall n, node p = Some n -> tokened n.

(** The conversion of a slice of maps in [ASTFromPlain]: the maps are
    converted in order, up to the first which fails. *)
Fixpoint convertMaps (l : list PlainAST) : converted (list ASTNode) :=
  match l with
  | [] => Converted []
  | child :: l' =>
      match ASTFromPlain child with
      | Converted astChild =>
          match convertMaps l' with
          | Converted cs => Converted (astChild :: cs)
          | other => other
          end
      | ConvError e => ConvError e
      | ConvPanic => ConvPanic
      end
  end.

(** From a state in [I], the method [m] ends in [I] with a value in [Q] or
    an error in [E]; nothing is said of a panic or of the bound on the
    recursion. *)
Definition triple (I : parser -> Prop) (E : ParserError -> Prop) {A}
    (m : M A) (Q : A -> Prop) : Prop :=
  forall p, I p ->
    match m p with
    | (OK a, p') => I p' /\ Q a
    | (Err e, p') => I p' /\ E e
    | (Panic, _) | (OutOfFuel, _) => True
    end.

(** *** Well-formed plain ASTs *)

(** A plain AST without children and one with the entry [c] under the key
    children. *)
Definition plainLeaf (nm v : string) : PlainAST :=
  PlainMap (<["value" := IString v]> (<["name" := IString nm]> ∅)).

Definition plainNode (nm v : string) (c : Iface) : PlainAST :=
  PlainMap (<["value" := IString v]>
              (<["children" := c]> (<["name" := IString nm]> ∅))).

(** A list of plain ASTs as a value: a slice of maps, or a slice of values
    which are maps. *)
Inductive childList : Iface -> list PlainAST -> Prop :=
  | childList_maps l : childList (IMapSlice l) l
  | childList_values l : childList (ISlice (IMap <$> l)) l.

(** A well-formed plain AST: a map with a string under name, a string under
    value and, optionally, a list of well-formed plain ASTs under
    children. *)
Inductive wfPlain : PlainAST -> Prop :=
  | wfPlain_leaf nm v : wfPlain (plainLeaf nm v)
  | wfPlain_node nm v c l :
      childList c l -> Forall wfPlain l -> wfPlain (plainNode nm v c).

(** A well-formed plain AST in which no list of children is empty. *)
Inductive wfPlainNonEmpty : PlainAST -> Prop :=
  | wfPlainNonEmpty_leaf nm v : wfPlainNonEmpty (plainLeaf nm v)
  | wfPlainNonEmpty_node nm v c l :
      childList c l -> l <> [] -> Forall wfPlainNonEmpty l ->
      wfPlainNonEmpty (plainNode nm v c).

(** Equality of plain ASTs as map structures: the same name and value and
    the same list of children, whatever the type of the slice. *)
Inductive mapEq : PlainAST -> PlainAST -> Prop :=
  | mapEq_leaf nm v : mapEq (plainLeaf nm v) (plainLeaf nm v)
  | mapEq_node nm v c l c' l' :
      childList c l -> childList c' l' -> Forall2 mapEq l l' ->
      mapEq (plainNode nm v c) (plainNode nm v c').

(** A plain AST which has only slices of maps. *)
Inductive onlyMapSlices : PlainAST -> Prop :=
  | onlyMapSlices_leaf nm v : onlyMapSlices (plainLeaf nm v)
  | onlyMapSlices_node nm v l :
      Forall onlyMapSlices l -> onlyMapSlices (plainNode nm v (IMapSlice l)).

(** A well-formed plain AST with an empty list of children. *)
Definition plainEmptyChildren : PlainAST := plainNode "a" "b" (IMapSlice []).

(** *** Operands and infix operators *)

(** The name which the table gives to the node of a token. *)
Definition nameOf (t : LexToken) : string :=
  match astNodeMap (ID t) with
  | Some pr => Name pr
  | None => EmptyString
  end.

(** The binding power which the table gives to a token. *)
Definition bindingOf (t : LexToken) : Z :=
  match astNodeMap (ID t) with
  | Some pr => binding pr
  | None => 0
  end.

(** A token whose null denotation is [ndTerm]: an operand. *)
Definition isOperand (t : LexToken) : Prop :=
  nullDenotation <$> astNodeMap (ID t) = Some (Some NdTerm).

(** A token whose left denotation is [ldInfix]: an infix operator. *)
Definition isInfix (t : LexToken) : Prop :=
  leftDenotation <$> astNodeMap (ID t) = Some (Some LdInfix).

(** The node of a token as the specification writes it. *)
Definition nodeOf (t : LexToken) (args : list SExp) : SExp :=
  SNode (nameOf t) (Some (Val t)) args.

(** *** Streams of tokens *)

(** A comma, and the error token which ends the stream of a lexer that
    fails. *)
Definition commaToken : LexToken := mkLexToken TokenCOMMA 0 "," 1 1.

Definition lexErrorToken : LexToken :=
  mkLexToken TokenError 2 "Unexpected end while reading value" 1 3.

(** The input of a comma followed by a value whose quote is not closed. *)
Definition inputCommaOpenQuote : string :=
  ", " ++ String Lexer.dquote "x".




(** The nodes and tokens of the examples. *)
Definition lparenToken : LexToken := mkLexToken TokenLPAREN 2 "(" 1 3.


Definition valueToken : LexToken := mkLexToken TokenVALUE 0 "a" 1 1.

(** The node which [next] makes of a token with the prototype [pr], without
    a runtime provider. *)
Definition nodeOfToken (pr : ASTNode) (t : LexToken) : ASTNode :=
  instance (mkParser "demo" None [] None) pr (Some t).

Definition valueNode : ASTNode :=
  nodeOfToken (proto NodeVALUE 0 (Some NdTerm) None) valueToken.

Definition commaNode : ASTNode :=
  nodeOfToken (proto NodeCOMMA 0 None None) commaToken.

Definition lparenNode : ASTNode :=
  nodeOfToken (proto NodeLPAREN 150 (Some NdInner) None) lparenToken.


(** No node of the tree is named NODEKIND. *)
Definition noKindName (n : ASTNode) : Prop := NodeNODEKIND ∉ names n.

Definition nodeNoKindName (p : parser) : Prop :=
  forall n, node p = Some n -> noKindName n.

(** *** The bound on the recursion *)

(** From a state with [L] tokens to take, the method [m] does not reach
    the bound on the recursion; it returns a value with a number of tokens
    left in [Q], or an error with no more tokens left than before. *)
Definition within (L : nat) {A} (m : M A) (Q : A -> nat -> Prop) : Prop :=
  forall p, length (tokens p) = L ->
    match m p with
    | (OK a, p') => Q a (length (tokens p'))
    | (Err _, p') => (length (tokens p') <= L)%nat
    | (Panic, _) => True
    | (OutOfFuel, _) => False
    end.

(** *** The errors of the calls of [run] *)

(** The body of [run] over the [run] which it calls: [run (S fuel)] is
    [runStep (run fuel) fuel]. *)
Definition runStep (run' : Z -> M ASTNode) (fuel : nat) (rightBinding : Z)
    : M ASTNode :=
  do n <- getNode;
  do _ <- nextNode;
  do n <- deref n;
  match nullDenotation n with
  | None =>
      do t <- deref (Token n);
      parserError ErrImpossibleNullDenotation (DetailToken t) t
  | Some nd =>
      do left <- callNullDenotation run' fuel nd n;
      runLoop run' fuel rightBinding left
  end.

(** From every state, the method [m1] does what [m2] does, or it fails
    with an error of [E]. *)
Definition sameOrFails (E : ParserError -> Prop) {A} (m1 m2 : M A) : Prop :=
  forall p, m1 p = m2 p \/ exists e p', m1 p = (Err e, p') /\ E e.

(** The parser in which every call of [run] with one unit of fuel fails
    with the error [e] where [run] would do its work. *)
Fixpoint failingRun (e : ParserError) (fuel : nat) (rightBinding : Z)
    : M ASTNode :=
  match fuel with
  | O => outOfFuel
  | S fuel' =>
      match fuel' with
      | O => fun p => (Err e, p)
      | S _ => runStep (failingRun e fuel') fuel' rightBinding
      end
  end.



(** ** The paged storage file *)

Module Paging.

(** Modelled from the spec: the storage file, the page view and the paged
    storage file are declared outside the excerpt, which holds only the
    test of the page count.  The definitions follow the specification: a
    storage file of records addressed by an id, of which record 0 is the
    root record and records 1 to N are user records, each either free or
    held by one holder; a page header with a type and the locations of the
    next and of the previous page, 0 for none; and a paged storage file
    which keeps, in the root table, the head of the list of each page
    type.  A location is given by the id of its record. *)
Inductive PageType : Set :=
  | FREE_PAGE | DATA_PAGE | FREE_PHYSICAL_SLOT_PAGE | FREE_LOGICAL_SLOT_PAGE
  | TRANSLATION_PAGE.

#[global] Instance PageType_eq_dec : EqDecision PageType.
Proof. solve_decision. Defined.

Inductive StorageError : Set :=
  | ErrAlreadyInUse
  | ErrInUse
  | ErrIO.

Record PageHeader : Set := mkPageHeader {
  pageType : PageType;
  nextPage : N;
  prevPage : N
}.

(** Modelled from the spec: the storage file.  [records] holds the user
    records, [size] is their number and [inUse] is the in-use set, "the
    single source of truth" of who holds a record. *)
Record StorageFile : Type := mkStorageFile {
  records : gmap N PageHeader;
  size : N;
  inUse : gset N
}.

(** Modelled from the spec: [Get(id)] "acquires the record for exclusive
    use. While held, any further Get(id) must return AlreadyInUse". *)
Definition Get (sf : StorageFile) (id : N)
    : StorageError + (PageHeader * StorageFile) :=
  if decide (id ∈ inUse sf) then inl ErrAlreadyInUse
  else
    match records sf !! id with
    | Some r =>
        inr (r, mkStorageFile (records sf) (size sf) ({[id]} ∪ inUse sf))
    | None => inl ErrIO
    end.

(** Modelled from the spec: [ReleaseInUse(r)] "releases a clean hold". *)
Definition ReleaseInUse (sf : StorageFile) (id : N) : StorageFile :=
  mkStorageFile (records sf) (size sf) (inUse sf ∖ {[id]}).

(** Modelled from the spec: [ReleaseInUseDirty(r)] "releases a hold and
    marks the record for write-back"; the record is written here. *)
Definition ReleaseInUseDirty (sf : StorageFile) (id : N) (r : PageHeader)
    : StorageFile :=
  mkStorageFile (<[id := r]> (records sf)) (size sf) (inUse sf ∖ {[id]}).

(** Modelled from the spec: a mutation of a page "holds exactly one record
    at a time": it acquires, mutates and releases. *)
Definition mutate (sf : StorageFile) (id : N) (f : PageHeader -> PageHeader)
    : StorageError + StorageFile :=
  match Get sf id with
  | inl e => inl e
  | inr (r, sf') => inr (ReleaseInUseDirty sf' id (f r))
  end.

(** Modelled from the spec: the paged storage file "holds a reference to
    one StorageFile" and maintains the head of the list of each page type
    in the root table. *)
Record PagedStorageFile : Type := mkPagedStorageFile {
  storagefile : StorageFile;
  roots : PageType -> N
}.

Definition setRoot (rs : PageType -> N) (t : PageType) (id : N)
    : PageType -> N :=
  fun t' => if decide (t' = t) then id else rs t'.

(** A fresh paged storage file over a fresh storage file. *)
Definition NewPagedStorageFile : PagedStorageFile :=
  mkPagedStorageFile (mkStorageFile ∅ 0 ∅) (fun _ => 0%N).

(** Modelled from the spec: the page to allocate is popped "from the
    FREE_PAGE list (or grows the file if empty)"; the growth appends "one
    new record to the file". *)
Definition takeFreePage (psf : PagedStorageFile)
    : StorageError + (N * PagedStorageFile) :=
  let sf := storagefile psf in
  let free := roots psf FREE_PAGE in
  if decide (free = 0%N) then
    let id := (size sf + 1)%N in
    inr (id,
         mkPagedStorageFile
           (mkStorageFile
              (<[id := mkPageHeader FREE_PAGE 0 0]> (records sf)) id
              (inUse sf))
           (roots psf))
  else
    match Get sf free with
    | inl e => inl e
    | inr (r, sf') =>
        inr (free,
             mkPagedStorageFile (ReleaseInUse sf' free)
               (setRoot (roots psf) FREE_PAGE (nextPage r)))
    end.

(** Modelled from the spec: [AllocatePage(type)] "pops a record from the
    FREE_PAGE list (or grows the file if empty), initialises the header
    with type=type, inserts it at the head of the type list, returns its
    location". *)
Definition AllocatePage (psf : PagedStorageFile) (t : PageType)
    : StorageError + (N * PagedStorageFile) :=
  match takeFreePage psf with
  | inl e => inl e
  | inr (id, psf1) =>
      let head := roots psf1 t in
      match mutate (storagefile psf1) id
              (fun _ => mkPageHeader t head 0) with
      | inl e => inl e
      | inr sf2 =>
          let linked :=
            if decide (head = 0%N) then inr sf2
            else mutate sf2 head
                   (fun r => mkPageHeader (pageType r) (nextPage r) id) in
          match linked with
          | inl e => inl e
          | inr sf3 =>
              inr (id, mkPagedStorageFile sf3 (setRoot (roots psf1) t id))
          end
      end
  end.

(** The walk of [CountPages] from the page [cur], with [count] pages
    counted so far; the number of steps is bounded by [fuel]. *)
Fixpoint walkPages (fuel : nat) (sf : StorageFile) (cur : N) (count : Z)
    : Z * option StorageError :=
  if decide (cur = 0%N) then (count, None)
  else
    match fuel with
    | O => (-1, Some ErrIO)
    | S fuel' =>
        match Get sf cur with
        | inl e => (-1, Some e)
        | inr (r, sf') =>
            walkPages fuel' (ReleaseInUse sf' cur) (nextPage r) (count + 1)
        end
    end.

(** Modelled from the spec: [CountPages(type)] "walks the list from head to
    tail. Returns -1 together with AlreadyInUse if any page along the walk
    is held by another caller".  A list has no more pages than the file has
    records. *)
Definition CountPages (psf : PagedStorageFile) (t : PageType)
    : Z * option StorageError :=
  walkPages (N.to_nat (size (storagefile psf))) (storagefile psf)
    (roots psf t) 0.

(** Modelled from the spec: [Close()] "refuses to close while any page
    record is held". *)
Definition Close (psf : PagedStorageFile) : option StorageError :=
  if decide (inUse (storagefile psf) = ∅) then None else Some ErrInUse.

(** [sf.Get(id)] on the storage file of the paged storage file, which
    shares it. *)
Definition hold (psf : PagedStorageFile) (id : N)
    : StorageError + PagedStorageFile :=
  match Get (storagefile psf) id with
  | inl e => inl e
  | inr (_, sf') => inr (mkPagedStorageFile sf' (roots psf))
  end.

(** [sf.ReleaseInUse(r)] on the same. *)
Definition release (psf : PagedStorageFile) (id : N) : PagedStorageFile :=
  mkPagedStorageFile (ReleaseInUse (storagefile psf) id) (roots psf).

(** The loop of the test: [i] times [AllocatePage(DATA_PAGE)]. *)
Fixpoint allocateData (i : nat) (psf : PagedStorageFile)
    : StorageError + PagedStorageFile :=
  match i with
  | O => inr psf
  | S i' =>
      match allocateData i' psf with
      | inl e => inl e
      | inr psf' =>
          match AllocatePage psf' DATA_PAGE with
          | inl e => inl e
          | inr (_, psf'') => inr psf''
          end
      end
  end.

(** The state after [i] allocations of data pages: the pages 1 to [i] are
    linked from the head [i] down to page 1 and none is held. *)
Definition dataList (i : nat) (psf : PagedStorageFile) : Prop :=
  size (storagefile psf) = N.of_nat i
  /\ inUse (storagefile psf) = ∅
  /\ roots psf DATA_PAGE = N.of_nat i
  /\ roots psf FREE_PAGE = 0%N
  /\ forall j, (1 <= j <= i)%nat ->
       exists r, records (storagefile psf) !! N.of_nat j = Some r
                 /\ nextPage r = N.of_nat (j - 1).

End Paging.

(** ** Assertions on the parser *)

(** The token of the current node of the parser. *)
Definition curTok (p : parser) (t : LexToken) : Prop :=
  exists n, node p = Some n /\ Token n = Some t.

(** From a state in [P], the method [m] ends with a value and a state in
    [Q] or with an error and a state in [E]; a panic is possible only when
    [Pn] holds.  Nothing is said of the bound on the recursion. *)
Definition hoare (Pn : Prop) {A} (P : parser -> Prop) (m : M A)
    (Q : A -> parser -> Prop) (E : ParserError -> parser -> Prop) : Prop :=
  forall p, P p ->
    match m p with
    | (OK a, p') => Q a p'
    | (Err e, p') => E e p'
    | (Panic, _) => Pn
    | (OutOfFuel, _) => True
    end.

(** A property of every node of a tree. *)
Inductive allNodes (P : ASTNode -> Prop) : ASTNode -> Prop :=
  | allNodes_node n :
      P n -> Forall (allNodes P) (Children n) -> allNodes P n.

(** The node as [instance] makes it, before a runtime component is set and
    children are appended. *)
Definition bare (n : ASTNode) : ASTNode :=
  mkASTNode (Name n) (Token n) [] None (binding n) (nullDenotation n)
    (leftDenotation n).

(** A node of a parse of the stream [ts] with the runtime provider
    [provider]: its token is a token of the stream, its name, binding power
    and denotations are those of an entry of the table, and its runtime
    component is what the provider gives for the bare node, or nil without
    a provider. *)
Definition parsedNode (ts : list LexToken) (provider : option RuntimeProvider)
    (n : ASTNode) : Prop :=
  (exists t, Token n = Some t /\ t ∈ ts)
  /\ (exists id pr,
        astNodeMap id = Some pr /\ Name n = Name pr
        /\ binding n = binding pr
        /\ nullDenotation n = nullDenotation pr
        /\ leftDenotation n = leftDenotation pr)
  /\ Runtime n = (fun f => f (bare n)) <$> provider.

(** The state of a parse of the stream [ts] of the input [nm] with the
    runtime provider [provider]. *)
Definition parsing (nm : string) (ts : list LexToken)
    (provider : option RuntimeProvider) (p : parser) : Prop :=
  name p = nm /\ rp p = provider
  /\ (forall t, t ∈ tokens p -> t ∈ ts)
  /\ forall n, node p = Some n -> allNodes (parsedNode ts provider) n.

(** An error of a parse of the stream [ts] of the input [nm]: it has the
    name of the input, and its token is a token of the stream or the empty
    token of the closed channel. *)
Definition parseError (nm : string) (ts : list LexToken) (e : ParserError)
    : Prop :=
  Source e = nm /\ (ErrToken e ∈ ts \/ ErrToken e = zeroToken).

(** A token which has an entry in the table. *)
Definition known (t : LexToken) : Prop := is_Some (astNodeMap (ID t)).

(** A stream of known tokens which ends with an EOF token. *)
Definition wellFormed (ts : list LexToken) : Prop :=
  Forall known ts /\ ID <$> last ts = Some TokenEOF.

(** A stream which is empty or ends with an EOF token. *)
Definition endsWithEOF (ts : list LexToken) : Prop :=
  forall t, last ts = Some t -> ID t = TokenEOF.

(** The state of a parse of a well-formed stream: there is a current node,
    every node has its token, the tokens to take are known, and they are
    all taken only when the current token is the EOF token. *)
Definition alive (p : parser) : Prop :=
  (exists n t,
     node p = Some n /\ tokened n /\ Token n = Some t
     /\ (tokens p = [] -> ID t = TokenEOF))
  /\ Forall known (tokens p) /\ endsWithEOF (tokens p).

(** A state in [I] whose current token is not the EOF token. *)
Definition beforeEOF (I : parser -> Prop) (p : parser) : Prop :=
  I p /\ exists t, curTok p t /\ ID t <> TokenEOF.

(** ** The streams of the examples *)

(** A token at the start of the input. *)
Definition tok (id : LexTokenID) (v : string) : LexToken :=
  mkLexToken id 0 v 1 1.

(** get Song where name = Aria1, with its EOF token. *)
Definition getSongStream : list LexToken :=
  [tok TokenGET "get"; tok TokenNODEKIND "Song"; tok TokenWHERE "where";
   tok TokenVALUE "name"; tok TokenEQ "="; tok TokenVALUE "Aria1";
   tok TokenEOF ""].

(** get Song where, without an operand: the parser fails at the EOF token. *)
Definition getSongWhereStream : list LexToken :=
  [tok TokenGET "get"; tok TokenNODEKIND "Song"; tok TokenWHERE "where";
   tok TokenEOF ""].

(** show name, then the error token of the lexer. *)
Definition showErrorStream : list LexToken :=
  [tok TokenSHOW "show"; tok TokenVALUE "name"; lexErrorToken].

(** lookup Song a, then the error token of the lexer. *)
Definition lookupErrorStream : list LexToken :=
  [tok TokenLOOKUP "lookup"; tok TokenNODEKIND "Song"; tok TokenVALUE "a";
   tok TokenCOMMA ","; lexErrorToken].

(** with a, then the error token of the lexer. *)
Definition withErrorStream : list LexToken :=
  [tok TokenWITH "with"; tok TokenVALUE "a"; tok TokenCOMMA ",";
   lexErrorToken].

(** ** Streams on which [next] fails *)

(** The closed channel, or a stream whose first token has no entry in the
    table, as the error token of the lexer: [next] returns an error. *)
Definition failing (ts : list LexToken) : Prop :=
  match ts with
  | [] => True
  | t :: _ => astNodeMap (ID t) = None
  end.

(** A token whose null denotation is [ndPrefix]: a prefix operator. *)
Definition isPrefix (t : LexToken) : Prop :=
  nullDenotation <$> astNodeMap (ID t) = Some (Some NdPrefix).

(** ** Assertions on plain ASTs *)

(** A node as [ASTFromPlain] makes it: a general token at position, line
    and column zero, no runtime component, binding power zero and no
    denotation function. *)
Definition plainMade (n : ASTNode) : Prop :=
  (exists v, Token n = Some (mkLexToken TokenGeneral 0 v 0 0))
  /\ Runtime n = None /\ binding n = 0
  /\ nullDenotation n = None /\ leftDenotation n = None.

(** A value under the key children on which a type assertion of
    [ASTFromPlain] fails: not a slice, or a slice of values of which one
    is not a map. *)
Definition notMapList (c : Iface) : Prop :=
  match c with
  | IMapSlice _ => False
  | ISlice ic => forallb isMap ic = false
  | _ => True
  end.

(** A plain AST as a JSON decoder builds it, with a slice of values. *)
Definition jsonPlain : PlainAST :=
  plainNode "AND" "and" (ISlice [IMap (plainLeaf "VALUE" "a")]).

(** A plain AST whose children are a map without a name and a string. *)
Definition mixedPlain : PlainAST :=
  plainNode "AND" "and" (ISlice [IMap (PlainMap ∅); IString "b"]).

(** The node of the value a at another place of the input. *)
Definition valueNodeLater : ASTNode :=
  nodeOfToken (proto NodeVALUE 0 (Some NdTerm) None)
    (mkLexToken TokenVALUE 7 "a" 2 3).

(** @count(1, then the error token of the lexer. *)
Definition funcErrorStream : list LexToken :=
  [tok TokenAT "@"; tok TokenVALUE "count"; tok TokenLPAREN "(";
   tok TokenVALUE "1"; lexErrorToken].

(** * Properties *)

(** ** The table *)

(** C7: the table gives the tokens which the specification lists the
    binding powers listed for them: every token of a row of
    [statedPowers] has an entry in the table, with the binding power of
    the row, that is 20 for NOT, 30 for OR, 40 for AND, 60 for the
    comparisons and set predicates, 110 for PLUS and MINUS, 120 for TIMES,
    DIV, MODINT and DIVINT, and 150 for LPAREN and LBRACK; and every other
    token of the table has the binding power 0. *)
Theorem astNodeMap_binding :
  (forall ids k id,
     (ids, k) ∈ statedPowers -> id ∈ ids ->
     binding <$> astNodeMap id = Some k)
  /\ (forall id n,
        astNodeMap id = Some n -> ~ stated id -> binding n = 0).
Proof.
  split.
  - intros ids k id Hrow Hid. unfold statedPowers in Hrow.
    repeat match goal with
    | H : _ ∈ _ :: _ |- _ => apply elem_of_cons in H as [H | H]
    | H : _ ∈ [] |- _ => apply elem_of_nil in H; destruct H
    | H : (_, _) = (_, _) |- _ => injection H as -> ->
    end; subst; reflexivity.
  - intros id n Hn Hout.
    destruct id; simpl in Hn; try discriminate Hn; injection Hn as <-;
      try reflexivity; exfalso; apply Hout;
      apply (bool_decide_unpack _); vm_compute; exact Logic.I.
Qed.

Lemma astNodeMap_binding_witness :
  binding <$> astNodeMap TokenCONTAINS = Some 60
  /\ binding <$> astNodeMap TokenNOT = Some 20
  /\ binding (proto NodeVALUE 0 (Some NdTerm) None) = 0.
Proof.
  destruct astNodeMap_binding as [Hstated Hother]. split; [| split].
  - apply (Hstated
             [TokenGEQ; TokenLEQ; TokenNEQ; TokenEQ; TokenGT; TokenLT;
              TokenLIKE; TokenIN; TokenCONTAINS; TokenBEGINSWITH;
              TokenENDSWITH; TokenCONTAINSNOT; TokenNOTIN] 60).
    + unfold statedPowers. repeat constructor.
    + repeat constructor.
  - apply (Hstated [TokenNOT] 20).
    + unfold statedPowers. repeat constructor.
    + repeat constructor.
  - apply (Hother TokenVALUE); [reflexivity |].
    intros H. apply (bool_decide_pack _) in H. vm_compute in H. exact H.
Defined.

(** ** The scenarios *)

(** The streams of tokens of the inputs of the scenarios, by identifier and
    value. *)
Lemma Lex_scenarios :
  tokenKinds (Lex "demo" inputGetSong) =
    [(TokenGET, "get"); (TokenNODEKIND, "Song"); (TokenWHERE, "where");
     (TokenVALUE, "name"); (TokenEQ, "="); (TokenVALUE, "Aria1");
     (TokenEOF, "")]
  /\ tokenKinds (Lex "demo" "1 + 2 * 3") =
       [(TokenVALUE, "1"); (TokenPLUS, "+"); (TokenVALUE, "2");
        (TokenTIMES, "*"); (TokenVALUE, "3"); (TokenEOF, "")]
  /\ tokenKinds (Lex "demo" "(1 + 2) * 3") =
       [(TokenLPAREN, "("); (TokenVALUE, "1"); (TokenPLUS, "+");
        (TokenVALUE, "2"); (TokenRPAREN, ")"); (TokenTIMES, "*");
        (TokenVALUE, "3"); (TokenEOF, "")]
  /\ tokenKinds (Lex "demo" "a and b and c") =
       [(TokenVALUE, "a"); (TokenAND, "and"); (TokenVALUE, "b");
        (TokenAND, "and"); (TokenVALUE, "c"); (TokenEOF, "")]
  /\ tokenKinds (Lex "demo" "get") = [(TokenGET, "get"); (TokenEOF, "")]
  /\ tokenKinds (Lex "demo" "1 +") =
       [(TokenVALUE, "1"); (TokenPLUS, "+"); (TokenEOF, "")]
  /\ tokenKinds (Lex "demo" "+ 1") =
       [(TokenPLUS, "+"); (TokenVALUE, "1"); (TokenEOF, "")]
  /\ tokenKinds (Lex "demo" "(1") =
       [(TokenLPAREN, "("); (TokenVALUE, "1"); (TokenEOF, "")].
Proof. repeat split; reflexivity. Qed.

(** C1, as the code has it: the input [get Song where name = "Aria1"] is
    parsed to a GET node with two children; the first is the node of the
    node kind token, which carries the value Song and has the name VALUE,
    the second is a WHERE node whose only child is
    [(EQ (VALUE name) (VALUE Aria1))]. *)
Theorem parse_get_song :
  exists root kind whr,
    Parse "demo" inputGetSong = OK root
    /\ Name root = NodeGET
    /\ Children root = [kind; whr]
    /\ Name kind = NodeVALUE
    /\ Token kind = Some (mkLexToken TokenNODEKIND 4 "Song" 1 5)
    /\ Children kind = []
    /\ sexp whr =
         SNode NodeWHERE (Some "where")
           [binary NodeEQ "=" (value "name") (value "Aria1")].
Proof.
  do 3 eexists. split; [vm_compute; reflexivity |].
  repeat split; reflexivity.
Qed.

(** C1, as the specification states it, fails: the first child of the GET
    node is not named NODEKIND. *)
Lemma parse_get_song_no_nodekind :
  ~ exists root vg vw ve,
      Parse "demo" inputGetSong = OK root
      /\ sexp root = statedGetSong vg vw ve.
Proof.
  intros (root & vg & vw & ve & Hparse & Hshape).
  vm_compute in Hparse. injection Hparse as <-.
  vm_compute in Hshape. discriminate Hshape.
Qed.

(** C4: multiplication binds tighter than addition, and a parenthesis
    changes it; no node of the parenthesis tokens is kept in the tree. *)
Theorem parse_precedence :
  (exists root,
     Parse "demo" "1 + 2 * 3" = OK root
     /\ sexp root =
          binary NodePLUS "+" (value "1")
            (binary NodeTIMES "*" (value "2") (value "3")))
  /\ (exists root,
        Parse "demo" "(1 + 2) * 3" = OK root
        /\ sexp root =
             binary NodeTIMES "*"
               (binary NodePLUS "+" (value "1") (value "2")) (value "3")
        /\ (NodeLPAREN ∉ names root) /\ (NodeRPAREN ∉ names root)
        /\ (TokenLPAREN ∉ tokenIDs root) /\ (TokenRPAREN ∉ tokenIDs root)).
Proof.
  split.
  - eexists. split; [vm_compute; reflexivity | reflexivity].
  - eexists. split; [vm_compute; reflexivity |].
    split; [reflexivity |].
    repeat split; refine (bool_decide_unpack _ _); vm_compute; exact I.
Qed.

(** C6: [get] alone and [1 +] fail with an unexpected end, [+ 1] is parsed
    to a PLUS node with the single child [(VALUE 1)]. *)
Theorem parse_errors :
  errorType (Parse "demo" "get") = Some ErrUnexpectedEnd
  /\ errorType (Parse "demo" "1 +") = Some ErrUnexpectedEnd
  /\ exists root,
       Parse "demo" "+ 1" = OK root
       /\ sexp root = SNode NodePLUS (Some "+") [value "1"].
Proof.
  split; [reflexivity |]. split; [reflexivity |].
  eexists. split; [vm_compute; reflexivity | reflexivity].
Qed.

(** ** Invariants of the parser

    A property [I] of the parser state which every method keeps, a property
    [N] of the nodes which are returned and a property [E] of the errors
    which are returned, proved once for every denotation function and for
    [run] from what they need of the few methods which touch the state. *)

Section ParserInvariant.

Variable I : parser -> Prop.
Variable N : ASTNode -> Prop.
Variable E : ParserError -> Prop.

Local Abbreviation holds := (triple I E).

Lemma triple_ret {A} (a : A) (Q : A -> Prop) : Q a -> holds (ret a) Q.
Proof. intros Ha p Hp. simpl. auto. Qed.

Lemma triple_bind {A B} (m : M A) (k : A -> M B) (Q : A -> Prop)
    (R : B -> Prop) :
  holds m Q -> (forall a, Q a -> holds (k a) R) -> holds (bind m k) R.
Proof.
  intros Hm Hk p Hp. unfold bind. specialize (Hm p Hp).
  destruct (m p) as [[a | e | | ] p']; auto.
  destruct Hm as [Hp' Ha]. exact (Hk a Ha p' Hp').
Qed.

Lemma triple_weaken {A} (m : M A) (Q R : A -> Prop) :
  holds m Q -> (forall a, Q a -> R a) -> holds m R.
Proof.
  intros Hm HQR p Hp. specialize (Hm p Hp).
  destruct (m p) as [[a | e | | ] p']; intuition.
Qed.

Lemma triple_panic {A} (Q : A -> Prop) : holds panic Q.
Proof. intros p Hp. exact Logic.I. Qed.

Lemma triple_outOfFuel {A} (Q : A -> Prop) : holds outOfFuel Q.
Proof. intros p Hp. exact Logic.I. Qed.

Lemma triple_deref {A} (o : option A) (Q : A -> Prop) :
  (forall a, o = Some a -> Q a) -> holds (deref o) Q.
Proof.
  intros H. destruct o as [a |]; simpl.
  - apply triple_ret. auto.
  - apply triple_panic.
Qed.

Lemma triple_catch {A} (m : M A) (Q : A -> Prop) :
  holds m Q ->
  holds (catch m)
    (fun r => match r with inl e => E e | inr a => Q a end).
Proof.
  intros Hm p Hp. unfold catch. specialize (Hm p Hp).
  destruct (m p) as [[a | e | | ] p']; auto.
Qed.

Lemma triple_getParser : holds getParser (fun _ => True).
Proof. intros p Hp. simpl. auto. Qed.

(** What the proof needs of the methods which read and change the state,
    of the errors and of the nodes. *)
Hypothesis getNode_ok :
  holds getNode (fun o => forall n, o = Some n -> N n).
Hypothesis nextNode_ok : holds nextNode (fun _ => True).
Hypothesis skipToken_ok :
  forall ids, holds (skipToken ids) (fun _ => True).
Hypothesis acceptChild_ok :
  forall self id, N self -> holds (acceptChild self id) N.
Hypothesis denotation_error_ok :
  forall p t d token,
    t = ErrImpossibleNullDenotation \/ t = ErrImpossibleLeftDenotation ->
    E (newParserError p t d token).
Hypothesis appendChild_ok :
  forall n c, N n -> N c -> N (appendChild n c).
Hypothesis firstChild_ok :
  forall n c cs, N n -> Children n = c :: cs -> N c.
Hypothesis setFirstChild_ok :
  forall n c c' cs,
    N n -> Children n = c :: cs -> N c' -> N (setChildren n (c' :: cs)).
Hypothesis instance_ok :
  forall p id pr n,
    astNodeMap id = Some pr -> N n -> N (instance p pr (Token n)).

Lemma curToken_ok : holds curToken (fun _ => True).
Proof.
  unfold curToken.
  eapply triple_bind; [apply getNode_ok |]. intros o Ho.
  eapply triple_bind; [apply triple_deref; intros n Hn; exact (Ho n Hn) |].
  intros n Hn. apply triple_deref. auto.
Qed.

Lemma denotationError_ok {A} t d token (Q : A -> Prop) :
  t = ErrImpossibleNullDenotation \/ t = ErrImpossibleLeftDenotation ->
  holds (parserError t d token) Q.
Proof. intros Ht p Hp. simpl. auto. Qed.

Section WithRun.

Variable run' : Z -> M ASTNode.
Variable fuel : nat.
Hypothesis run_ok : forall rightBinding, holds (run' rightBinding) N.

Lemma ndTerm_ok self : N self -> holds (ndTerm self) N.
Proof. intros Hs. apply triple_ret. exact Hs. Qed.

Lemma ndInner_ok self : holds (ndInner run' self) N.
Proof.
  unfold ndInner.
  eapply triple_bind; [apply run_ok |]. intros exp Hexp.
  eapply triple_bind; [apply skipToken_ok |]. intros _ _.
  apply triple_ret. exact Hexp.
Qed.

Lemma ndPrefix_ok self : N self -> holds (ndPrefix run' self) N.
Proof.
  intros Hs. unfold ndPrefix.
  eapply triple_bind; [apply run_ok |]. intros val Hval.
  apply triple_ret. auto.
Qed.

Lemma parseRest_ok k self : N self -> holds (parseRest run' k self) N.
Proof.
  revert self. induction k as [| k IH]; intros self Hs; simpl;
    (eapply triple_bind; [apply curToken_ok |]); intros t _;
    destruct (decide (ID t <> TokenEOF));
    try (apply triple_ret; exact Hs).
  - apply triple_outOfFuel.
  - eapply triple_bind; [apply run_ok |]. intros exp Hexp.
    apply IH. auto.
Qed.

Lemma ndGet_ok self : N self -> holds (ndGet run' fuel self) N.
Proof.
  intros Hs. unfold ndGet.
  eapply triple_bind; [apply acceptChild_ok, Hs |]. intros self' Hs'.
  apply parseRest_ok, Hs'.
Qed.

Lemma commaValues_ok k self : N self -> holds (commaValues k self) N.
Proof.
  revert self. induction k as [| k IH]; intros self Hs; simpl.
  - apply triple_outOfFuel.
  - eapply triple_bind; [apply triple_catch, skipToken_ok |].
    intros [e | []] _.
    + apply triple_ret, Hs.
    + eapply triple_bind; [apply acceptChild_ok, Hs |]. exact IH.
Qed.

Lemma ndLookup_ok self : N self -> holds (ndLookup run' fuel self) N.
Proof.
  intros Hs. unfold ndLookup.
  eapply triple_bind; [apply acceptChild_ok, Hs |]. intros s1 H1.
  eapply triple_bind; [apply acceptChild_ok, H1 |]. intros s2 H2.
  eapply triple_bind; [apply commaValues_ok, H2 |]. intros s3 H3.
  apply parseRest_ok, H3.
Qed.

Lemma ndFrom_ok self : N self -> holds (ndFrom self) N.
Proof.
  intros Hs. unfold ndFrom.
  eapply triple_bind; [apply acceptChild_ok, Hs |]. intros s1 H1.
  destruct (Children s1) as [| group others] eqn:Hcs.
  - apply triple_panic.
  - eapply triple_bind;
      [apply acceptChild_ok; exact (firstChild_ok _ _ _ H1 Hcs) |].
    intros group' Hg. apply triple_ret. eauto.
Qed.

Lemma traverseRest_ok k self :
  N self -> holds (traverseRest run' k self) N.
Proof.
  revert self. induction k as [| k IH]; intros self Hs; simpl;
    (eapply triple_bind; [apply curToken_ok |]); intros t _;
    destruct (decide (ID t <> TokenEOF /\ ID t <> TokenEND));
    try (apply triple_ret; exact Hs).
  - apply triple_outOfFuel.
  - eapply triple_bind; [apply run_ok |]. intros exp Hexp.
    apply IH. auto.
Qed.

Lemma ndTraverse_ok self :
  N self -> holds (ndTraverse run' fuel self) N.
Proof.
  intros Hs. unfold ndTraverse.
  eapply triple_bind; [apply acceptChild_ok, Hs |]. intros s1 H1.
  eapply triple_bind; [apply traverseRest_ok, H1 |]. intros s2 H2.
  eapply triple_bind; [apply curToken_ok |]. intros t _.
  eapply triple_bind with (Q := fun _ => True).
  - destruct (decide (ID t = TokenEND)).
    + eapply triple_bind; [apply triple_catch, skipToken_ok |].
      intros _ _. apply triple_ret. exact Logic.I.
    + apply triple_ret. exact Logic.I.
  - intros _ _. apply triple_ret, H2.
Qed.

Lemma ndFunc_ok self : N self -> holds (ndFunc fuel self) N.
Proof.
  intros Hs. unfold ndFunc.
  eapply triple_bind; [apply acceptChild_ok, Hs |]. intros s1 H1.
  eapply triple_bind; [apply skipToken_ok |]. intros _ _.
  eapply triple_bind; [apply curToken_ok |]. intros t _.
  eapply triple_bind with (Q := N).
  - destruct (decide (ID t = TokenVALUE)).
    + eapply triple_bind; [apply triple_catch, acceptChild_ok, H1 |].
      intros [err | s2] H2; apply commaValues_ok; assumption.
    + apply triple_ret, H1.
  - intros s2 H2.
    eapply triple_bind; [apply skipToken_ok |]. intros _ _.
    apply triple_ret, H2.
Qed.

Lemma acceptSuffix_ok st id : N st -> holds (acceptSuffix st id) N.
Proof.
  intros Hst. unfold acceptSuffix.
  eapply triple_bind; [apply curToken_ok |]. intros t _.
  destruct (decide (ID t = id)); [| apply triple_ret, Hst].
  eapply triple_bind; [apply getNode_ok |]. intros o Ho.
  eapply triple_bind; [apply triple_deref, Ho |]. intros current Hc.
  eapply triple_bind; [apply triple_catch, acceptChild_ok, Hst |].
  intros accepted _.
  eapply triple_bind; [apply acceptChild_ok, Hc |]. intros current' Hc'.
  apply triple_ret. destruct accepted; auto.
Qed.

Lemma acceptShowTerm_ok self :
  N self -> holds (acceptShowTerm run' self) N.
Proof.
  intros Hs. unfold acceptShowTerm.
  eapply triple_bind; [apply triple_getParser |]. intros p _.
  eapply triple_bind
    with (Q := fun pr => astNodeMap TokenSHOWTERM = Some pr);
    [apply triple_deref; auto |]. intros showterm Hshowterm.
  eapply triple_bind; [apply getNode_ok |]. intros o Ho.
  eapply triple_bind; [apply triple_deref, Ho |]. intros current Hc.
  eapply triple_bind; [apply curToken_ok |]. intros t _.
  pose proof (instance_ok p _ _ _ Hshowterm Hc) as Hst0.
  eapply triple_bind with (Q := N).
  - destruct (decide (ID t = TokenAT)).
    + eapply triple_bind; [apply run_ok |]. intros exp Hexp.
      apply triple_ret. auto.
    + eapply triple_bind; [apply triple_catch, skipToken_ok |].
      intros _ _. apply triple_ret. exact Hst0.
  - intros st Hst.
    eapply triple_bind; [apply acceptSuffix_ok, Hst |]. intros st1 H1.
    eapply triple_bind; [apply acceptSuffix_ok, H1 |]. intros st2 H2.
    apply triple_ret. auto.
Qed.

Lemma showTerms_ok k self : N self -> holds (showTerms run' k self) N.
Proof.
  revert self. induction k as [| k IH]; intros self Hs; simpl.
  - apply triple_outOfFuel.
  - eapply triple_bind; [apply triple_catch, skipToken_ok |].
    intros [e | []] _.
    + apply triple_ret, Hs.
    + eapply triple_bind; [apply acceptShowTerm_ok, Hs |]. exact IH.
Qed.

Lemma ndShow_ok self : N self -> holds (ndShow run' fuel self) N.
Proof.
  intros Hs. unfold ndShow.
  eapply triple_bind; [apply curToken_ok |]. intros t _.
  destruct (decide (ID t = TokenVALUE \/ ID t = TokenAT)).
  - eapply triple_bind; [apply acceptShowTerm_ok, Hs |].
    intros s1 H1. apply showTerms_ok, H1.
  - apply triple_ret, Hs.
Qed.

Lemma skipComma_ok : holds skipComma (fun _ => True).
Proof.
  unfold skipComma.
  eapply triple_bind; [apply curToken_ok |]. intros t _.
  destruct (decide (ID t = TokenCOMMA)).
  - eapply triple_bind; [apply triple_catch, skipToken_ok |].
    intros _ _. apply triple_ret. exact Logic.I.
  - apply triple_ret. exact Logic.I.
Qed.

Lemma parseList_ok stop k self :
  N self -> holds (parseList run' stop k self) N.
Proof.
  revert self. induction k as [| k IH]; intros self Hs; simpl;
    (eapply triple_bind; [apply curToken_ok |]); intros t _;
    destruct (decide (ID t <> stop));
    try (apply triple_ret; exact Hs).
  - apply triple_outOfFuel.
  - eapply triple_bind; [apply run_ok |]. intros exp Hexp.
    eapply triple_bind; [apply skipComma_ok |]. intros _ _.
    apply IH. auto.
Qed.

Lemma ndWith_ok self : N self -> holds (ndWith run' fuel self) N.
Proof. intros Hs. apply parseList_ok, Hs. Qed.

Lemma ndWithFunc_ok self :
  N self -> holds (ndWithFunc run' fuel self) N.
Proof.
  intros Hs. unfold ndWithFunc.
  eapply triple_bind; [apply skipToken_ok |]. intros _ _.
  eapply triple_bind; [apply parseList_ok, Hs |]. intros s1 H1.
  eapply triple_bind; [apply skipToken_ok |]. intros _ _.
  apply triple_ret, H1.
Qed.

Lemma ndList_ok self : N self -> holds (ndList run' fuel self) N.
Proof.
  intros Hs. unfold ndList.
  eapply triple_bind; [apply triple_getParser |]. intros p _.
  eapply triple_bind with (Q := fun pr => astNodeMap TokenLIST = Some pr);
    [apply triple_deref; auto |]. intros list Hlist.
  eapply triple_bind;
    [apply parseList_ok; exact (instance_ok p _ _ _ Hlist Hs) |].
  intros st Hst.
  eapply triple_bind; [apply skipToken_ok |]. intros _ _.
  apply triple_ret, Hst.
Qed.

Lemma ldInfix_ok self left :
  N self -> N left -> holds (ldInfix run' self left) N.
Proof.
  intros Hs Hl. unfold ldInfix.
  eapply triple_bind; [apply run_ok |]. intros right Hr.
  apply triple_ret. auto.
Qed.

Lemma callNullDenotation_ok nd self :
  N self -> holds (callNullDenotation run' fuel nd self) N.
Proof.
  intros Hs. destruct nd; simpl.
  - apply ndTerm_ok, Hs.
  - apply ndInner_ok.
  - apply ndPrefix_ok, Hs.
  - apply ndGet_ok, Hs.
  - apply ndLookup_ok, Hs.
  - apply ndFrom_ok, Hs.
  - apply ndTraverse_ok, Hs.
  - apply ndFunc_ok, Hs.
  - apply ndShow_ok, Hs.
  - apply ndWith_ok, Hs.
  - apply ndWithFunc_ok, Hs.
  - apply ndList_ok, Hs.
Qed.

Lemma runLoop_ok k rightBinding left :
  N left -> holds (runLoop run' k rightBinding left) N.
Proof.
  revert left. induction k as [| k IH]; intros left Hl; simpl;
    (eapply triple_bind; [apply getNode_ok |]); intros o Ho;
    (eapply triple_bind; [apply triple_deref, Ho |]); intros cur Hcur;
    destruct (decide (rightBinding < binding cur));
    try (apply triple_ret; exact Hl).
  - apply triple_outOfFuel.
  - eapply triple_bind; [apply nextNode_ok |]. intros _ _.
    destruct (leftDenotation cur) as [[] |].
    + eapply triple_bind; [apply ldInfix_ok; assumption |]. exact IH.
    + eapply triple_bind with (Q := fun _ => True);
        [apply triple_deref; auto |]. intros t _.
      apply denotationError_ok. auto.
Qed.

End WithRun.

(** [run] keeps the invariant and returns nodes in [N] and errors in
    [E]. *)
Lemma run_ok fuel rightBinding : holds (run fuel rightBinding) N.
Proof.
  revert rightBinding. induction fuel as [| fuel IH]; intros rightBinding;
    simpl.
  - apply triple_outOfFuel.
  - eapply triple_bind; [apply getNode_ok |]. intros o Ho.
    eapply triple_bind; [apply nextNode_ok |]. intros _ _.
    eapply triple_bind; [apply triple_deref, Ho |]. intros n Hn.
    destruct (nullDenotation n) as [nd |].
    + eapply triple_bind; [apply callNullDenotation_ok; assumption |].
      intros left Hl. apply runLoop_ok; assumption.
    + eapply triple_bind with (Q := fun _ => True);
        [apply triple_deref; auto |]. intros t _.
      apply denotationError_ok. auto.
Qed.

End ParserInvariant.

(** ** The bound on the recursion is never reached

    Each call of [run] takes a token before it calls a denotation function
    and each iteration of a loop takes at least one token, so with more
    fuel than there are tokens no call reaches the bound. *)

Lemma within_ret L {A} (a : A) (Q : A -> nat -> Prop) :
  Q a L -> within L (ret a) Q.
Proof. intros Ha p Hp. simpl. rewrite Hp. exact Ha. Qed.

Lemma within_bind L {A B} (m : M A) (k : A -> M B) (Q : A -> nat -> Prop)
    (R : B -> nat -> Prop) :
  within L m Q ->
  (forall a L', Q a L' -> (L' <= L)%nat /\ within L' (k a) R) ->
  within L (bind m k) R.
Proof.
  intros Hm Hk p Hp. unfold bind. specialize (Hm p Hp).
  destruct (m p) as [[a | e | | ] p']; auto.
  destruct (Hk a _ Hm) as [Hle Hka]. specialize (Hka p' eq_refl).
  destruct (k a p') as [[b | e | | ] p'']; [exact Hka | lia | exact Hka ..].
Qed.

Lemma within_weaken L {A} (m : M A) (Q R : A -> nat -> Prop) :
  within L m Q -> (forall a L', Q a L' -> R a L') -> within L m R.
Proof.
  intros Hm HQR p Hp. specialize (Hm p Hp).
  destruct (m p) as [[a | e | | ] p']; auto.
Qed.

Lemma within_panic L {A} (Q : A -> nat -> Prop) : within L panic Q.
Proof. intros p Hp. exact Logic.I. Qed.

Lemma within_deref L {A} (o : option A) :
  within L (deref o) (fun _ L' => L' = L).
Proof.
  destruct o as [a |]; simpl.
  - apply within_ret. reflexivity.
  - apply within_panic.
Qed.

Lemma within_parserError L {A} t d token (Q : A -> nat -> Prop) :
  within L (parserError t d token) Q.
Proof. intros p Hp. simpl. lia. Qed.

Lemma within_catch L {A} (m : M A) (Q : A -> nat -> Prop) :
  within L m Q ->
  within L (catch m)
    (fun r L' => match r with inl _ => (L' <= L)%nat | inr a => Q a L' end).
Proof.
  intros Hm p Hp. unfold catch. specialize (Hm p Hp).
  destruct (m p) as [[a | e | | ] p']; auto.
Qed.

Lemma within_getNode L : within L getNode (fun _ L' => L' = L).
Proof. intros p Hp. exact Hp. Qed.

Lemma within_getParser L : within L getParser (fun _ L' => L' = L).
Proof. intros p Hp. exact Hp. Qed.

Lemma within_nextNode L : within L nextNode (fun _ L' => S L' = L).
Proof.
  intros p Hp. unfold nextNode, next.
  destruct (tokens p) as [| t rest] eqn:Hts; simpl in *;
    [rewrite Hts; simpl; lia |].
  destruct (decide (ID t = TokenError)); simpl; [lia |].
  destruct (astNodeMap (ID t)); simpl; [exact Hp | lia].
Qed.

Lemma within_curToken L : within L curToken (fun _ L' => L' = L).
Proof.
  unfold curToken.
  eapply within_bind; [apply within_getNode |]. intros o L' ->.
  split; [lia |].
  eapply within_bind; [apply within_deref |]. intros n L' ->.
  split; [lia |]. apply within_deref.
Qed.

Lemma within_skipToken L ids :
  within L (skipToken ids) (fun _ L' => S L' = L).
Proof.
  unfold skipToken.
  eapply within_bind; [apply within_curToken |]. intros t L' ->.
  split; [lia |].
  destruct (negb (canSkip ids (ID t))); [| apply within_nextNode].
  destruct (decide (ID t = TokenEOF)); apply within_parserError.
Qed.

Lemma within_acceptChild L self id :
  within L (acceptChild self id) (fun _ L' => S L' = L).
Proof.
  unfold acceptChild.
  eapply within_bind; [apply within_getNode |]. intros o L0 ->.
  split; [lia |].
  eapply within_bind; [apply within_nextNode |].
  intros ? L1 H1; cbv beta in H1.
  split; [lia |].
  eapply within_bind; [apply within_deref |].
  intros current L2 ->. split; [lia |].
  eapply within_bind; [apply within_deref |].
  intros t L2 ->. split; [lia |].
  destruct (decide (ID t = id)).
  - apply within_ret. exact H1.
  - apply within_parserError.
Qed.

Section Bound.

Variable run' : Z -> M ASTNode.
Variable fuel : nat.
Hypothesis run_within :
  forall rightBinding L,
    (L < fuel)%nat ->
    within L (run' rightBinding) (fun _ L' => (L' < L)%nat).

Lemma ndInner_within L self :
  (L < fuel)%nat -> within L (ndInner run' self) (fun _ L' => (L' <= L)%nat).
Proof.
  intros HL. unfold ndInner.
  eapply within_bind; [apply run_within; lia |].
  intros exp L1 H1; cbv beta in H1.
  split; [lia |].
  eapply within_bind; [apply within_skipToken |].
  intros ? L2 H2; cbv beta in H2.
  split; [lia |]. apply within_ret. lia.
Qed.

Lemma ndPrefix_within L self :
  (L < fuel)%nat -> within L (ndPrefix run' self) (fun _ L' => (L' <= L)%nat).
Proof.
  intros HL. unfold ndPrefix.
  eapply within_bind; [apply run_within; lia |].
  intros val L1 H1; cbv beta in H1.
  split; [lia |]. apply within_ret. lia.
Qed.

Lemma parseRest_within k :
  forall L self,
    (L < fuel)%nat -> (L < k)%nat ->
    within L (parseRest run' k self) (fun _ L' => (L' <= L)%nat).
Proof.
  induction k as [| k IH]; intros L self HL Hk; [lia |]. simpl.
  eapply within_bind; [apply within_curToken |]. intros t L0 ->.
  split; [lia |].
  destruct (decide (ID t <> TokenEOF)); [| apply within_ret; lia].
  eapply within_bind; [apply run_within; lia |].
  intros exp L1 H1; cbv beta in H1.
  split; [lia |].
  eapply within_weaken; [apply IH; lia |]. cbv beta. intros; lia.
Qed.

Lemma ndGet_within L self :
  (L < fuel)%nat ->
  within L (ndGet run' fuel self) (fun _ L' => (L' <= L)%nat).
Proof.
  intros HL. unfold ndGet.
  eapply within_bind; [apply within_acceptChild |].
  intros s L1 H1; cbv beta in H1.
  split; [lia |].
  eapply within_weaken; [apply parseRest_within; lia |].
  cbv beta. intros; lia.
Qed.

Lemma commaValues_within k :
  forall L self,
    (L < k)%nat -> within L (commaValues k self) (fun _ L' => (L' <= L)%nat).
Proof.
  induction k as [| k IH]; intros L self Hk; [lia |]. simpl.
  eapply within_bind; [apply within_catch, within_skipToken |].
  intros [e | []] L1 H1; cbv beta in H1; (split; [lia |]).
  - apply within_ret. lia.
  - eapply within_bind; [apply within_acceptChild |].
    intros s L2 H2; cbv beta in H2.
    split; [lia |].
    eapply within_weaken; [apply IH; lia |]. cbv beta. intros; lia.
Qed.

Lemma ndLookup_within L self :
  (L < fuel)%nat ->
  within L (ndLookup run' fuel self) (fun _ L' => (L' <= L)%nat).
Proof.
  intros HL. unfold ndLookup.
  eapply within_bind; [apply within_acceptChild |].
  intros s1 L1 H1; cbv beta in H1.
  split; [lia |].
  eapply within_bind; [apply within_acceptChild |].
  intros s2 L2 H2; cbv beta in H2.
  split; [lia |].
  eapply within_bind; [apply commaValues_within; lia |].
  intros s3 L3 H3; cbv beta in H3.
  split; [lia |].
  eapply within_weaken; [apply parseRest_within; lia |].
  cbv beta. intros; lia.
Qed.

Lemma ndFrom_within L self :
  within L (ndFrom self) (fun _ L' => (L' <= L)%nat).
Proof.
  unfold ndFrom.
  eapply within_bind; [apply within_acceptChild |].
  intros s1 L1 H1; cbv beta in H1.
  split; [lia |].
  destruct (Children s1) as [| group others]; [apply within_panic |].
  eapply within_bind; [apply within_acceptChild |].
  intros g L2 H2; cbv beta in H2.
  split; [lia |]. apply within_ret. lia.
Qed.

Lemma traverseRest_within k :
  forall L self,
    (L < fuel)%nat -> (L < k)%nat ->
    within L (traverseRest run' k self) (fun _ L' => (L' <= L)%nat).
Proof.
  induction k as [| k IH]; intros L self HL Hk; [lia |]. simpl.
  eapply within_bind; [apply within_curToken |]. intros t L0 ->.
  split; [lia |].
  destruct (decide (ID t <> TokenEOF /\ ID t <> TokenEND));
    [| apply within_ret; lia].
  eapply within_bind; [apply run_within; lia |].
  intros exp L1 H1; cbv beta in H1.
  split; [lia |].
  eapply within_weaken; [apply IH; lia |]. cbv beta. intros; lia.
Qed.

Lemma skipped_within L (id : LexTokenID) :
  within L (do _ <- catch (skipToken [id]); ret tt)
    (fun _ L' => (L' <= L)%nat).
Proof.
  eapply within_bind; [apply within_catch, within_skipToken |].
  intros [e | []] L1 H1; cbv beta in H1; (split; [lia |]);
    apply within_ret; lia.
Qed.

Lemma ndTraverse_within L self :
  (L < fuel)%nat ->
  within L (ndTraverse run' fuel self) (fun _ L' => (L' <= L)%nat).
Proof.
  intros HL. unfold ndTraverse.
  eapply within_bind; [apply within_acceptChild |].
  intros s1 L1 H1; cbv beta in H1.
  split; [lia |].
  eapply within_bind; [apply traverseRest_within; lia |].
  intros s2 L2 H2; cbv beta in H2.
  split; [lia |].
  eapply within_bind; [apply within_curToken |]. intros t L3 ->.
  split; [lia |].
  eapply within_bind with (Q := fun _ L' => (L' <= L2)%nat).
  - destruct (decide (ID t = TokenEND)); [apply skipped_within |].
    apply within_ret. lia.
  - intros u L4 H4; cbv beta in H4.
    split; [lia |]. apply within_ret. lia.
Qed.

Lemma ndFunc_within L self :
  (L < fuel)%nat -> within L (ndFunc fuel self) (fun _ L' => (L' <= L)%nat).
Proof.
  intros HL. unfold ndFunc.
  eapply within_bind; [apply within_acceptChild |].
  intros s1 L1 H1; cbv beta in H1.
  split; [lia |].
  eapply within_bind; [apply within_skipToken |].
  intros u L2 H2; cbv beta in H2.
  split; [lia |].
  eapply within_bind; [apply within_curToken |]. intros t L3 ->.
  split; [lia |].
  eapply within_bind with (Q := fun _ L' => (L' <= L2)%nat).
  - destruct (decide (ID t = TokenVALUE)); [| apply within_ret; lia].
    eapply within_bind; [apply within_catch, within_acceptChild |].
    intros accepted L4 H4.
    assert (L4 <= L2)%nat by (destruct accepted; cbv beta in H4; lia).
    split; [lia |].
    eapply within_weaken; [apply commaValues_within; lia |].
    cbv beta. intros; lia.
  - intros s2 L4 H4; cbv beta in H4.
    split; [lia |].
    eapply within_bind; [apply within_skipToken |].
    intros u' L5 H5; cbv beta in H5.
    split; [lia |]. apply within_ret. lia.
Qed.

Lemma acceptSuffix_within L st id :
  within L (acceptSuffix st id) (fun _ L' => (L' <= L)%nat).
Proof.
  unfold acceptSuffix.
  eapply within_bind; [apply within_curToken |]. intros t L0 ->.
  split; [lia |].
  destruct (decide (ID t = id)); [| apply within_ret; lia].
  eapply within_bind; [apply within_getNode |]. intros o L1 ->.
  split; [lia |].
  eapply within_bind; [apply within_deref |]. intros current L1 ->.
  split; [lia |].
  eapply within_bind; [apply within_catch, within_acceptChild |].
  intros accepted L2 H2.
  assert (L2 <= L)%nat by (destruct accepted; cbv beta in H2; lia).
  split; [lia |].
  eapply within_bind; [apply within_acceptChild |].
  intros current' L3 H3; cbv beta in H3.
  split; [lia |]. apply within_ret. lia.
Qed.

(** A show term takes no token back; the loop of [ndShow] takes the comma
    before each term. *)
Lemma acceptShowTerm_within L self :
  (L < fuel)%nat ->
  within L (acceptShowTerm run' self) (fun _ L' => (L' <= L)%nat).
Proof.
  intros HL. unfold acceptShowTerm.
  eapply within_bind; [apply within_getParser |]. intros p L0 ->.
  split; [lia |].
  eapply within_bind; [apply within_deref |]. intros showterm L0 ->.
  split; [lia |].
  eapply within_bind; [apply within_getNode |]. intros o L0 ->.
  split; [lia |].
  eapply within_bind; [apply within_deref |]. intros current L0 ->.
  split; [lia |].
  eapply within_bind; [apply within_curToken |]. intros t L0 ->.
  split; [lia |].
  eapply within_bind with (Q := fun _ L' => (L' <= L)%nat).
  - destruct (decide (ID t = TokenAT)).
    + eapply within_bind; [apply run_within; lia |].
      intros exp L1 H1; cbv beta in H1.
      split; [lia |]. apply within_ret. lia.
    + eapply within_bind; [apply within_catch, within_skipToken |].
      intros skipped L1 H1.
      assert (L1 <= L)%nat by (destruct skipped; cbv beta in H1; lia).
      split; [lia |]. apply within_ret. lia.
  - intros st L1 H1; cbv beta in H1.
    split; [lia |].
    eapply within_bind; [apply acceptSuffix_within |].
    intros st1 L2 H2; cbv beta in H2.
    split; [lia |].
    eapply within_bind; [apply acceptSuffix_within |].
    intros st2 L3 H3; cbv beta in H3.
    split; [lia |]. apply within_ret. lia.
Qed.

Lemma showTerms_within k :
  forall L self,
    (L < fuel)%nat -> (L < k)%nat ->
    within L (showTerms run' k self) (fun _ L' => (L' <= L)%nat).
Proof.
  induction k as [| k IH]; intros L self HL Hk; [lia |]. simpl.
  eapply within_bind; [apply within_catch, within_skipToken |].
  intros [e | []] L1 H1; cbv beta in H1; (split; [lia |]).
  - apply within_ret. lia.
  - eapply within_bind; [apply acceptShowTerm_within; lia |].
    intros s L2 H2; cbv beta in H2.
    split; [lia |].
    eapply within_weaken; [apply IH; lia |]. cbv beta. intros; lia.
Qed.

Lemma ndShow_within L self :
  (L < fuel)%nat ->
  within L (ndShow run' fuel self) (fun _ L' => (L' <= L)%nat).
Proof.
  intros HL. unfold ndShow.
  eapply within_bind; [apply within_curToken |]. intros t L0 ->.
  split; [lia |].
  destruct (decide (ID t = TokenVALUE \/ ID t = TokenAT));
    [| apply within_ret; lia].
  eapply within_bind; [apply acceptShowTerm_within; lia |].
  intros s L1 H1; cbv beta in H1.
  split; [lia |].
  eapply within_weaken; [apply showTerms_within; lia |].
  cbv beta. intros; lia.
Qed.

Lemma skipComma_within L : within L skipComma (fun _ L' => (L' <= L)%nat).
Proof.
  unfold skipComma.
  eapply within_bind; [apply within_curToken |]. intros t L0 ->.
  split; [lia |].
  destruct (decide (ID t = TokenCOMMA)); [apply skipped_within |].
  apply within_ret. lia.
Qed.

Lemma parseList_within stop k :
  forall L self,
    (L < fuel)%nat -> (L < k)%nat ->
    within L (parseList run' stop k self) (fun _ L' => (L' <= L)%nat).
Proof.
  induction k as [| k IH]; intros L self HL Hk; [lia |]. simpl.
  eapply within_bind; [apply within_curToken |]. intros t L0 ->.
  split; [lia |].
  destruct (decide (ID t <> stop)); [| apply within_ret; lia].
  eapply within_bind; [apply run_within; lia |].
  intros exp L1 H1; cbv beta in H1.
  split; [lia |].
  eapply within_bind; [apply skipComma_within |].
  intros u L2 H2; cbv beta in H2.
  split; [lia |].
  eapply within_weaken; [apply IH; lia |]. cbv beta. intros; lia.
Qed.

Lemma ndWithFunc_within L self :
  (L < fuel)%nat ->
  within L (ndWithFunc run' fuel self) (fun _ L' => (L' <= L)%nat).
Proof.
  intros HL. unfold ndWithFunc.
  eapply within_bind; [apply within_skipToken |].
  intros u L1 H1; cbv beta in H1.
  split; [lia |].
  eapply within_bind; [apply parseList_within; lia |].
  intros s L2 H2; cbv beta in H2.
  split; [lia |].
  eapply within_bind; [apply within_skipToken |].
  intros u' L3 H3; cbv beta in H3.
  split; [lia |]. apply within_ret. lia.
Qed.

Lemma ndList_within L self :
  (L < fuel)%nat ->
  within L (ndList run' fuel self) (fun _ L' => (L' <= L)%nat).
Proof.
  intros HL. unfold ndList.
  eapply within_bind; [apply within_getParser |]. intros p L0 ->.
  split; [lia |].
  eapply within_bind; [apply within_deref |]. intros list L0 ->.
  split; [lia |].
  eapply within_bind; [apply parseList_within; lia |].
  intros s L2 H2; cbv beta in H2.
  split; [lia |].
  eapply within_bind; [apply within_skipToken |].
  intros u' L3 H3; cbv beta in H3.
  split; [lia |]. apply within_ret. lia.
Qed.

Lemma callNullDenotation_within L nd self :
  (L < fuel)%nat ->
  within L (callNullDenotation run' fuel nd self)
    (fun _ L' => (L' <= L)%nat).
Proof.
  intros HL. destruct nd; simpl.
  - apply within_ret. lia.
  - apply ndInner_within, HL.
  - apply ndPrefix_within, HL.
  - apply ndGet_within, HL.
  - apply ndLookup_within, HL.
  - apply ndFrom_within.
  - apply ndTraverse_within, HL.
  - apply ndFunc_within, HL.
  - apply ndShow_within, HL.
  - apply parseList_within; lia.
  - apply ndWithFunc_within, HL.
  - apply ndList_within, HL.
Qed.

Lemma runLoop_within k :
  forall L rightBinding left,
    (L < fuel)%nat -> (L < k)%nat ->
    within L (runLoop run' k rightBinding left) (fun _ L' => (L' <= L)%nat).
Proof.
  induction k as [| k IH]; intros L rightBinding left HL Hk; [lia |]. simpl.
  eapply within_bind; [apply within_getNode |]. intros o L0 ->.
  split; [lia |].
  eapply within_bind; [apply within_deref |]. intros cur L0 ->.
  split; [lia |].
  destruct (decide (rightBinding < binding cur)); [| apply within_ret; lia].
  eapply within_bind; [apply within_nextNode |].
  intros u L1 H1; cbv beta in H1.
  split; [lia |].
  destruct (leftDenotation cur) as [[] |].
  - unfold callLeftDenotation, ldInfix.
    eapply within_bind.
    + eapply within_bind; [apply run_within; lia |].
      intros right L2 H2; cbv beta in H2.
      split; [lia |]. apply (within_ret _ _ (fun _ L' => (L' <= L1)%nat)). lia.
    + intros nleft L2 H2; cbv beta in H2.
      split; [lia |].
      eapply within_weaken; [apply IH; lia |]. cbv beta. intros; lia.
  - eapply within_bind; [apply within_deref |]. intros t L2 ->.
    split; [lia |]. apply within_parserError.
Qed.

End Bound.

(** With more fuel than tokens to take, [run] does not reach the bound on
    the recursion, and it takes at least one token when it returns a
    node. *)
Lemma run_within fuel :
  forall rightBinding L,
    (L < fuel)%nat ->
    within L (run fuel rightBinding) (fun _ L' => (L' < L)%nat).
Proof.
  induction fuel as [| fuel IH]; intros rightBinding L HL; [lia |]. simpl.
  eapply within_bind; [apply within_getNode |]. intros o L0 ->.
  split; [lia |].
  eapply within_bind; [apply within_nextNode |].
  intros u L1 H1; cbv beta in H1.
  split; [lia |].
  eapply within_bind; [apply within_deref |]. intros n L2 ->.
  split; [lia |].
  destruct (nullDenotation n) as [nd |].
  - eapply within_bind;
      [apply (callNullDenotation_within (run fuel) fuel IH); lia |].
    intros left L2 H2; cbv beta in H2.
    split; [lia |].
    eapply within_weaken;
      [apply (runLoop_within (run fuel) fuel IH); lia |].
    cbv beta. intros; lia.
  - eapply within_bind; [apply within_deref |]. intros t L2 ->.
    split; [lia |]. apply within_parserError.
Qed.

(** X19: [ParseWithRuntime] ends on every stream of tokens.  Every call of
    [run] takes a token before it calls a denotation function and every
    iteration of a loop takes one, so that the number of tokens, which
    [parse] gives to [run] as the bound on the recursion, is not reached:
    the result of a parse is a tree, an error or a panic. *)
Lemma parse_total p : parse p <> OutOfFuel.
Proof.
  unfold parse. destruct (next p) as [[first | e | | ] p'] eqn:Hnext;
    try discriminate.
  - pose proof (run_within (S (length (tokens p'))) 0 (length (tokens p'))
                  ltac:(lia) (setNode p' (Some first)) eq_refl) as H.
    destruct (run _ _ _) as [[a | e | | ] p'']; simpl; try discriminate.
    contradiction.
  - unfold next in Hnext. destruct (tokens p); [discriminate |].
    destruct (decide _); [discriminate |].
    destruct (astNodeMap _); discriminate.
Qed.

(** ** Every node of a parsed tree has a token *)

Lemma tokened_instance p pr t : tokened (instance p pr (Some t)).
Proof.
  unfold instance. destruct (rp p); constructor; simpl; eauto.
Qed.

Lemma tokened_appendChild n c :
  tokened n -> tokened c -> tokened (appendChild n c).
Proof.
  intros Hn Hc. inversion Hn as [n' Ht Hcs]; subst.
  constructor; simpl; [exact Ht |].
  apply Forall_app. split; [exact Hcs | constructor; [exact Hc | constructor]].
Qed.

Lemma nextNode_tokened :
  triple nodeTokened (fun _ => True) nextNode (fun _ => True).
Proof.
  intros p Hp. unfold nextNode, next.
  destruct (tokens p) as [| token rest]; simpl.
  - split; [| exact Logic.I]. intros n Hn. discriminate Hn.
  - destruct (decide (ID token = TokenError)) as [Herr | Hok]; simpl.
    + split; [| exact Logic.I]. intros n Hn. discriminate Hn.
    + destruct (astNodeMap (ID token)) as [pr |]; simpl.
      * split; [| exact Logic.I]. intros n Hn. injection Hn as <-.
        apply tokened_instance.
      * split; [| exact Logic.I]. intros n Hn. discriminate Hn.
Qed.

Lemma getNode_tokened :
  triple nodeTokened (fun _ => True) getNode
    (fun o => forall n, o = Some n -> tokened n).
Proof. intros p Hp. simpl. split; [exact Hp | exact Hp]. Qed.

Lemma skipToken_tokened ids :
  triple nodeTokened (fun _ => True) (skipToken ids) (fun _ => True).
Proof.
  unfold skipToken.
  eapply triple_bind.
  { unfold curToken.
    eapply triple_bind; [apply getNode_tokened |]. intros o Ho.
    eapply triple_bind; [apply triple_deref, Ho |]. intros n Hn.
    apply triple_deref with (Q := fun _ => True). auto. }
  intros t _.
  destruct (negb (canSkip ids (ID t))); [| apply nextNode_tokened].
  destruct (decide (ID t = TokenEOF)); intros p Hp; simpl; auto.
Qed.

Lemma acceptChild_tokened self id :
  tokened self ->
  triple nodeTokened (fun _ => True) (acceptChild self id) tokened.
Proof.
  intros Hs. unfold acceptChild.
  eapply triple_bind; [apply getNode_tokened |]. intros o Ho.
  eapply triple_bind; [apply nextNode_tokened |]. intros _ _.
  eapply triple_bind; [apply triple_deref, Ho |]. intros current Hc.
  eapply triple_bind with (Q := fun _ => True);
    [apply triple_deref; auto |]. intros t _.
  destruct (decide (ID t = id)).
  - apply triple_ret. apply tokened_appendChild; assumption.
  - intros p Hp. simpl. auto.
Qed.

Lemma run_tokened fuel rightBinding :
  triple nodeTokened (fun _ => True) (run fuel rightBinding) tokened.
Proof.
  apply run_ok.
  - apply getNode_tokened.
  - apply nextNode_tokened.
  - apply skipToken_tokened.
  - apply acceptChild_tokened.
  - intros; exact Logic.I.
  - apply tokened_appendChild.
  - intros n c cs Hn Hcs. inversion Hn as [n' _ Hall]; subst.
    rewrite Hcs in Hall. inversion Hall; assumption.
  - intros n c c' cs Hn Hcs Hc'. inversion Hn as [n' Ht Hall]; subst.
    rewrite Hcs in Hall. inversion Hall; subst.
    constructor; simpl; [exact Ht | constructor; assumption].
  - intros p id pr n _ Hn. inversion Hn as [n' [t Ht] _]; subst.
    rewrite Ht. apply tokened_instance.
Qed.

(** Every node of a tree which the parser returns carries a token. *)
Lemma parse_tokened p n : parse p = OK n -> tokened n.
Proof.
  unfold parse. destruct (next p) as [[first | e | | ] p'] eqn:Hnext;
    try discriminate.
  intros Hrun.
  assert (Hinv : nodeTokened (setNode p' (Some first))).
  { intros n' Hn'. simpl in Hn'. injection Hn' as <-.
    unfold next in Hnext. destruct (tokens p) as [| token rest];
      [discriminate |].
    destruct (decide (ID token = TokenError)); [discriminate |].
    destruct (astNodeMap (ID token)); [| discriminate].
    injection Hnext as <- _. apply tokened_instance. }
  pose proof (run_tokened (S (length (tokens p'))) 0 _ Hinv) as H.
  destruct (run _ _ _) as [[a | e | | ] p'']; simpl in Hrun;
    try discriminate.
  injection Hrun as <-. apply H.
Qed.

(** ** The plain AST of a tree and back *)

Lemma ASTNode_children_ind (P : ASTNode -> Prop) :
  (forall n, Forall P (Children n) -> P n) -> forall n, P n.
Proof.
  intros H. fix IH 1. intros [nm t cs r b nd ld]. apply H. simpl.
  induction cs as [| c cs IHcs]; constructor; [apply IH | exact IHcs].
Qed.

Lemma childrenFromPlain_maps l :
  childrenFromPlain (IMapSlice l) = convertMaps l.
Proof.
  induction l as [| child l IH]; [reflexivity |].
  simpl in *. destruct (ASTFromPlain child); reflexivity.
Qed.

(** The equations of [ASTFromPlain], with the entry of the children looked
    up as the source does. *)
Lemma ASTFromPlain_eq entries :
  ASTFromPlain (PlainMap entries) =
  match entries !! "name" with
  | None => ConvError (WithoutName (PlainMap entries))
  | Some name =>
      match entries !! "value" with
      | None => ConvError (WithoutValue (PlainMap entries))
      | Some value =>
          let node astChildren :=
            mkASTNode (Sprint name)
              (Some (mkLexToken TokenGeneral 0 (Sprint value) 0 0))
              astChildren None 0 None None in
          match entries !! "children" with
          | None => Converted (node [])
          | Some children =>
              match childrenFromPlain children with
              | Converted astChildren => Converted (node astChildren)
              | ConvError e => ConvError e
              | ConvPanic => ConvPanic
              end
          end
      end
  end.
Proof.
  simpl. rewrite lookup_fmap.
  destruct (entries !! "name"); [| reflexivity].
  destruct (entries !! "value"); [| reflexivity].
  destruct (entries !! "children"); reflexivity.
Qed.

(** The plain AST of a node with its tokens, converted back, is a tree
    with the same names, values and children. *)
Lemma plain_roundtrip_tokened n :
  tokened n ->
  exists m n',
    Plain n = Some m /\ ASTFromPlain m = Converted n' /\ structEq n' n.
Proof.
  induction n as [n IH] using ASTNode_children_ind. intros Hn.
  inversion Hn as [n0 [t Ht] Hcs]; subst n0.
  assert (Hkids : exists ms cs',
            mapM Plain (Children n) = Some ms
            /\ convertMaps ms = Converted cs'
            /\ sexp <$> cs' = sexp <$> Children n
            /\ length ms = length (Children n)).
  { clear Hn Ht. induction (Children n) as [| c cs IHcs].
    - exists [], []. repeat split; reflexivity.
    - inversion IH as [| c0 cs0 Hc IHrest]; subst.
      inversion Hcs as [| c0 cs0 Htc Htcs]; subst.
      destruct (Hc Htc) as (m & c' & Hm & Hc' & Heq).
      destruct (IHcs IHrest Htcs) as (ms & cs' & Hms & Hcs' & Hall & Hlen).
      exists (m :: ms), (c' :: cs'). repeat split.
      + simpl. rewrite Hm. simpl. rewrite Hms. reflexivity.
      + simpl. rewrite Hc', Hcs'. reflexivity.
      + rewrite !fmap_cons. f_equal; [exact Heq | exact Hall].
      + simpl. rewrite Hlen. reflexivity. }
  destruct Hkids as (ms & cs' & Hms & Hcs' & Hall & Hlen).
  destruct n as [nm tok cs r b nd ld]. simpl in *. subst tok.
  rewrite Hms. simpl.
  destruct (decide (0 < Z.of_nat (length cs))) as [Hsome | Hnone];
    (eexists; eexists; split; [reflexivity |]); rewrite ASTFromPlain_eq.
  - rewrite lookup_insert_ne, lookup_insert_ne, lookup_insert_eq by done.
    rewrite lookup_insert_eq.
    rewrite lookup_insert_ne, lookup_insert_eq by done.
    rewrite childrenFromPlain_maps, Hcs'. simpl.
    split; [reflexivity |]. unfold structEq. simpl. rewrite Hall.
    reflexivity.
  - rewrite lookup_insert_ne, lookup_insert_eq by done.
    rewrite lookup_insert_eq.
    rewrite lookup_insert_ne, lookup_insert_ne, lookup_empty by done.
    simpl. split; [reflexivity |]. unfold structEq. simpl.
    destruct cs as [| c cs]; [reflexivity |]. simpl in Hnone. lia.
Qed.

(** C2: the plain AST of a tree which [Parse] returns is converted back by
    [ASTFromPlain] without an error, to a tree with the same node names,
    the same token values and the same children, recursively; the tokens of
    the new tree are general tokens at line and column zero. *)
Theorem plain_roundtrip name input n :
  Parse name input = OK n ->
  exists m n',
    Plain n = Some m /\ ASTFromPlain m = Converted n' /\ structEq n' n.
Proof.
  intros Hparse. apply plain_roundtrip_tokened.
  exact (parse_tokened _ _ Hparse).
Qed.

Lemma plain_roundtrip_witness :
  exists n m n',
    Parse "demo" "a and b and c" = OK n
    /\ Plain n = Some m /\ ASTFromPlain m = Converted n' /\ structEq n' n.
Proof.
  eexists.
  assert (H : Parse "demo" "a and b and c" = OK _)
    by (vm_compute; reflexivity).
  destruct (plain_roundtrip _ _ _ H) as (m & n' & Hm & Hn' & Heq).
  exists m, n'. split; [exact H |]. auto.
Defined.

(** ** From a plain AST to a tree and back *)

Lemma wfPlainNonEmpty_children_ind (P : PlainAST -> Prop) :
  (forall nm v, P (plainLeaf nm v)) ->
  (forall nm v c l,
     childList c l -> l <> [] -> Forall wfPlainNonEmpty l -> Forall P l ->
     P (plainNode nm v c)) ->
  forall m, wfPlainNonEmpty m -> P m.
Proof.
  intros Hleaf Hnode. fix IH 2. intros m [nm v | nm v c l Hc Hne Hall].
  - apply Hleaf.
  - apply (Hnode nm v c l Hc Hne Hall). clear Hc Hne.
    induction Hall as [| x l' Hx Hall' IHall]; constructor.
    + apply IH. exact Hx.
    + exact IHall.
Qed.

Lemma childrenFromPlain_values l :
  childrenFromPlain (ISlice (IMap <$> l)) = convertMaps l.
Proof.
  simpl. replace (forallb isMap (IMap <$> l)) with true.
  - induction l as [| child l IH]; [reflexivity |].
    rewrite fmap_cons. simpl convertMaps.
    destruct (ASTFromPlain child) eqn:Hchild; [rewrite <- IH | ..];
      simpl; rewrite ?Hchild; reflexivity.
  - induction l as [| child l IH]; [reflexivity | exact IH].
Qed.

Lemma childrenFromPlain_childList c l :
  childList c l -> childrenFromPlain c = convertMaps l.
Proof.
  intros [l' | l'];
    [apply childrenFromPlain_maps | apply childrenFromPlain_values].
Qed.

Lemma ASTFromPlain_leaf nm v :
  ASTFromPlain (plainLeaf nm v) =
  Converted (mkASTNode nm (Some (mkLexToken TokenGeneral 0 v 0 0)) []
               None 0 None None).
Proof. reflexivity. Qed.

Lemma ASTFromPlain_node nm v c :
  ASTFromPlain (plainNode nm v c) =
  match childrenFromPlain c with
  | Converted astChildren =>
      Converted (mkASTNode nm (Some (mkLexToken TokenGeneral 0 v 0 0))
                   astChildren None 0 None None)
  | ConvError e => ConvError e
  | ConvPanic => ConvPanic
  end.
Proof.
  unfold plainNode. rewrite ASTFromPlain_eq.
  rewrite lookup_insert_ne, lookup_insert_ne, lookup_insert_eq by done.
  rewrite lookup_insert_eq.
  rewrite lookup_insert_ne, lookup_insert_eq by done.
  reflexivity.
Qed.

Lemma Plain_node nm t cs r b nd ld ms :
  mapM Plain cs = Some ms -> cs <> [] ->
  Plain (mkASTNode nm (Some t) cs r b nd ld) =
  Some (plainNode nm (Val t) (IMapSlice ms)).
Proof.
  intros Hms Hne. simpl. rewrite Hms. simpl.
  destruct (decide (0 < Z.of_nat (length cs))) as [Hsome | Hnone];
    [reflexivity |].
  destruct cs; [congruence | simpl in Hnone; lia].
Qed.

Lemma plainLeaf_not_node nm v nm' v' c : plainLeaf nm v <> plainNode nm' v' c.
Proof.
  intros H. apply (f_equal (fun m => entriesOf m !! "children")) in H.
  unfold plainLeaf, plainNode in H. simpl in H.
  rewrite lookup_insert_ne, lookup_insert_ne, lookup_empty in H by done.
  rewrite lookup_insert_ne, lookup_insert_eq in H by done.
  discriminate H.
Qed.

Lemma plainNode_children nm v c nm' v' c' :
  plainNode nm v c = plainNode nm' v' c' -> c = c'.
Proof.
  intros H. apply (f_equal (fun m => entriesOf m !! "children")) in H.
  unfold plainNode in H. simpl in H.
  rewrite !(lookup_insert_ne _ "value" "children") in H by done.
  rewrite !lookup_insert_eq in H. injection H as ->. reflexivity.
Qed.

Lemma onlyMapSlices_children nm v c :
  onlyMapSlices (plainNode nm v c) ->
  exists l, c = IMapSlice l /\ Forall onlyMapSlices l.
Proof.
  intros H. remember (plainNode nm v c) as m eqn:Hm.
  destruct H as [nm' v' | nm' v' l Hall].
  - exfalso. exact (plainLeaf_not_node _ _ _ _ _ Hm).
  - exists l. split; [| exact Hall].
    symmetry. exact (plainNode_children _ _ _ _ _ _ Hm).
Qed.

(** C3, as the code has it: a well-formed plain AST in which no list of
    children is empty is converted to a tree without an error, and the plain
    AST of that tree equals it as a map structure; it is the plain AST
    itself when its lists of children are slices of maps. *)
Theorem plain_of_converted m :
  wfPlainNonEmpty m ->
  exists n m',
    ASTFromPlain m = Converted n /\ Plain n = Some m' /\ mapEq m' m
    /\ (onlyMapSlices m -> m' = m).
Proof.
  induction 1 as [nm v | nm v c l Hc Hne Hall IH]
    using wfPlainNonEmpty_children_ind.
  - eexists. eexists. split; [apply ASTFromPlain_leaf |].
    split; [reflexivity |]. split; [constructor | reflexivity].
  - assert (Hkids : exists cs ms,
              convertMaps l = Converted cs
              /\ mapM Plain cs = Some ms
              /\ Forall2 mapEq ms l
              /\ (Forall onlyMapSlices l -> ms = l)).
    { clear Hc Hne Hall.
      induction IH as [| m l (n & m' & Hn & Hm' & Heq & Hsame) _ IHl].
      - exists [], []. repeat split; constructor.
      - destruct IHl as (cs & ms & Hcs & Hms & Hall & Hsames).
        exists (n :: cs), (m' :: ms). repeat split.
        + simpl. rewrite Hn, Hcs. reflexivity.
        + simpl. rewrite Hm'. simpl. rewrite Hms. reflexivity.
        + constructor; assumption.
        + intros Honly. inversion Honly as [| m0 l0 Hm0 Hl0]; subst.
          rewrite (Hsame Hm0), (Hsames Hl0). reflexivity. }
    destruct Hkids as (cs & ms & Hcs & Hms & Hall2 & Hsame).
    rewrite ASTFromPlain_node, (childrenFromPlain_childList c l Hc), Hcs.
    eexists. eexists. split; [reflexivity |].
    split.
    + apply Plain_node; [exact Hms |].
      intros ->. simpl in Hcs. destruct l; [congruence |].
      simpl in Hcs. destruct (ASTFromPlain p); try discriminate.
      destruct (convertMaps l); discriminate.
    + simpl. split.
      * econstructor; [constructor | exact Hc | exact Hall2].
      * intros Honly.
        destruct (onlyMapSlices_children nm v c Honly) as (l0 & -> & Hl0).
        inversion Hc; subst. rewrite (Hsame Hl0). reflexivity.
Qed.

Lemma plain_of_converted_witness :
  exists n m',
    ASTFromPlain (plainNode "AND" "and" (IMapSlice [plainLeaf "VALUE" "a"]))
      = Converted n
    /\ Plain n = Some m'
    /\ mapEq m' (plainNode "AND" "and" (IMapSlice [plainLeaf "VALUE" "a"]))
    /\ (onlyMapSlices
          (plainNode "AND" "and" (IMapSlice [plainLeaf "VALUE" "a"])) ->
        m' = plainNode "AND" "and" (IMapSlice [plainLeaf "VALUE" "a"])).
Proof.
  apply (plain_of_converted
           (plainNode "AND" "and" (IMapSlice [plainLeaf "VALUE" "a"]))).
  econstructor; [constructor | discriminate |].
  constructor; [constructor | constructor].
Defined.

(** C3, as the specification states it, fails: a well-formed plain AST with
    an empty list of children is converted to a tree without children, and
    the plain AST of that tree has no entry for the children. *)
Lemma plain_of_converted_empty_children :
  wfPlain plainEmptyChildren
  /\ exists n,
       ASTFromPlain plainEmptyChildren = Converted n
       /\ Plain n = Some (plainLeaf "a" "b")
       /\ ~ mapEq (plainLeaf "a" "b") plainEmptyChildren.
Proof.
  split.
  - unfold plainEmptyChildren. econstructor; constructor.
  - eexists. split; [reflexivity |]. split; [reflexivity |].
    intros H. remember (plainLeaf "a" "b") as x eqn:Hx.
    remember plainEmptyChildren as y eqn:Hy.
    destruct H as [nm v | nm v c l c' l' _ _ _].
    + exact (plainLeaf_not_node _ _ _ _ _ Hy).
    + symmetry in Hx. exact (plainLeaf_not_node _ _ _ _ _ Hx).
Qed.

(** ** The names of the nodes of a parsed tree *)

Lemma names_appendChild n c :
  names (appendChild n c) = (names n ++ names c)%list.
Proof.
  destruct n as [nm t cs r b nd ld]. simpl.
  rewrite fmap_app, join_app. simpl. rewrite app_nil_r. reflexivity.
Qed.

Lemma names_instance p pr t : names (instance p pr t) = [Name pr].
Proof. unfold instance. destruct (rp p); reflexivity. Qed.

Lemma astNodeMap_name id pr :
  astNodeMap id = Some pr -> Name pr <> NodeNODEKIND.
Proof.
  destruct id; simpl; intros H; try discriminate H;
    injection H as <-; discriminate.
Qed.

Lemma noKindName_instance p id pr t :
  astNodeMap id = Some pr -> noKindName (instance p pr t).
Proof.
  intros Hpr. unfold noKindName. rewrite names_instance.
  intros Hin. apply list_elem_of_singleton in Hin.
  exact (astNodeMap_name id pr Hpr (eq_sym Hin)).
Qed.

Lemma noKindName_appendChild n c :
  noKindName n -> noKindName c -> noKindName (appendChild n c).
Proof.
  unfold noKindName. rewrite names_appendChild, elem_of_app. tauto.
Qed.

Lemma nextNode_noKindName :
  triple nodeNoKindName (fun _ => True) nextNode (fun _ => True).
Proof.
  intros p Hp. unfold nextNode, next.
  destruct (tokens p) as [| token rest]; simpl.
  - split; [| exact Logic.I]. intros n Hn. discriminate Hn.
  - destruct (decide (ID token = TokenError)) as [Herr | Hok]; simpl.
    + split; [| exact Logic.I]. intros n Hn. discriminate Hn.
    + destruct (astNodeMap (ID token)) as [pr |] eqn:Hpr; simpl.
      * split; [| exact Logic.I]. intros n Hn. injection Hn as <-.
        exact (noKindName_instance p _ pr _ Hpr).
      * split; [| exact Logic.I]. intros n Hn. discriminate Hn.
Qed.

Lemma getNode_noKindName :
  triple nodeNoKindName (fun _ => True) getNode
    (fun o => forall n, o = Some n -> noKindName n).
Proof. intros p Hp. simpl. split; [exact Hp | exact Hp]. Qed.

Lemma skipToken_noKindName ids :
  triple nodeNoKindName (fun _ => True) (skipToken ids) (fun _ => True).
Proof.
  intros p Hp. unfold skipToken, curToken, bind, getNode. simpl.
  destruct (node p) as [n |]; simpl; [| exact Logic.I].
  destruct (Token n) as [tok |]; simpl; [| exact Logic.I].
  destruct (canSkip ids (ID tok)); simpl.
  - exact (nextNode_noKindName p Hp).
  - destruct (decide (ID tok = TokenEOF)); simpl; auto.
Qed.

Lemma acceptChild_noKindName self id :
  noKindName self ->
  triple nodeNoKindName (fun _ => True) (acceptChild self id) noKindName.
Proof.
  intros Hs. unfold acceptChild.
  eapply triple_bind; [apply getNode_noKindName |]. intros o Ho.
  eapply triple_bind; [apply nextNode_noKindName |]. intros _ _.
  eapply triple_bind; [apply triple_deref, Ho |]. intros current Hc.
  eapply triple_bind with (Q := fun _ => True);
    [apply triple_deref; auto |]. intros t _.
  destruct (decide (ID t = id)).
  - apply triple_ret. apply noKindName_appendChild; assumption.
  - intros p Hp. simpl. auto.
Qed.

Lemma noKindName_children n c cs :
  noKindName n -> Children n = c :: cs ->
  noKindName c
  /\ forall c', noKindName c' -> noKindName (setChildren n (c' :: cs)).
Proof.
  destruct n as [nm t kids r b nd ld]. unfold noKindName. simpl.
  intros Hn ->. rewrite fmap_cons in Hn. simpl in Hn.
  rewrite elem_of_cons, elem_of_app in Hn. split.
  - tauto.
  - intros c' Hc'. rewrite elem_of_cons, elem_of_app. tauto.
Qed.

Lemma run_noKindName fuel rightBinding :
  triple nodeNoKindName (fun _ => True) (run fuel rightBinding) noKindName.
Proof.
  apply run_ok.
  - apply getNode_noKindName.
  - apply nextNode_noKindName.
  - apply skipToken_noKindName.
  - apply acceptChild_noKindName.
  - intros; exact Logic.I.
  - apply noKindName_appendChild.
  - intros n c cs Hn Hcs. exact (proj1 (noKindName_children n c cs Hn Hcs)).
  - intros n c c' cs Hn Hcs.
    exact (proj2 (noKindName_children n c cs Hn Hcs) c').
  - intros p id pr n Hpr _. exact (noKindName_instance p id pr _ Hpr).
Qed.

(** Whatever the stream of tokens, no node of a tree which the parser
    returns is named NODEKIND: the table has no prototype of that name. *)
Lemma parse_noKindName p root : parse p = OK root -> noKindName root.
Proof.
  unfold parse. destruct (next p) as [[first | e | | ] p'] eqn:Hnext;
    try discriminate.
  intros Hrun.
  assert (Hinv : nodeNoKindName (setNode p' (Some first))).
  { intros n' Hn'. simpl in Hn'. injection Hn' as <-.
    unfold next in Hnext. destruct (tokens p) as [| token rest];
      [discriminate |].
    destruct (decide (ID token = TokenError)); [discriminate |].
    destruct (astNodeMap (ID token)) as [pr |] eqn:Hpr; [| discriminate].
    injection Hnext as <- _. exact (noKindName_instance p _ pr _ Hpr). }
  pose proof (run_noKindName (S (length (tokens p'))) 0 _ Hinv) as H.
  destruct (run _ _ _) as [[a | e | | ] p'']; simpl in Hrun;
    try discriminate.
  injection Hrun as <-. apply H.
Qed.

(** ** Steps of the parser *)

Lemma nextNode_cons nm n t ts rp pr :
  astNodeMap (ID t) = Some pr ->
  nextNode (mkParser nm n (t :: ts) rp) =
  (OK tt,
   mkParser nm
     (Some (instance (mkParser nm n (t :: ts) rp) pr (Some t))) ts rp).
Proof.
  intros Hpr. unfold nextNode, next. simpl.
  destruct (decide (ID t = TokenError)) as [Herr | _].
  - rewrite Herr in Hpr. discriminate Hpr.
  - rewrite Hpr. reflexivity.
Qed.

Lemma instance_fields p pr t :
  Name (instance p pr t) = Name pr
  /\ Token (instance p pr t) = t
  /\ Children (instance p pr t) = []
  /\ binding (instance p pr t) = binding pr
  /\ nullDenotation (instance p pr t) = nullDenotation pr
  /\ leftDenotation (instance p pr t) = leftDenotation pr.
Proof. unfold instance. destruct (rp p); repeat split. Qed.

Lemma sexp_instance p pr t :
  sexp (instance p pr t) = SNode (Name pr) (Val <$> t) [].
Proof. unfold instance. destruct (rp p); reflexivity. Qed.

Lemma sexp_appendChild n c :
  sexp (appendChild n c) =
  match sexp n with
  | SNode nm v args => SNode nm v (args ++ [sexp c])
  end.
Proof.
  destruct n as [nm t cs r b nd ld]. simpl. rewrite fmap_app. reflexivity.
Qed.

(** The loop of [run] ends at a token which does not bind more than the
    right binding power. *)
Lemma runLoop_stop run' k rightBinding left nm cur ts rp :
  binding cur <= rightBinding ->
  runLoop run' k rightBinding left (mkParser nm (Some cur) ts rp) =
  (OK left, mkParser nm (Some cur) ts rp).
Proof.
  intros Hle. destruct k; simpl; unfold bind; simpl;
    destruct (decide (rightBinding < binding cur)); try lia; reflexivity.
Qed.

(** The loop of [run] at an infix operator: the right operand is parsed by
    [run] with the binding power of the operator, and the loop goes on with
    the operator node, which has the left and the right operand as its
    children. *)
Lemma runLoop_infix run' k rightBinding left nm op t ts rp pr right p' :
  rightBinding < binding op ->
  leftDenotation op = Some LdInfix ->
  astNodeMap (ID t) = Some pr ->
  run' (binding op)
    (mkParser nm
       (Some (instance (mkParser nm (Some op) (t :: ts) rp) pr (Some t)))
       ts rp) = (OK right, p') ->
  runLoop run' (S k) rightBinding left (mkParser nm (Some op) (t :: ts) rp) =
  runLoop run' k rightBinding (appendChild (appendChild op left) right) p'.
Proof.
  intros Hlt Hld Hpr Hrun. simpl. unfold bind at 1 2. simpl.
  destruct (decide (rightBinding < binding op)); [| lia].
  unfold bind at 1. rewrite (nextNode_cons _ _ _ _ _ _ Hpr).
  rewrite Hld. simpl. unfold ldInfix, bind at 1 2. rewrite Hrun. reflexivity.
Qed.

(** [run] at an operand which is followed by a token that does not bind
    more than the right binding power: the operand is returned and the
    parser is at that token. *)
Lemma run_operand fuel rightBinding nm n t ts rp pr :
  nullDenotation n = Some NdTerm ->
  astNodeMap (ID t) = Some pr ->
  binding pr <= rightBinding ->
  run (S fuel) rightBinding (mkParser nm (Some n) (t :: ts) rp) =
  (OK n,
   mkParser nm
     (Some (instance (mkParser nm (Some n) (t :: ts) rp) pr (Some t))) ts rp).
Proof.
  intros Hnd Hpr Hle. simpl. unfold bind at 1 2. simpl.
  rewrite (nextNode_cons _ _ _ _ _ _ Hpr). unfold bind at 1. simpl.
  rewrite Hnd. unfold bind at 1. simpl.
  apply runLoop_stop.
  destruct (instance_fields (mkParser nm (Some n) (t :: ts) rp) pr (Some t))
    as (_ & _ & _ & -> & _). exact Hle.
Qed.

(** [run] at an operand: the loop starts with the operand as the left
    node. *)
Lemma run_start_operand fuel rightBinding nm n t ts rp pr :
  nullDenotation n = Some NdTerm ->
  astNodeMap (ID t) = Some pr ->
  run (S fuel) rightBinding (mkParser nm (Some n) (t :: ts) rp) =
  runLoop (run fuel) fuel rightBinding n
    (mkParser nm
       (Some (instance (mkParser nm (Some n) (t :: ts) rp) pr (Some t)))
       ts rp).
Proof.
  intros Hnd Hpr. simpl. unfold bind at 1 2. simpl.
  rewrite (nextNode_cons _ _ _ _ _ _ Hpr). unfold bind at 1. simpl.
  rewrite Hnd. unfold bind at 1. reflexivity.
Qed.

(** The loop of [run] at an infix operator which is followed by an operand
    and then by a token that does not bind more than the operator: the
    operand alone is the right operand. *)
Lemma runLoop_infix_operand fuel k rightBinding left nm op t t' ts rp pr pr' :
  rightBinding < binding op ->
  leftDenotation op = Some LdInfix ->
  astNodeMap (ID t) = Some pr ->
  nullDenotation pr = Some NdTerm ->
  astNodeMap (ID t') = Some pr' ->
  binding pr' <= binding op ->
  let right := instance (mkParser nm (Some op) (t :: t' :: ts) rp) pr
                 (Some t) in
  runLoop (run (S fuel)) (S k) rightBinding left
    (mkParser nm (Some op) (t :: t' :: ts) rp) =
  runLoop (run (S fuel)) k rightBinding
    (appendChild (appendChild op left) right)
    (mkParser nm
       (Some (instance (mkParser nm (Some right) (t' :: ts) rp) pr'
                (Some t')))
       ts rp).
Proof.
  intros Hlt Hld Hpr Hnd Hpr' Hle right.
  apply (runLoop_infix _ _ _ _ _ _ _ _ _ pr); try assumption.
  apply run_operand; try assumption.
  subst right.
  destruct (instance_fields (mkParser nm (Some op) (t :: t' :: ts) rp) pr
              (Some t)) as (_ & _ & _ & _ & -> & _).
  exact Hnd.
Qed.

Lemma isInfix_binding t :
  isInfix t ->
  exists pr,
    astNodeMap (ID t) = Some pr /\ leftDenotation pr = Some LdInfix
    /\ binding pr = bindingOf t /\ Name pr = nameOf t /\ 0 < binding pr.
Proof.
  unfold isInfix, bindingOf, nameOf.
  destruct (ID t); simpl; intros H; try discriminate H;
    eexists; (split; [reflexivity |]); repeat split; reflexivity.
Qed.

Lemma isOperand_binding t :
  isOperand t ->
  exists pr,
    astNodeMap (ID t) = Some pr /\ nullDenotation pr = Some NdTerm
    /\ binding pr = 0 /\ Name pr = nameOf t.
Proof.
  unfold isOperand, nameOf.
  destruct (ID t); simpl; intros H; try discriminate H;
    eexists; (split; [reflexivity |]); repeat split; reflexivity.
Qed.

Lemma next_cons nm n t ts rp pr :
  astNodeMap (ID t) = Some pr ->
  next (mkParser nm n (t :: ts) rp) =
  (OK (instance (mkParser nm n (t :: ts) rp) pr (Some t)),
   mkParser nm n ts rp).
Proof.
  intros Hpr. unfold next. simpl.
  destruct (decide (ID t = TokenError)) as [Herr | _].
  - rewrite Herr in Hpr. discriminate Hpr.
  - rewrite Hpr. reflexivity.
Qed.

(** [run] at a node which has a null denotation, when the advance
    succeeds: the denotation function, then the loop. *)
Lemma run_step fuel rightBinding nm n t ts provider pr nd :
  astNodeMap (ID t) = Some pr ->
  nullDenotation n = Some nd ->
  run (S fuel) rightBinding (mkParser nm (Some n) (t :: ts) provider) =
  (do left <- callNullDenotation (run fuel) fuel nd n;
   runLoop (run fuel) fuel rightBinding left)
    (mkParser nm
       (Some (instance (mkParser nm (Some n) (t :: ts) provider) pr (Some t)))
       ts provider).
Proof.
  intros Hpr Hnd. simpl. unfold bind at 1 2. simpl.
  rewrite (nextNode_cons _ _ _ _ _ _ Hpr). unfold bind at 1. simpl.
  rewrite Hnd. reflexivity.
Qed.

(** The loop of [run] at an infix operator whose right operand fails. *)
Lemma runLoop_infix_error run' k rightBinding left nm op t ts rp pr e p' :
  rightBinding < binding op ->
  leftDenotation op = Some LdInfix ->
  astNodeMap (ID t) = Some pr ->
  run' (binding op)
    (mkParser nm
       (Some (instance (mkParser nm (Some op) (t :: ts) rp) pr (Some t)))
       ts rp) = (Err e, p') ->
  runLoop run' (S k) rightBinding left (mkParser nm (Some op) (t :: ts) rp) =
  (Err e, p').
Proof.
  intros Hlt Hld Hpr Hrun. simpl. unfold bind at 1 2. simpl.
  destruct (decide (rightBinding < binding op)); [| lia].
  unfold bind at 1. rewrite (nextNode_cons _ _ _ _ _ _ Hpr).
  rewrite Hld. simpl. unfold ldInfix, bind at 1 2. rewrite Hrun. reflexivity.
Qed.

(** ** Left associativity *)

(** C5: three operands joined by two infix operators of the same binding
    power are parsed to the left-nested tree: the node of the second
    operator has as children the node of the first operator, with the first
    and the second operand, and the third operand. *)
Theorem infix_left_associative nm provider a op1 b op2 c eof :
  isOperand a -> isOperand b -> isOperand c ->
  isInfix op1 -> isInfix op2 -> bindingOf op1 = bindingOf op2 ->
  ID eof = TokenEOF ->
  exists root,
    parse (mkParser nm None [a; op1; b; op2; c; eof] provider) = OK root
    /\ sexp root =
         nodeOf op2 [nodeOf op1 [nodeOf a []; nodeOf b []]; nodeOf c []].
Proof.
  intros Ha Hb Hc H1 H2 Hsame Heof.
  destruct (isOperand_binding a Ha) as (pa & Hpa & Hnda & Hba & Hna).
  destruct (isOperand_binding b Hb) as (pb & Hpb & Hndb & Hbb & Hnb).
  destruct (isOperand_binding c Hc) as (pc & Hpc & Hndc & Hbc & Hnc).
  destruct (isInfix_binding op1 H1) as (p1 & Hp1 & Hld1 & Hb1 & Hn1 & Hpos1).
  destruct (isInfix_binding op2 H2) as (p2 & Hp2 & Hld2 & Hb2 & Hn2 & Hpos2).
  assert (Hpe : astNodeMap (ID eof) = Some (proto NodeEOF 0 (Some NdTerm) None))
    by (rewrite Heof; reflexivity).
  unfold parse. rewrite (next_cons _ _ _ _ _ _ Hpa).
  unfold setNode. cbn [tokens length name node rp].
  set (na := instance _ pa (Some a)).
  assert (Hna' : nullDenotation na = Some NdTerm).
  { subst na. destruct (instance_fields
      (mkParser nm None [a; op1; b; op2; c; eof] provider) pa (Some a))
      as (_ & _ & _ & _ & -> & _). exact Hnda. }
  rewrite (run_start_operand 5 0 nm na op1 _ provider p1 Hna' Hp1).
  set (n1 := instance _ p1 (Some op1)).
  assert (Hn1' : binding n1 = binding p1
                 /\ leftDenotation n1 = Some LdInfix
                 /\ sexp n1 = nodeOf op1 []).
  { subst n1. rewrite sexp_instance. unfold nodeOf. rewrite <- Hn1.
    destruct (instance_fields
      (mkParser nm (Some na) [op1; b; op2; c; eof] provider) p1 (Some op1))
      as (_ & _ & _ & -> & _ & ->). auto. }
  destruct Hn1' as (Hbn1 & Hldn1 & Hsn1).
  rewrite (runLoop_infix_operand 4 4 0 na nm n1 b op2 [c; eof] provider
             pb p2); try assumption; try lia.
  set (nb := instance _ pb (Some b)).
  set (n2 := instance _ p2 (Some op2)).
  assert (Hn2' : binding n2 = binding p2
                 /\ leftDenotation n2 = Some LdInfix
                 /\ sexp n2 = nodeOf op2 []).
  { subst n2. rewrite sexp_instance. unfold nodeOf. rewrite <- Hn2.
    destruct (instance_fields
      (mkParser nm (Some nb) [op2; c; eof] provider) p2 (Some op2))
      as (_ & _ & _ & -> & _ & ->). auto. }
  destruct Hn2' as (Hbn2 & Hldn2 & Hsn2).
  rewrite (runLoop_infix_operand 4 3 0 _ nm n2 c eof [] provider
             pc _ ltac:(lia) Hldn2 Hpc Hndc Hpe); [| simpl; lia].
  set (nc := instance _ pc (Some c)).
  rewrite runLoop_stop.
  2:{ destruct (instance_fields
        (mkParser nm (Some nc) [eof] provider)
        (proto NodeEOF 0 (Some NdTerm) None) (Some eof))
        as (_ & _ & _ & -> & _). simpl. lia. }
  eexists. split; [reflexivity |].
  rewrite !sexp_appendChild, Hsn1, Hsn2. subst na nb nc.
  rewrite !sexp_instance. unfold nodeOf. simpl.
  rewrite Hna, Hnb, Hnc. reflexivity.
Qed.

Lemma infix_left_associative_witness :
  exists root,
    Parse "demo" "a and b and c" = OK root
    /\ sexp root =
         binary NodeAND "and"
           (binary NodeAND "and" (value "a") (value "b")) (value "c").
Proof.
  apply (infix_left_associative "demo" None
           (mkLexToken TokenVALUE 0 "a" 1 1)
           (mkLexToken TokenAND 2 "and" 1 3)
           (mkLexToken TokenVALUE 6 "b" 1 7)
           (mkLexToken TokenAND 8 "and" 1 9)
           (mkLexToken TokenVALUE 12 "c" 1 13)
           (mkLexToken TokenEOF 13 "" 1 14)); reflexivity.
Defined.

(** ** The parser at the end of a stream *)







(** *** The stream of the lexer *)










(** ** The errors of the calls of [run] are returned

    The denotation functions and the loop of [run] are compared over two
    functions for the recursive calls, of which the first fails with an
    error of [E] where it does not do what the second does. *)



Lemma run_unfold fuel rightBinding :
  run (S fuel) rightBinding = runStep (run fuel) fuel rightBinding.
Proof. reflexivity. Qed.

Section Propagation.

Variable E : ParserError -> Prop.

Lemma sameOrFails_refl {A} (m : M A) : sameOrFails E m m.
Proof. intros p. left. reflexivity. Qed.

Lemma sameOrFails_bind {A B} (m1 m2 : M A) (k1 k2 : A -> M B) :
  sameOrFails E m1 m2 -> (forall a, sameOrFails E (k1 a) (k2 a)) ->
  sameOrFails E (bind m1 k1) (bind m2 k2).
Proof.
  intros Hm Hk p. unfold bind. destruct (Hm p) as [-> | (e & p' & -> & He)].
  - destruct (m2 p) as [[a | e | | ] p']; try (left; reflexivity).
    apply Hk.
  - right. exists e, p'. auto.
Qed.

Variables run1 run2 : Z -> M ASTNode.
Hypothesis calls_same : forall rb, sameOrFails E (run1 rb) (run2 rb).

Ltac same :=
  repeat match goal with
  | |- sameOrFails _ ?m ?m => apply sameOrFails_refl
  | |- sameOrFails _ (run1 _) (run2 _) => apply calls_same
  | |- sameOrFails _ (bind _ _) (bind _ _) =>
      apply sameOrFails_bind; [| intros ?]
  | |- sameOrFails _ (if ?c then _ else _) (if ?c then _ else _) =>
      destruct c
  | |- sameOrFails _ (match ?x with _ => _ end)
         (match ?x with _ => _ end) => destruct x
  end.

Lemma ndInner_same self :
  sameOrFails E (ndInner run1 self) (ndInner run2 self).
Proof. unfold ndInner. same. Qed.

Lemma ndPrefix_same self :
  sameOrFails E (ndPrefix run1 self) (ndPrefix run2 self).
Proof. unfold ndPrefix. same. Qed.

Lemma parseRest_same k self :
  sameOrFails E (parseRest run1 k self) (parseRest run2 k self).
Proof.
  revert self. induction k as [| k IH]; intros self; simpl; same.
  apply IH.
Qed.

Lemma traverseRest_same k self :
  sameOrFails E (traverseRest run1 k self) (traverseRest run2 k self).
Proof.
  revert self. induction k as [| k IH]; intros self; simpl; same.
  apply IH.
Qed.

Lemma acceptShowTerm_same self :
  sameOrFails E (acceptShowTerm run1 self) (acceptShowTerm run2 self).
Proof. unfold acceptShowTerm. same. Qed.

Lemma showTerms_same k self :
  sameOrFails E (showTerms run1 k self) (showTerms run2 k self).
Proof.
  revert self. induction k as [| k IH]; intros self; simpl; same.
  - apply acceptShowTerm_same.
  - apply IH.
Qed.

Lemma parseList_same stop k self :
  sameOrFails E (parseList run1 stop k self) (parseList run2 stop k self).
Proof.
  revert self. induction k as [| k IH]; intros self; simpl; same.
  apply IH.
Qed.

Lemma callNullDenotation_same fuel nd self :
  sameOrFails E (callNullDenotation run1 fuel nd self)
    (callNullDenotation run2 fuel nd self).
Proof.
  destruct nd; simpl.
  - same.
  - apply ndInner_same.
  - apply ndPrefix_same.
  - unfold ndGet. same. apply parseRest_same.
  - unfold ndLookup. same. apply parseRest_same.
  - same.
  - unfold ndTraverse. same. apply traverseRest_same.
  - same.
  - unfold ndShow. same; [apply acceptShowTerm_same | apply showTerms_same].
  - apply parseList_same.
  - unfold ndWithFunc. same. apply parseList_same.
  - unfold ndList. same. apply parseList_same.
Qed.

Lemma callLeftDenotation_same ld self left :
  sameOrFails E (callLeftDenotation run1 ld self left)
    (callLeftDenotation run2 ld self left).
Proof. destruct ld. simpl. unfold ldInfix. same. Qed.

Lemma runLoop_same k rightBinding left :
  sameOrFails E (runLoop run1 k rightBinding left)
    (runLoop run2 k rightBinding left).
Proof.
  revert left. induction k as [| k IH]; intros left; simpl; same.
  - apply callLeftDenotation_same.
  - apply IH.
Qed.

Lemma runStep_same fuel rightBinding :
  sameOrFails E (runStep run1 fuel rightBinding)
    (runStep run2 fuel rightBinding).
Proof.
  unfold runStep. same.
  - apply callNullDenotation_same.
  - apply runLoop_same.
Qed.

End Propagation.

Lemma sameOrFails_trans E {A} (m1 m2 m3 : M A) :
  sameOrFails E m1 m2 -> sameOrFails E m2 m3 -> sameOrFails E m1 m3.
Proof.
  intros H12 H23 p. destruct (H12 p) as [-> | H]; [apply H23 | right; exact H].
Qed.

(** When some calls of [run], at any depth, fail with an error of [E]
    where they would do their work, a call of [run] returns what it
    returned before or fails with an error of [E]: no denotation function
    and no loop drops the error of a call of [run]. *)
Lemma run_same E (R : nat -> Z -> M ASTNode) :
  (forall rb, sameOrFails E (R 0%nat rb) (run 0 rb)) ->
  (forall fuel rb,
     sameOrFails E (R (S fuel) rb) (runStep (R fuel) fuel rb)) ->
  forall fuel rb, sameOrFails E (R fuel rb) (run fuel rb).
Proof.
  intros H0 HS fuel. induction fuel as [| fuel IH]; intros rb; [apply H0 |].
  eapply sameOrFails_trans; [apply HS |].
  rewrite run_unfold. apply runStep_same. exact IH.
Qed.


(** ** Errors of the main loop *)

(** C8, as the code has it.  Every call of [run], the one which [Parse]
    makes or one nested in a denotation function, advances to the next
    token first.  When the advance succeeds, [run] fails with an impossible
    null denotation error which names the token of a node that starts an
    expression and has no null denotation, and its loop fails with an
    impossible left denotation error which names the token of an operator
    that binds more than the right binding power and has no left
    denotation.  When the advance fails, at the start or in the loop, the
    result is the error of the advance.  The result is the error alone.
    No caller drops the error of a call of [run]: when calls of [run], at
    any depth, are made to fail with an error where they would do their
    work, a call of [run] returns what it returned or fails with that
    error; and [Parse] returns the result of its call of [run].  So [Parse]
    fails with the impossible null denotation error at a first token, and
    at a token after an infix operator, which has no null denotation, and
    with the impossible left denotation error at a token without left
    denotation which binds, after an operand, at the start of the input or
    after an infix operator which binds less. *)
Theorem run_impossible_denotation :
  (forall fuel rightBinding nm n tok t pr ts rp,
     Token n = Some tok -> nullDenotation n = None ->
     astNodeMap (ID t) = Some pr ->
     (run (S fuel) rightBinding (mkParser nm (Some n) (t :: ts) rp)).1 =
     Err (mkParserError nm ErrImpossibleNullDenotation (DetailToken tok) tok))
  /\ (forall run' k rightBinding left nm op tok t pr ts rp,
        Token op = Some tok -> rightBinding < binding op ->
        leftDenotation op = None ->
        astNodeMap (ID t) = Some pr ->
        (runLoop run' (S k) rightBinding left
           (mkParser nm (Some op) (t :: ts) rp)).1 =
        Err (mkParserError nm ErrImpossibleLeftDenotation (DetailToken tok)
               tok))
  /\ (forall nm t0 pr0 t1 pr1 ts provider,
        astNodeMap (ID t0) = Some pr0 -> nullDenotation pr0 = None ->
        astNodeMap (ID t1) = Some pr1 ->
        parse (mkParser nm None (t0 :: t1 :: ts) provider) =
        Err (mkParserError nm ErrImpossibleNullDenotation (DetailToken t0)
               t0))
  /\ (forall fuel rightBinding p e p',
        nextNode p = (Err e, p') ->
        run (S fuel) rightBinding p = (Err e, p'))
  /\ (forall run' k rightBinding left p op e p',
        node p = Some op -> rightBinding < binding op ->
        nextNode p = (Err e, p') ->
        runLoop run' (S k) rightBinding left p = (Err e, p'))
  /\ (forall (E : ParserError -> Prop) (R : nat -> Z -> M ASTNode),
        (forall rightBinding,
           sameOrFails E (R 0%nat rightBinding) (run 0 rightBinding)) ->
        (forall fuel rightBinding,
           sameOrFails E (R (S fuel) rightBinding)
             (runStep (R fuel) fuel rightBinding)) ->
        forall fuel rightBinding,
          sameOrFails E (R fuel rightBinding) (run fuel rightBinding))
  /\ (forall p first p1,
        next p = (OK first, p1) ->
        parse p =
        (run (S (length (tokens p1))) 0 (setNode p1 (Some first))).1)
  /\ (forall nm provider a pa op po t pt ts,
        astNodeMap (ID a) = Some pa -> nullDenotation pa = Some NdTerm ->
        astNodeMap (ID op) = Some po -> leftDenotation po = None ->
        0 < binding po ->
        astNodeMap (ID t) = Some pt ->
        parse (mkParser nm None (a :: op :: t :: ts) provider) =
        Err (mkParserError nm ErrImpossibleLeftDenotation (DetailToken op)
               op))
  /\ (forall nm provider a op x px t pt ts,
        isOperand a -> isInfix op ->
        astNodeMap (ID x) = Some px -> nullDenotation px = None ->
        astNodeMap (ID t) = Some pt ->
        parse (mkParser nm None (a :: op :: x :: t :: ts) provider) =
        Err (mkParserError nm ErrImpossibleNullDenotation (DetailToken x) x))
  /\ (forall nm provider a op b x px t pt ts,
        isOperand a -> isInfix op -> isOperand b ->
        astNodeMap (ID x) = Some px -> leftDenotation px = None ->
        bindingOf op < binding px ->
        astNodeMap (ID t) = Some pt ->
        parse (mkParser nm None (a :: op :: b :: x :: t :: ts) provider) =
        Err (mkParserError nm ErrImpossibleLeftDenotation (DetailToken x) x)).
Proof.
  assert (Hnull : forall fuel rightBinding nm n tok t pr ts rp,
     Token n = Some tok -> nullDenotation n = None ->
     astNodeMap (ID t) = Some pr ->
     (run (S fuel) rightBinding (mkParser nm (Some n) (t :: ts) rp)).1 =
     Err (mkParserError nm ErrImpossibleNullDenotation (DetailToken tok) tok)).
  { intros fuel rightBinding nm n tok t pr ts rp Htok Hnd Hpr.
    simpl. unfold bind at 1 2. simpl.
    rewrite (nextNode_cons _ _ _ _ _ _ Hpr). unfold bind at 1. simpl.
    rewrite Hnd, Htok. reflexivity. }
  assert (Hleft : forall run' k rightBinding left nm op tok t pr ts rp,
        Token op = Some tok -> rightBinding < binding op ->
        leftDenotation op = None ->
        astNodeMap (ID t) = Some pr ->
        (runLoop run' (S k) rightBinding left
           (mkParser nm (Some op) (t :: ts) rp)).1 =
        Err (mkParserError nm ErrImpossibleLeftDenotation (DetailToken tok)
               tok)).
  { intros run' k rightBinding left nm op tok t pr ts rp Htok Hlt Hld Hpr.
    simpl. unfold bind at 1 2. simpl.
    destruct (decide (rightBinding < binding op)); [| lia].
    unfold bind at 1. rewrite (nextNode_cons _ _ _ _ _ _ Hpr).
    rewrite Hld, Htok. reflexivity. }
  split; [exact Hnull |]. split; [exact Hleft |].
  split; [| split; [| split; [| split; [| split; [| split; [| split]]]]]].
  - intros nm t0 pr0 t1 pr1 ts provider Hpr0 Hnd Hpr1.
    unfold parse. rewrite (next_cons _ _ _ _ _ _ Hpr0).
    unfold setNode. cbn [tokens name node rp].
    apply (Hnull _ _ _ _ _ _ pr1).
    + apply instance_fields.
    + destruct (instance_fields
                  (mkParser nm None (t0 :: t1 :: ts) provider) pr0
                  (Some t0)) as (_ & _ & _ & _ & -> & _). exact Hnd.
    + exact Hpr1.
  - intros fuel rightBinding p e p' Hnext.
    rewrite run_unfold. unfold runStep, bind, getNode. rewrite Hnext.
    reflexivity.
  - intros run' k rightBinding left p op e p' Hop Hlt Hnext.
    simpl. unfold bind, getNode. rewrite Hop. simpl.
    destruct (decide (rightBinding < binding op)); [| lia].
    rewrite Hnext. reflexivity.
  - exact run_same.
  - intros p first p1 Hnext. unfold parse. rewrite Hnext. reflexivity.
  - intros nm provider a pa op po t pt ts Hpa Hnda Hpo Hldo Hbo Hpt.
    unfold parse. rewrite (next_cons _ _ _ _ _ _ Hpa).
    unfold setNode. cbn [tokens length name node rp].
    set (na := instance _ pa (Some a)).
    assert (Hna : nullDenotation na = Some NdTerm).
    { subst na. rewrite (proj1 (proj2 (proj2 (proj2 (proj2
        (instance_fields _ _ _)))))). exact Hnda. }
    rewrite (run_start_operand _ 0 nm na op _ provider po Hna Hpo).
    set (no := instance _ po (Some op)).
    apply (Hleft _ _ _ _ _ _ _ _ pt).
    + subst no. apply instance_fields.
    + subst no. rewrite (proj1 (proj2 (proj2 (proj2 (instance_fields _ _ _))))).
      exact Hbo.
    + subst no. rewrite (proj2 (proj2 (proj2 (proj2 (proj2
        (instance_fields _ _ _)))))). exact Hldo.
    + exact Hpt.
  - intros nm provider a op x px t pt ts Ha Hop Hpx Hndx Hpt.
    destruct (isOperand_binding a Ha) as (pa & Hpa & Hnda & Hba & Hna).
    destruct (isInfix_binding op Hop) as (po & Hpo & Hldo & Hbo & Hno & Hpos).
    unfold parse. rewrite (next_cons _ _ _ _ _ _ Hpa).
    unfold setNode. cbn [tokens length name node rp].
    set (na := instance _ pa (Some a)).
    assert (Hna' : nullDenotation na = Some NdTerm).
    { subst na. rewrite (proj1 (proj2 (proj2 (proj2 (proj2
        (instance_fields _ _ _)))))). exact Hnda. }
    rewrite (run_start_operand _ 0 nm na op _ provider po Hna' Hpo).
    set (no := instance _ po (Some op)).
    assert (Hno' : binding no = binding po
                   /\ leftDenotation no = Some LdInfix).
    { subst no. destruct (instance_fields
        (mkParser nm (Some na) (op :: x :: t :: ts) provider) po (Some op))
        as (_ & _ & _ & -> & _ & ->). auto. }
    destruct Hno' as [Hbno Hldno].
    set (nx := instance (mkParser nm (Some no) (x :: t :: ts) provider) px
                 (Some x)).
    pose proof (Hnull (S (S (length ts))) (binding no) nm nx x t pt ts provider
                  ltac:(subst nx; apply instance_fields)
                  ltac:(subst nx; rewrite (proj1 (proj2 (proj2 (proj2 (proj2
                          (instance_fields _ _ _)))))); exact Hndx)
                  Hpt) as Hinner.
    destruct (run (S (S (S (length ts)))) (binding no)
                (mkParser nm (Some nx) (t :: ts) provider))
      as [r p'] eqn:Hrun.
    simpl in Hinner. subst r.
    cbn [length].
    rewrite (runLoop_infix_error _ _ 0 na nm no x _ provider px _ p'
               ltac:(lia) Hldno Hpx Hrun).
    reflexivity.
  - intros nm provider a op b x px t pt ts Ha Hop Hb Hpx Hldx Hbx Hpt.
    destruct (isOperand_binding a Ha) as (pa & Hpa & Hnda & Hba & Hna).
    destruct (isOperand_binding b Hb) as (pb & Hpb & Hndb & Hbb & Hnb).
    destruct (isInfix_binding op Hop) as (po & Hpo & Hldo & Hbo & Hno & Hpos).
    unfold parse. rewrite (next_cons _ _ _ _ _ _ Hpa).
    unfold setNode. cbn [tokens length name node rp].
    set (na := instance _ pa (Some a)).
    assert (Hna' : nullDenotation na = Some NdTerm).
    { subst na. rewrite (proj1 (proj2 (proj2 (proj2 (proj2
        (instance_fields _ _ _)))))). exact Hnda. }
    rewrite (run_start_operand _ 0 nm na op _ provider po Hna' Hpo).
    set (no := instance _ po (Some op)).
    assert (Hno' : binding no = binding po
                   /\ leftDenotation no = Some LdInfix).
    { subst no. destruct (instance_fields
        (mkParser nm (Some na) (op :: b :: x :: t :: ts) provider) po
        (Some op)) as (_ & _ & _ & -> & _ & ->). auto. }
    destruct Hno' as [Hbno Hldno].
    set (nb := instance (mkParser nm (Some no) (b :: x :: t :: ts) provider)
                 pb (Some b)).
    assert (Hnb' : nullDenotation nb = Some NdTerm).
    { subst nb. rewrite (proj1 (proj2 (proj2 (proj2 (proj2
        (instance_fields _ _ _)))))). exact Hndb. }
    set (nx := instance (mkParser nm (Some nb) (x :: t :: ts) provider) px
                 (Some x)).
    assert (Hinner :
      exists p',
        run (S (S (S (S (length ts))))) (binding no)
          (mkParser nm (Some nb) (x :: t :: ts) provider) =
        (Err (mkParserError nm ErrImpossibleLeftDenotation (DetailToken x) x),
         p')).
    { rewrite (run_start_operand _ _ nm nb x _ provider px Hnb' Hpx).
      fold nx.
      pose proof (Hleft (run (S (S (S (length ts))))) (S (S (length ts)))
                    (binding no) nb nm nx x t pt ts provider
                    ltac:(subst nx; apply instance_fields)
                    ltac:(subst nx;
                          rewrite (proj1 (proj2 (proj2 (proj2
                            (instance_fields _ _ _)))));
                          unfold bindingOf in Hbx; rewrite Hpo in Hbx; lia)
                    ltac:(subst nx; rewrite (proj2 (proj2 (proj2 (proj2 (proj2
                            (instance_fields _ _ _)))))); exact Hldx)
                    Hpt) as H.
      destruct (runLoop _ _ _ _ _) as [r p']. simpl in H. subst r.
      exists p'. reflexivity. }
    destruct Hinner as [p' Hinner].
    cbn [length] in *.
    rewrite (runLoop_infix_error _ _ 0 na nm no b _ provider pb _ p'
               ltac:(lia) Hldno Hpb Hinner).
    reflexivity.
Qed.

Lemma run_impossible_denotation_witness :
  parse (mkParser "demo" None
           [commaToken; mkLexToken TokenVALUE 2 "1" 1 3;
            mkLexToken TokenEOF 3 "" 1 4] None) =
  Err (mkParserError "demo" ErrImpossibleNullDenotation
         (DetailToken commaToken) commaToken)
  /\ (run 1 0
        (mkParser "demo" (Some commaNode)
           [mkLexToken TokenVALUE 2 "1" 1 3; mkLexToken TokenEOF 3 "" 1 4]
           None)).1 =
     Err (mkParserError "demo" ErrImpossibleNullDenotation
            (DetailToken commaToken) commaToken)
  /\ (runLoop (run 2) 1 0 valueNode
        (mkParser "demo" (Some lparenNode)
           [mkLexToken TokenVALUE 3 "b" 1 4;
            mkLexToken TokenRPAREN 4 ")" 1 5;
            mkLexToken TokenEOF 5 "" 1 6] None)).1 =
     Err (mkParserError "demo" ErrImpossibleLeftDenotation
            (DetailToken lparenToken) lparenToken)
  /\ run 1 0 (mkParser "demo" (Some commaNode) [lexErrorToken] None) =
     (Err (mkParserError "demo" ErrLexicalError
             (DetailString (Val lexErrorToken)) lexErrorToken),
      mkParser "demo" None [] None)
  /\ parse (mkParser "demo" None
              [valueToken; lparenToken; mkLexToken TokenVALUE 3 "b" 1 4;
               mkLexToken TokenEOF 4 "" 1 5] None) =
     Err (mkParserError "demo" ErrImpossibleLeftDenotation
            (DetailToken lparenToken) lparenToken)
  /\ parse (mkParser "demo" None
              [tok TokenVALUE "1"; tok TokenPLUS "+"; commaToken;
               tok TokenVALUE "2"; tok TokenEOF ""] None) =
     Err (mkParserError "demo" ErrImpossibleNullDenotation
            (DetailToken commaToken) commaToken)
  /\ parse (mkParser "demo" None
              [tok TokenVALUE "1"; tok TokenPLUS "+"; tok TokenVALUE "2";
               lparenToken; tok TokenVALUE "3"; tok TokenEOF ""] None) =
     Err (mkParserError "demo" ErrImpossibleLeftDenotation
            (DetailToken lparenToken) lparenToken)
  /\ sameOrFails
       (eq (mkParserError "demo" ErrLexicalError (DetailString "")
              lexErrorToken))
       (failingRun
          (mkParserError "demo" ErrLexicalError (DetailString "")
             lexErrorToken) 3 0)
       (run 3 0).
Proof.
  destruct run_impossible_denotation
    as (Hnull & Hleft & Hparse & Hadvance & _ & Hsame & _ & Hpleft & Hnnull
        & Hnleft).
  repeat match goal with |- _ /\ _ => split end.
  - apply (Hparse "demo" commaToken (proto NodeCOMMA 0 None None)
             (mkLexToken TokenVALUE 2 "1" 1 3)
             (proto NodeVALUE 0 (Some NdTerm) None)); reflexivity.
  - apply (Hnull 0%nat 0 "demo" commaNode commaToken _
             (proto NodeVALUE 0 (Some NdTerm) None)); reflexivity.
  - apply (Hleft (run 2) 0%nat 0 _ "demo" _ _ _
             (proto NodeVALUE 0 (Some NdTerm) None));
      [reflexivity | simpl; lia | reflexivity | reflexivity].
  - apply (Hadvance 0%nat 0
             (mkParser "demo" (Some commaNode) [lexErrorToken] None)).
    reflexivity.
  - apply (Hpleft "demo" None valueToken
             (proto NodeVALUE 0 (Some NdTerm) None) lparenToken
             (proto NodeLPAREN 150 (Some NdInner) None)
             (mkLexToken TokenVALUE 3 "b" 1 4)
             (proto NodeVALUE 0 (Some NdTerm) None));
      reflexivity.
  - apply (Hnnull "demo" None (tok TokenVALUE "1") (tok TokenPLUS "+")
             commaToken (proto NodeCOMMA 0 None None) (tok TokenVALUE "2")
             (proto NodeVALUE 0 (Some NdTerm) None)); reflexivity.
  - apply (Hnleft "demo" None (tok TokenVALUE "1") (tok TokenPLUS "+")
             (tok TokenVALUE "2") lparenToken
             (proto NodeLPAREN 150 (Some NdInner) None) (tok TokenVALUE "3")
             (proto NodeVALUE 0 (Some NdTerm) None));
      reflexivity.
  - apply (Hsame _ (failingRun _)).
    + intros rightBinding p. left. reflexivity.
    + intros [| fuel] rightBinding p.
      * right. eexists _, _. split; reflexivity.
      * left. reflexivity.
Defined.

(** C8, as the specification states it, fails: the parser advances to the
    next token before it looks at the null denotation, so at a comma which
    is followed by the error token of the lexer the error is the lexical
    error, not the impossible null denotation. *)
Lemma run_lexical_error_first :
  nullDenotation <$> astNodeMap (ID commaToken) = Some None
  /\ parse (mkParser "demo" None [commaToken; lexErrorToken] None) =
     Err (mkParserError "demo" ErrLexicalError
            (DetailString (Val lexErrorToken)) lexErrorToken)
  /\ Lex "demo" inputCommaOpenQuote = [commaToken; lexErrorToken]
  /\ errorType (Parse "demo" inputCommaOpenQuote) = Some ErrLexicalError.
Proof. repeat split; reflexivity. Qed.

(** ** Errors at the end of the input *)




(** ** Page counting *)

Module PagingFacts.
Import Paging.

Lemma Get_free sf id r :
  id ∉ inUse sf -> records sf !! id = Some r ->
  Get sf id =
  inr (r, mkStorageFile (records sf) (size sf) ({[id]} ∪ inUse sf)).
Proof.
  intros Hfree Hr. unfold Get.
  destruct (decide (id ∈ inUse sf)); [contradiction |].
  rewrite Hr. reflexivity.
Qed.

Lemma Get_held sf id : id ∈ inUse sf -> Get sf id = inl ErrAlreadyInUse.
Proof.
  intros Hheld. unfold Get.
  destruct (decide (id ∈ inUse sf)); [reflexivity | contradiction].
Qed.

(** The walk over the pages [c], [c - 1], ..., 1 when none of them is
    held. *)
Lemma walkPages_free c :
  forall fuel sf count,
    (c <= fuel)%nat ->
    (forall j, (1 <= j <= c)%nat ->
       exists r, records sf !! N.of_nat j = Some r
                 /\ nextPage r = N.of_nat (j - 1)) ->
    (forall j, (1 <= j <= c)%nat -> N.of_nat j ∉ inUse sf) ->
    walkPages fuel sf (N.of_nat c) count = (count + Z.of_nat c, None).
Proof.
  induction c as [| c IH]; intros fuel sf count Hfuel Hrec Hfree.
  - destruct fuel; simpl; f_equal; lia.
  - destruct fuel as [| fuel]; [lia |].
    cbn [walkPages].
    destruct (decide (N.of_nat (S c) = 0%N)) as [H0 | _]; [lia |].
    destruct (Hrec (S c) ltac:(lia)) as (r & Hr & Hnext).
    rewrite (Get_free sf _ r (Hfree (S c) ltac:(lia)) Hr).
    rewrite Hnext. replace (S c - 1)%nat with c by lia.
    rewrite IH.
    + f_equal. lia.
    + lia.
    + intros j Hj. destruct (Hrec j ltac:(lia)) as (rj & Hrj & Hnj).
      exists rj. split; assumption.
    + intros j Hj. simpl. specialize (Hfree j ltac:(lia)). set_solver.
Qed.

(** The walk when one of the pages is held. *)
Lemma walkPages_held c :
  forall fuel sf count held,
    (c <= fuel)%nat ->
    (forall j, (1 <= j <= c)%nat ->
       exists r, records sf !! N.of_nat j = Some r
                 /\ nextPage r = N.of_nat (j - 1)) ->
    (1 <= held <= c)%nat ->
    inUse sf = {[N.of_nat held]} ->
    walkPages fuel sf (N.of_nat c) count = (-1, Some ErrAlreadyInUse).
Proof.
  induction c as [| c IH]; intros fuel sf count held Hfuel Hrec Hheld Huse.
  - lia.
  - destruct fuel as [| fuel]; [lia |].
    cbn [walkPages].
    destruct (decide (N.of_nat (S c) = 0%N)) as [H0 | _]; [lia |].
    destruct (decide (held = S c)) as [-> | Hne].
    + rewrite Get_held; [reflexivity |]. rewrite Huse. set_solver.
    + destruct (Hrec (S c) ltac:(lia)) as (r & Hr & Hnext).
      rewrite (Get_free sf _ r); [| | exact Hr].
      2:{ rewrite Huse. intros Hin. apply elem_of_singleton in Hin. lia. }
      rewrite Hnext. replace (S c - 1)%nat with c by lia.
      apply (IH _ _ _ held).
      * lia.
      * intros j Hj. destruct (Hrec j ltac:(lia)) as (rj & Hrj & Hnj).
        exists rj. split; assumption.
      * lia.
      * simpl. rewrite Huse.
        assert (N.of_nat (S c) <> N.of_nat held) by lia. set_solver.
Qed.

Lemma NewPagedStorageFile_dataList : dataList 0 NewPagedStorageFile.
Proof. repeat split. intros j Hj. lia. Qed.

(** An allocation of a data page after [i] of them. *)
Lemma AllocatePage_dataList i psf :
  dataList i psf ->
  exists psf',
    AllocatePage psf DATA_PAGE = inr (N.of_nat (S i), psf')
    /\ dataList (S i) psf'.
Proof.
  intros (Hsize & Huse & Hdata & Hfree & Hrec).
  destruct psf as [[recs sz used] rs]. simpl in *. subst sz used.
  unfold AllocatePage, takeFreePage. simpl. rewrite Hfree. simpl.
  rewrite Hdata.
  replace (N.of_nat i + 1)%N with (N.of_nat (S i)) by lia.
  unfold mutate at 1. rewrite (Get_free _ _ (mkPageHeader FREE_PAGE 0 0));
    [| simpl; set_solver | simpl; apply lookup_insert_eq].
  unfold ReleaseInUseDirty. simpl.
  destruct (decide (N.of_nat i = 0%N)) as [Hzero | Hpos].
  - eexists. split; [reflexivity |].
    split; [reflexivity |]. split; [simpl; set_solver |].
    split; [reflexivity |]. split; [exact Hfree |]. simpl.
    intros j Hj. assert (j = 1%nat) as -> by lia.
    assert (i = 0%nat) as -> by lia.
    eexists. split; [apply lookup_insert_eq | reflexivity].
  - destruct (Hrec i ltac:(lia)) as (r & Hr & Hnext).
    unfold mutate. erewrite Get_free; cycle 1.
    { simpl. set_solver. }
    { simpl. rewrite lookup_insert_ne by lia.
      rewrite lookup_insert_ne by lia. exact Hr. }
    unfold ReleaseInUseDirty. simpl.
    eexists. split; [reflexivity |].
    split; [reflexivity |]. split; [simpl; set_solver |].
    split; [reflexivity |]. split; [exact Hfree |]. simpl.
    intros j Hj.
    destruct (decide (j = S i)) as [-> | Hj1].
    + eexists. split.
      * rewrite lookup_insert_ne by lia. apply lookup_insert_eq.
      * simpl. f_equal. lia.
    + destruct (decide (j = i)) as [-> | Hj2].
      * eexists. split; [apply lookup_insert_eq | exact Hnext].
      * destruct (Hrec j ltac:(lia)) as (rj & Hrj & Hnj).
        exists rj. split; [| exact Hnj].
        rewrite !lookup_insert_ne by lia. exact Hrj.
Qed.

Lemma allocateData_dataList i :
  exists psf,
    allocateData i NewPagedStorageFile = inr psf /\ dataList i psf.
Proof.
  induction i as [| i (psf & Halloc & Hlist)].
  - exists NewPagedStorageFile. split; [reflexivity |].
    apply NewPagedStorageFile_dataList.
  - destruct (AllocatePage_dataList i psf Hlist) as (psf' & Hpage & Hlist').
    exists psf'. split; [| exact Hlist'].
    simpl. rewrite Halloc, Hpage. reflexivity.
Qed.

End PagingFacts.

(** C9: after [i] allocations of a data page on a fresh paged storage file
    the count of the data pages is [i]; while one of the records of the
    list is held, the count is -1 with the error already in use; once the
    hold is released the file is closed without an error. *)
Theorem count_pages (i : nat) :
  exists psf,
    Paging.allocateData i Paging.NewPagedStorageFile = inr psf
    /\ Paging.CountPages psf Paging.DATA_PAGE = (Z.of_nat i, None)
    /\ forall r, (1 <= r <= i)%nat ->
         exists held,
           Paging.hold psf (N.of_nat r) = inr held
           /\ Paging.CountPages held Paging.DATA_PAGE =
                (-1, Some Paging.ErrAlreadyInUse)
           /\ Paging.Close (Paging.release held (N.of_nat r)) = None.
Proof.
  destruct (PagingFacts.allocateData_dataList i) as (psf & Halloc & Hlist).
  exists psf. split; [exact Halloc |].
  destruct Hlist as (Hsize & Huse & Hdata & Hfree & Hrec).
  split.
  - unfold Paging.CountPages. rewrite Hsize, Hdata, Nat2N.id.
    rewrite PagingFacts.walkPages_free; auto.
    intros j _. rewrite Huse. set_solver.
  - intros r Hr. destruct (Hrec r Hr) as (rec & Hrec_r & _).
    unfold Paging.hold. rewrite (PagingFacts.Get_free _ _ rec);
      [| rewrite Huse; set_solver | exact Hrec_r].
    eexists. split; [reflexivity |]. split.
    + unfold Paging.CountPages. simpl. rewrite Hsize, Hdata, Nat2N.id.
      apply (PagingFacts.walkPages_held _ _ _ _ r); auto.
      simpl. rewrite Huse. set_solver.
    + unfold Paging.Close, Paging.release. simpl.
      destruct (decide _) as [_ | Hne]; [reflexivity |].
      exfalso. apply Hne. rewrite Huse. set_solver.
Qed.

Lemma count_pages_witness :
  exists psf,
    Paging.allocateData 5 Paging.NewPagedStorageFile = inr psf
    /\ Paging.CountPages psf Paging.DATA_PAGE = (5, None)
    /\ (exists held,
          Paging.hold psf 1 = inr held
          /\ Paging.CountPages held Paging.DATA_PAGE =
               (-1, Some Paging.ErrAlreadyInUse)
          /\ Paging.Close (Paging.release held 1) = None)
    /\ (exists held,
          Paging.hold psf 3 = inr held
          /\ Paging.CountPages held Paging.DATA_PAGE =
               (-1, Some Paging.ErrAlreadyInUse)
          /\ Paging.Close (Paging.release held 3) = None).
Proof.
  destruct (count_pages 5) as (psf & Halloc & Hcount & Hheld).
  exists psf. split; [exact Halloc |]. split; [exact Hcount |].
  split.
  - apply (Hheld 1%nat). lia.
  - apply (Hheld 3%nat). lia.
Defined.

(** * More properties of the parser *)

(** ** Rules for the methods of the parser *)

Section Hoare.

Variable Pn : Prop.

Lemma hoare_ret {A} (a : A) (P : parser -> Prop) Q E :
  (forall p, P p -> Q a p) -> hoare Pn P (ret a) Q E.
Proof. intros H p Hp. simpl. auto. Qed.

Lemma hoare_bind {A B} (m : M A) (k : A -> M B) P Q R E :
  hoare Pn P m Q E -> (forall a, hoare Pn (Q a) (k a) R E) ->
  hoare Pn P (bind m k) R E.
Proof.
  intros Hm Hk p Hp. unfold bind. specialize (Hm p Hp).
  destruct (m p) as [[a | e | | ] p']; auto.
  exact (Hk a p' Hm).
Qed.

Lemma hoare_conseq {A} (m : M A) (P P' : parser -> Prop)
    (Q Q' : A -> parser -> Prop) (E E' : ParserError -> parser -> Prop) :
  hoare Pn P m Q E ->
  (forall p, P' p -> P p) ->
  (forall a p, Q a p -> Q' a p) ->
  (forall e p, E e p -> E' e p) ->
  hoare Pn P' m Q' E'.
Proof.
  intros Hm HP HQ HE p Hp. specialize (Hm p (HP p Hp)).
  destruct (m p) as [[a | e | | ] p']; auto.
Qed.

Lemma hoare_catch {A} (m : M A) P (Q : A -> parser -> Prop) E E' :
  hoare Pn P m Q E ->
  hoare Pn P (catch m)
    (fun r p => match r with inl e => E e p | inr a => Q a p end) E'.
Proof.
  intros Hm p Hp. unfold catch. specialize (Hm p Hp).
  destruct (m p) as [[a | e | | ] p']; auto.
Qed.

Lemma hoare_panic {A} (P : parser -> Prop) (Q : A -> parser -> Prop) E :
  (forall p, P p -> Pn) -> hoare Pn P panic Q E.
Proof. intros H p Hp. simpl. exact (H p Hp). Qed.

Lemma hoare_outOfFuel {A} (P : parser -> Prop) (Q : A -> parser -> Prop) E :
  hoare Pn P outOfFuel Q E.
Proof. intros p Hp. exact Logic.I. Qed.

Lemma hoare_getNode (P : parser -> Prop) E :
  hoare Pn P getNode (fun o p => P p /\ o = node p) E.
Proof. intros p Hp. simpl. auto. Qed.

Lemma hoare_getParser (P : parser -> Prop) E :
  hoare Pn P getParser (fun q p => P p /\ q = p) E.
Proof. intros p Hp. simpl. auto. Qed.

Lemma hoare_deref {A} (o : option A) (P : parser -> Prop) E :
  (o = None -> forall p, P p -> Pn) ->
  hoare Pn P (deref o) (fun a p => P p /\ o = Some a) E.
Proof.
  intros H. destruct o as [a |]; simpl.
  - apply hoare_ret. intros p Hp. split; [exact Hp | reflexivity].
  - apply hoare_panic. exact (H eq_refl).
Qed.

Lemma hoare_parserError {A} t d token (P : parser -> Prop)
    (Q : A -> parser -> Prop) (E : ParserError -> parser -> Prop) :
  (forall p, P p -> E (newParserError p t d token) p) ->
  hoare Pn P (parserError t d token) Q E.
Proof. intros H p Hp. simpl. auto. Qed.

Lemma hoare_cases {A} (m : M A) (P1 P2 : parser -> Prop) Q E :
  hoare Pn P1 m Q E -> hoare Pn P2 m Q E ->
  hoare Pn (fun p => P1 p \/ P2 p) m Q E.
Proof.
  intros H1 H2 p [Hp | Hp]; [exact (H1 p Hp) | exact (H2 p Hp)].
Qed.

Lemma hoare_false {A} (m : M A) (P : parser -> Prop) Q E :
  (forall p, ~ P p) -> hoare Pn P m Q E.
Proof. intros H p Hp. destruct (H p Hp). Qed.

(** A fact which does not depend on the state. *)
Lemma hoare_assume {A} (m : M A) (F : Prop) (P : parser -> Prop) Q E :
  (F -> hoare Pn P m Q E) -> hoare Pn (fun p => P p /\ F) m Q E.
Proof. intros H p [Hp HF]. exact (H HF p Hp). Qed.

(** A fact which follows from the state before. *)
Lemma hoare_fact {A} (m : M A) (F : Prop) (P : parser -> Prop) Q E :
  (forall p, P p -> F) -> (F -> hoare Pn P m Q E) -> hoare Pn P m Q E.
Proof. intros HF H p Hp. exact (H (HF p Hp) p Hp). Qed.

Lemma hoare_pre {A} (m : M A) (P P' : parser -> Prop) Q E :
  (forall p, P' p -> P p) -> hoare Pn P m Q E -> hoare Pn P' m Q E.
Proof. intros HP H p Hp. exact (H p (HP p Hp)). Qed.

End Hoare.

(** ** Invariants of the parser, with the state of an error kept

    As in [ParserInvariant], a property [I] of the state, [N] of the nodes
    and [EV] of the errors is proved for every denotation function and for
    [run] from what they need of [nextNode].  Here the state after an
    error which a caller ignores is in [I] as well, and a panic is possible
    only when [Pn] holds. *)

Section ParserSound.

Variable Pn : Prop.
Variable I : parser -> Prop.
Variable N : ASTNode -> Prop.
Variable EV : ParserError -> Prop.

(** The method keeps [I], returns a value in [Q] or an error in [EV]. *)
Local Abbreviation keeps m Q :=
  (hoare Pn I m (fun a p => I p /\ Q a) (fun e _ => EV e)).

(** The method keeps [I] also when it fails. *)
Local Abbreviation safely P m Q :=
  (hoare Pn P m (fun a p => I p /\ Q a) (fun e p => I p /\ EV e)).

Hypothesis node_N : forall p n, I p -> node p = Some n -> N n.
Hypothesis node_live : forall p, I p -> node p = None -> Pn.
Hypothesis token_live : forall n, N n -> Token n = None -> Pn.
Hypothesis nextNode_I : keeps nextNode (fun _ => True).
Hypothesis nextNode_live : safely (beforeEOF I) nextNode (fun _ => True).
Hypothesis error_EV :
  forall p ty d n t,
    I p -> N n -> Token n = Some t -> EV (newParserError p ty d t).
Hypothesis appendChild_N : forall n c, N n -> N c -> N (appendChild n c).
Hypothesis firstChild_N :
  forall n c cs, N n -> Children n = c :: cs -> N c.
Hypothesis setFirstChild_N :
  forall n c c' cs,
    N n -> Children n = c :: cs -> N c' -> N (setChildren n (c' :: cs)).
Hypothesis instance_N :
  forall p id pr n,
    I p -> astNodeMap id = Some pr -> N n -> N (instance p pr (Token n)).

Lemma curToken_spec E :
  hoare Pn I curToken (fun t p => I p /\ curTok p t) E.
Proof.
  intros p Hp. unfold curToken, bind, getNode. simpl.
  destruct (node p) as [n |] eqn:Hn; simpl; [| exact (node_live p Hp Hn)].
  destruct (Token n) as [t |] eqn:Ht; simpl.
  - split; [exact Hp |]. exists n. auto.
  - exact (token_live n (node_N p n Hp Hn) Ht).
Qed.

Lemma curToken_I E : hoare Pn I curToken (fun _ p => I p) E.
Proof.
  eapply hoare_conseq; [apply (curToken_spec E) | auto | | auto].
  intros t p [Hp _]. exact Hp.
Qed.

Lemma skipToken_spec ids :
  canSkip ids TokenEOF = false -> safely I (skipToken ids) (fun _ => True).
Proof.
  intros Hids p Hp. unfold skipToken, curToken, bind at 1 2 3, getNode.
  simpl.
  destruct (node p) as [n |] eqn:Hn; simpl; [| exact (node_live p Hp Hn)].
  destruct (Token n) as [t |] eqn:Ht; simpl;
    [| exact (token_live n (node_N p n Hp Hn) Ht)].
  destruct (canSkip ids (ID t)) eqn:Hcan; simpl.
  - apply nextNode_live. split; [exact Hp |]. exists t. split.
    + exists n. auto.
    + intros Heof. rewrite Heof in Hcan. congruence.
  - destruct (decide (ID t = TokenEOF)); simpl;
      (split; [exact Hp |]);
      exact (error_EV p _ _ n t Hp (node_N p n Hp Hn) Ht).
Qed.

Lemma skipToken_keeps ids :
  canSkip ids TokenEOF = false -> keeps (skipToken ids) (fun _ => True).
Proof.
  intros Hids.
  eapply hoare_conseq; [apply (skipToken_spec ids Hids) | auto | auto |].
  intros e p [_ He]. exact He.
Qed.

(** [skipToken] with its error ignored. *)
Lemma skipToken_caught ids E :
  canSkip ids TokenEOF = false ->
  hoare Pn I (catch (skipToken ids)) (fun _ p => I p) E.
Proof.
  intros Hids.
  intros p Hp. unfold catch.
  pose proof (skipToken_spec ids Hids p Hp) as H.
  destruct (skipToken ids p) as [[a | e | | ] p']; auto; apply H.
Qed.

Lemma acceptChild_spec self id :
  N self -> keeps (acceptChild self id) (fun a => N a /\ Children a <> []).
Proof.
  intros Hs p Hp. unfold acceptChild, bind at 1 2, getNode. simpl.
  pose proof (nextNode_I p Hp) as Hnext.
  destruct (nextNode p) as [[[] | e | | ] p'] eqn:Hstep; simpl; auto.
  destruct Hnext as [Hp' _]. unfold bind at 1.
  destruct (node p) as [current |] eqn:Hn; simpl;
    [| exact (node_live p Hp Hn)].
  pose proof (node_N p current Hp Hn) as Hc. unfold bind at 1.
  destruct (Token current) as [t |] eqn:Ht; simpl;
    [| exact (token_live current Hc Ht)].
  destruct (decide (ID t = id)); simpl.
  - split; [exact Hp' |]. split; [apply appendChild_N; assumption |].
    destruct (Children self); discriminate.
  - exact (error_EV p' _ _ current t Hp' Hc Ht).
Qed.

Lemma acceptChild_keeps self id :
  N self -> keeps (acceptChild self id) N.
Proof.
  intros Hs.
  eapply hoare_conseq; [apply (acceptChild_spec self id Hs) | auto | | auto].
  intros a p (Hp & Ha & _). auto.
Qed.

(** [acceptChild] with its error ignored, at a token which is not the EOF
    token. *)
Lemma acceptChild_caught self id E :
  N self ->
  hoare Pn (beforeEOF I) (catch (acceptChild self id))
    (fun r p => I p /\ match r with inl _ => True | inr a => N a end) E.
Proof.
  intros Hs p Hp. unfold catch, acceptChild, bind at 1 2, getNode. simpl.
  pose proof (nextNode_live p Hp) as Hnext.
  destruct Hp as [Hp (t0 & (n0 & Hn0 & Ht0) & Hne)].
  destruct (nextNode p) as [[[] | e | | ] p'] eqn:Hstep; simpl; auto.
  - destruct Hnext as [Hp' _]. rewrite Hn0. unfold bind at 1. simpl.
    unfold bind at 1. rewrite Ht0. simpl.
    pose proof (node_N p n0 Hp Hn0) as Hc.
    destruct (decide (ID t0 = id)); simpl.
    + split; [exact Hp' |]. apply appendChild_N; assumption.
    + split; [exact Hp' | exact Logic.I].
  - split; [apply Hnext | exact Logic.I].
Qed.

Lemma acceptChild_caught_at self id t E :
  N self -> ID t <> TokenEOF ->
  hoare Pn (fun p => I p /\ curTok p t) (catch (acceptChild self id))
    (fun r p => I p /\ match r with inl _ => True | inr a => N a end) E.
Proof.
  intros Hs Ht p [Hp Hcur]. apply (acceptChild_caught self id E Hs).
  split; [exact Hp |]. exists t. auto.
Qed.

Section WithRun.

Variable run' : Z -> M ASTNode.
Variable fuel : nat.
Hypothesis run_keeps : forall rightBinding, keeps (run' rightBinding) N.

(** The steps of the proofs: a call which keeps [I], then the rest with
    what is known of the value. *)
Ltac step H :=
  eapply hoare_bind; [H |];
  let a := fresh "a" in let F := fresh "F" in
  intros a; apply hoare_assume; intros F.

Ltac token_step :=
  eapply hoare_bind; [apply curToken_I |];
  let t := fresh "t" in intros t.

Ltac done_with a := apply hoare_ret; intros ? ?; split; [assumption | exact a].

Lemma ndInner_keeps self : keeps (ndInner run' self) N.
Proof.
  unfold ndInner.
  step ltac:(apply run_keeps).
  step ltac:(apply skipToken_keeps; reflexivity).
  done_with F.
Qed.

Lemma ndPrefix_keeps self : N self -> keeps (ndPrefix run' self) N.
Proof.
  intros Hs. unfold ndPrefix.
  step ltac:(apply run_keeps).
  done_with (appendChild_N _ _ Hs F).
Qed.

Lemma parseRest_keeps k self : N self -> keeps (parseRest run' k self) N.
Proof.
  revert self. induction k as [| k IH]; intros self Hs; simpl;
    token_step; destruct (decide (ID t <> TokenEOF));
    try (done_with Hs).
  - apply hoare_outOfFuel.
  - step ltac:(apply run_keeps).
    apply IH. auto.
Qed.

Lemma ndGet_keeps self : N self -> keeps (ndGet run' fuel self) N.
Proof.
  intros Hs. unfold ndGet.
  step ltac:(apply acceptChild_keeps; exact Hs).
  apply parseRest_keeps. exact F.
Qed.

Lemma commaValues_keeps k self : N self -> keeps (commaValues k self) N.
Proof.
  revert self. induction k as [| k IH]; intros self Hs; simpl.
  - apply hoare_outOfFuel.
  - eapply hoare_bind; [apply skipToken_caught; reflexivity |].
    intros [e | []].
    + done_with Hs.
    + step ltac:(apply acceptChild_keeps; exact Hs).
      apply IH. exact F.
Qed.

Lemma ndLookup_keeps self : N self -> keeps (ndLookup run' fuel self) N.
Proof.
  intros Hs. unfold ndLookup.
  step ltac:(apply acceptChild_keeps; exact Hs).
  step ltac:(apply acceptChild_keeps; exact F).
  step ltac:(apply commaValues_keeps; exact F0).
  apply parseRest_keeps. exact F1.
Qed.

Lemma ndFrom_keeps self : N self -> keeps (ndFrom self) N.
Proof.
  intros Hs. unfold ndFrom.
  step ltac:(apply acceptChild_spec; exact Hs).
  destruct F as [Ha Hne].
  destruct (Children a) as [| group others] eqn:Hcs; [congruence |].
  step ltac:(apply acceptChild_keeps; exact (firstChild_N _ _ _ Ha Hcs)).
  done_with (setFirstChild_N _ _ _ _ Ha Hcs F).
Qed.

Lemma traverseRest_keeps k self :
  N self -> keeps (traverseRest run' k self) N.
Proof.
  revert self. induction k as [| k IH]; intros self Hs; simpl;
    token_step; destruct (decide (ID t <> TokenEOF /\ ID t <> TokenEND));
    try (done_with Hs).
  - apply hoare_outOfFuel.
  - step ltac:(apply run_keeps).
    apply IH. auto.
Qed.

Lemma skipped_keeps (id : LexTokenID) :
  canSkip [id] TokenEOF = false ->
  hoare Pn I (do _ <- catch (skipToken [id]); ret tt)
    (fun _ p => I p /\ True) (fun e _ => EV e).
Proof.
  intros Hid.
  eapply hoare_bind; [apply skipToken_caught; exact Hid |].
  intros r. apply hoare_ret. auto.
Qed.

Lemma ndTraverse_keeps self : N self -> keeps (ndTraverse run' fuel self) N.
Proof.
  intros Hs. unfold ndTraverse.
  step ltac:(apply acceptChild_keeps; exact Hs).
  step ltac:(apply traverseRest_keeps; exact F).
  token_step.
  eapply hoare_bind with (Q := fun _ p => I p /\ True).
  - destruct (decide (ID t = TokenEND)).
    + apply skipped_keeps. reflexivity.
    + apply hoare_ret. auto.
  - intros u. apply hoare_assume. intros _. done_with F0.
Qed.

Lemma ndFunc_keeps self : N self -> keeps (ndFunc fuel self) N.
Proof.
  intros Hs. unfold ndFunc.
  step ltac:(apply acceptChild_keeps; exact Hs).
  step ltac:(apply skipToken_keeps; reflexivity).
  eapply hoare_bind; [apply curToken_spec |]. intros t.
  eapply hoare_bind with (Q := fun s p => I p /\ N s).
  - destruct (decide (ID t = TokenVALUE)) as [Hval | Hother].
    + eapply hoare_bind;
        [apply (acceptChild_caught_at a TokenVALUE t _ F); congruence |].
      intros accepted. apply hoare_assume. intros Hacc.
      apply commaValues_keeps. destruct accepted; assumption.
    + apply hoare_ret. intros p [Hp _]. auto.
  - intros s. apply hoare_assume. intros Hs'.
    step ltac:(apply skipToken_keeps; reflexivity).
    done_with Hs'.
Qed.

Lemma acceptSuffix_keeps st id :
  id <> TokenEOF -> N st -> keeps (acceptSuffix st id) N.
Proof.
  intros Hid Hst. unfold acceptSuffix.
  eapply hoare_bind; [apply curToken_spec |]. intros t.
  destruct (decide (ID t = id)) as [Hsame | Hother];
    [| apply hoare_ret; intros p [Hp _]; auto].
  eapply hoare_bind; [apply hoare_getNode |]. intros o.
  eapply hoare_bind.
  { apply hoare_deref. intros -> p [[Hp (n & Hn & _)] Ho]. congruence. }
  intros current.
  apply (hoare_fact _ _ (N current)).
  { intros p [[[Hp _] Ho] Hcur]. apply (node_N p current Hp). congruence. }
  intros Hc.
  eapply hoare_bind.
  - eapply hoare_pre;
      [| apply (acceptChild_caught_at st id t _ Hst); congruence].
    intros p [[H _] _]. exact H.
  - intros accepted. apply hoare_assume. intros Hacc.
    step ltac:(apply acceptChild_keeps; exact Hc).
    apply hoare_ret. intros p Hp. split; [exact Hp |].
    destruct accepted; [exact Hst | apply appendChild_N; assumption].
Qed.

Lemma acceptShowTerm_keeps self :
  N self -> keeps (acceptShowTerm run' self) N.
Proof.
  intros Hs. unfold acceptShowTerm.
  eapply hoare_bind; [apply hoare_getParser |]. intros q.
  eapply hoare_bind.
  { apply hoare_deref. discriminate. }
  intros showterm.
  eapply hoare_bind; [apply hoare_getNode |]. intros o.
  eapply hoare_bind.
  { apply hoare_deref. intros -> p [[[Hp _] _] Ho].
    exact (node_live p Hp (eq_sym Ho)). }
  intros current.
  apply (hoare_fact _ _ (N (instance q showterm (Token current)))).
  { intros p [[[[Hp Hq] Hshow] Ho] Hcur]. subst q.
    apply (instance_N p TokenSHOWTERM); [exact Hp | exact Hshow |].
    apply (node_N p current Hp). congruence. }
  intros Hst0.
  eapply hoare_pre with (P := I).
  { intros p [[[[Hp _] _] _] _]. exact Hp. }
  token_step.
  eapply hoare_bind with (Q := fun st p => I p /\ N st).
  - destruct (decide (ID t = TokenAT)).
    + step ltac:(apply run_keeps).
      done_with (appendChild_N _ _ Hst0 F).
    + eapply hoare_bind; [apply skipToken_caught; reflexivity |].
      intros r. apply hoare_ret. auto.
  - intros st. apply hoare_assume. intros Hst.
    step ltac:(apply acceptSuffix_keeps; [discriminate | exact Hst]).
    step ltac:(apply acceptSuffix_keeps; [discriminate | exact F]).
    done_with (appendChild_N _ _ Hs F0).
Qed.

Lemma showTerms_keeps k self : N self -> keeps (showTerms run' k self) N.
Proof.
  revert self. induction k as [| k IH]; intros self Hs; simpl.
  - apply hoare_outOfFuel.
  - eapply hoare_bind; [apply skipToken_caught; reflexivity |].
    intros [e | []].
    + done_with Hs.
    + step ltac:(apply acceptShowTerm_keeps; exact Hs).
      apply IH. exact F.
Qed.

Lemma ndShow_keeps self : N self -> keeps (ndShow run' fuel self) N.
Proof.
  intros Hs. unfold ndShow.
  token_step.
  destruct (decide (ID t = TokenVALUE \/ ID t = TokenAT)).
  - step ltac:(apply acceptShowTerm_keeps; exact Hs).
    apply showTerms_keeps. exact F.
  - done_with Hs.
Qed.

Lemma skipComma_keeps : keeps skipComma (fun _ => True).
Proof.
  unfold skipComma. token_step.
  destruct (decide (ID t = TokenCOMMA)).
  - apply skipped_keeps. reflexivity.
  - apply hoare_ret. auto.
Qed.

Lemma parseList_keeps stop k self :
  N self -> keeps (parseList run' stop k self) N.
Proof.
  revert self. induction k as [| k IH]; intros self Hs; simpl;
    token_step; destruct (decide (ID t <> stop));
    try (done_with Hs).
  - apply hoare_outOfFuel.
  - step ltac:(apply run_keeps).
    step ltac:(apply skipComma_keeps).
    apply IH. auto.
Qed.

Lemma ndWithFunc_keeps self : N self -> keeps (ndWithFunc run' fuel self) N.
Proof.
  intros Hs. unfold ndWithFunc.
  step ltac:(apply skipToken_keeps; reflexivity).
  step ltac:(apply parseList_keeps; exact Hs).
  step ltac:(apply skipToken_keeps; reflexivity).
  done_with F0.
Qed.

Lemma ndList_keeps self : N self -> keeps (ndList run' fuel self) N.
Proof.
  intros Hs. unfold ndList.
  eapply hoare_bind; [apply hoare_getParser |]. intros q.
  eapply hoare_bind.
  { apply hoare_deref. discriminate. }
  intros list.
  apply (hoare_fact _ _ (N (instance q list (Token self)))).
  { intros p [[Hp Hq] Hlist]. subst q.
    exact (instance_N p TokenLIST _ _ Hp Hlist Hs). }
  intros Hst0.
  eapply hoare_pre with (P := I).
  { intros p [[Hp _] _]. exact Hp. }
  step ltac:(apply parseList_keeps; exact Hst0).
  step ltac:(apply skipToken_keeps; reflexivity).
  done_with F.
Qed.

Lemma ldInfix_keeps self left :
  N self -> N left -> keeps (ldInfix run' self left) N.
Proof.
  intros Hs Hl. unfold ldInfix.
  step ltac:(apply run_keeps).
  done_with (appendChild_N _ _ (appendChild_N _ _ Hs Hl) F).
Qed.

Lemma callNullDenotation_keeps nd self :
  N self -> keeps (callNullDenotation run' fuel nd self) N.
Proof.
  intros Hs. destruct nd; simpl.
  - done_with Hs.
  - apply ndInner_keeps.
  - apply ndPrefix_keeps, Hs.
  - apply ndGet_keeps, Hs.
  - apply ndLookup_keeps, Hs.
  - apply ndFrom_keeps, Hs.
  - apply ndTraverse_keeps, Hs.
  - apply ndFunc_keeps, Hs.
  - apply ndShow_keeps, Hs.
  - apply parseList_keeps, Hs.
  - apply ndWithFunc_keeps, Hs.
  - apply ndList_keeps, Hs.
Qed.

Lemma currentNode_spec E :
  hoare Pn I (do cur <- getNode; deref cur) (fun n p => I p /\ N n) E.
Proof.
  intros p Hp. unfold bind, getNode. simpl.
  destruct (node p) as [n |] eqn:Hn; simpl.
  - split; [exact Hp | exact (node_N p n Hp Hn)].
  - exact (node_live p Hp Hn).
Qed.

Lemma runLoop_keeps k rightBinding left :
  N left -> keeps (runLoop run' k rightBinding left) N.
Proof.
  revert left. induction k as [| k IH]; intros left Hl; simpl.
  - eapply hoare_bind; [apply hoare_getNode |]. intros o.
    eapply hoare_bind.
    { apply hoare_deref. intros -> p [Hp Ho].
      exact (node_live p Hp (eq_sym Ho)). }
    intros cur. eapply hoare_pre with (P := I).
    { intros p [[Hp _] _]. exact Hp. }
    destruct (decide (rightBinding < binding cur));
      [apply hoare_outOfFuel | done_with Hl].
  - eapply hoare_bind; [apply hoare_getNode |]. intros o.
    eapply hoare_bind.
    { apply hoare_deref. intros -> p [Hp Ho].
      exact (node_live p Hp (eq_sym Ho)). }
    intros cur.
    apply (hoare_fact _ _ (N cur)).
    { intros p [[Hp Ho] Hcur]. apply (node_N p cur Hp). congruence. }
    intros Hc.
    eapply hoare_pre with (P := I).
    { intros p [[Hp _] _]. exact Hp. }
    destruct (decide (rightBinding < binding cur)); [| done_with Hl].
    step ltac:(apply nextNode_I).
    destruct (leftDenotation cur) as [[] |].
    + step ltac:(apply ldInfix_keeps; assumption).
      apply IH. exact F0.
    + eapply hoare_bind.
      { apply hoare_deref. intros Ht p Hp. exact (token_live cur Hc Ht). }
      intros t. apply hoare_parserError.
      intros p [Hp Ht]. exact (error_EV p _ _ cur t Hp Hc Ht).
Qed.

End WithRun.

(** [run] keeps [I], returns a node in [N] or an error in [EV], and panics
    only when [Pn] holds. *)
Lemma run_keeps fuel rightBinding : keeps (run fuel rightBinding) N.
Proof.
  revert rightBinding. induction fuel as [| fuel IH]; intros rightBinding;
    simpl.
  - apply hoare_outOfFuel.
  - eapply hoare_bind; [apply hoare_getNode |]. intros o.
    apply (hoare_fact _ _ (forall n, o = Some n -> N n)).
    { intros p [Hp Ho] n Hn. apply (node_N p n Hp). congruence. }
    intros Ho.
    apply (hoare_fact _ _ (o = None -> Pn)).
    { intros p [Hp Hnode] Hnone. apply (node_live p Hp). congruence. }
    intros Hlive.
    eapply hoare_pre with (P := I).
    { intros p [Hp _]. exact Hp. }
    eapply hoare_bind; [apply nextNode_I |]. intros u.
    eapply hoare_bind.
    { apply hoare_deref. intros Hnone p Hp. exact (Hlive Hnone). }
    intros n. apply hoare_assume. intros Hn.
    eapply hoare_pre with (P := I).
    { intros p [Hp _]. exact Hp. }
    pose proof (Ho n Hn) as HN.
    destruct (nullDenotation n) as [nd |].
    + eapply hoare_bind; [apply callNullDenotation_keeps; assumption |].
      intros left. apply hoare_assume. intros Hl.
      apply runLoop_keeps; assumption.
    + eapply hoare_bind.
      { apply hoare_deref. intros Ht p Hp. exact (token_live n HN Ht). }
      intros t. apply hoare_parserError.
      intros p [Hp Ht]. exact (error_EV p _ _ n t Hp HN Ht).
Qed.

End ParserSound.

(** ** A parse of a well-formed stream does not panic *)

Lemma known_not_error t : known t -> ID t <> TokenError.
Proof. intros [pr Hpr] Herr. rewrite Herr in Hpr. discriminate Hpr. Qed.

Lemma endsWithEOF_tail t ts : endsWithEOF (t :: ts) -> endsWithEOF ts.
Proof.
  intros H t' Hlast. apply H. destruct ts as [| t0 ts]; [discriminate |].
  exact Hlast.
Qed.

Lemma tokened_firstChild n c cs :
  tokened n -> Children n = c :: cs -> tokened c.
Proof.
  intros Hn Hcs. destruct Hn as [m _ Hall].
  rewrite Hcs in Hall. inversion Hall; assumption.
Qed.

Lemma tokened_setFirstChild n c c' cs :
  tokened n -> Children n = c :: cs -> tokened c' ->
  tokened (setChildren n (c' :: cs)).
Proof.
  intros Hn Hcs Hc'. destruct Hn as [m Ht Hall].
  rewrite Hcs in Hall. inversion Hall; subst.
  constructor; simpl; [exact Ht | constructor; assumption].
Qed.

Lemma tokened_token n : tokened n -> is_Some (Token n).
Proof. intros [n' Ht _]. exact Ht. Qed.

(** In a live state with a token to take, [nextNode] takes it, and the
    state is live. *)
Lemma nextNode_alive p :
  alive p -> tokens p <> [] ->
  exists p', nextNode p = (OK tt, p') /\ alive p'.
Proof.
  intros (_ & Hknown & Hend) Hne. unfold nextNode, next.
  destruct (tokens p) as [| token rest] eqn:Hts; [congruence |].
  apply Forall_cons in Hknown as [Hk Hrest].
  destruct (decide (ID token = TokenError)) as [Herr | _];
    [destruct (known_not_error token Hk Herr) |].
  destruct Hk as [pr Hpr]. rewrite Hpr. eexists. split; [reflexivity |].
  split; [| split]; simpl.
  - exists (instance p pr (Some token)), token.
    split; [reflexivity |]. split; [apply tokened_instance |]. split.
    + apply instance_fields.
    + intros ->. apply Hend. reflexivity.
  - exact Hrest.
  - exact (endsWithEOF_tail _ _ Hend).
Qed.

Lemma run_alive fuel rightBinding :
  hoare False alive (run fuel rightBinding)
    (fun a p => alive p /\ tokened a) (fun _ _ => True).
Proof.
  apply run_keeps.
  - intros p n ((n' & t & Hn' & Htok & _) & _) Hn. congruence.
  - intros p ((n' & t & Hn' & _) & _) Hn. congruence.
  - intros n Hn Ht. destruct (tokened_token n Hn) as [t Ht']. congruence.
  - intros p Hp. destruct (tokens p) as [| token rest] eqn:Hts.
    + unfold nextNode, next. rewrite Hts. exact Logic.I.
    + destruct (nextNode_alive p Hp) as (p' & -> & Hp'); [congruence |].
      split; [exact Hp' | exact Logic.I].
  - intros p [Hp (t & (n & Hn & Ht) & Hne)].
    destruct (nextNode_alive p Hp) as (p' & -> & Hp').
    + intros Hts. apply Hne.
      destruct Hp as ((n' & t' & Hn' & _ & Ht' & Hend) & _).
      assert (n' = n) by congruence. subst n'.
      assert (t' = t) by congruence. subst t'. exact (Hend Hts).
    + split; [exact Hp' | exact Logic.I].
  - intros; exact Logic.I.
  - apply tokened_appendChild.
  - apply tokened_firstChild.
  - apply tokened_setFirstChild.
  - intros p id pr n _ _ Hn. destruct (tokened_token n Hn) as [t ->].
    apply tokened_instance.
Qed.

(** ** The nodes and the errors of a parse come from its input *)

Lemma parsedNode_instance ts provider p id pr t :
  rp p = provider -> astNodeMap id = Some pr -> t ∈ ts ->
  allNodes (parsedNode ts provider) (instance p pr (Some t)).
Proof.
  intros Hrp Hpr Ht. constructor.
  - split; [| split].
    + exists t. split; [apply instance_fields | exact Ht].
    + exists id, pr. split; [exact Hpr |].
      destruct (instance_fields p pr (Some t)) as (? & ? & ? & ? & ? & ?).
      auto.
    + subst provider. unfold instance, bare. destruct (rp p); reflexivity.
  - destruct (instance_fields p pr (Some t)) as (_ & _ & -> & _).
    constructor.
Qed.

Lemma parsedNode_appendChild ts provider n c :
  allNodes (parsedNode ts provider) n ->
  allNodes (parsedNode ts provider) c ->
  allNodes (parsedNode ts provider) (appendChild n c).
Proof.
  intros Hn Hc. destruct Hn as [m Hp Hcs]. constructor.
  - exact Hp.
  - simpl. apply Forall_app. split; [exact Hcs |].
    constructor; [exact Hc | constructor].
Qed.

Lemma parsedNode_firstChild ts provider n c cs :
  allNodes (parsedNode ts provider) n -> Children n = c :: cs ->
  allNodes (parsedNode ts provider) c.
Proof.
  intros Hn Hcs. destruct Hn as [m _ Hall].
  rewrite Hcs in Hall. inversion Hall; assumption.
Qed.

Lemma parsedNode_setFirstChild ts provider n c c' cs :
  allNodes (parsedNode ts provider) n -> Children n = c :: cs ->
  allNodes (parsedNode ts provider) c' ->
  allNodes (parsedNode ts provider) (setChildren n (c' :: cs)).
Proof.
  intros Hn Hcs Hc'. destruct Hn as [m Hp Hall].
  rewrite Hcs in Hall. inversion Hall; subst.
  constructor; [exact Hp | simpl; constructor; assumption].
Qed.

Lemma parsedNode_token ts provider n :
  allNodes (parsedNode ts provider) n ->
  exists t, Token n = Some t /\ t ∈ ts.
Proof. intros [n' (Ht & _) _]. exact Ht. Qed.

(** [nextNode] in a parse of the stream [ts]: the node is an instance of
    the entry of a token of the stream, an error is an error at a token of
    the stream or at the closed channel. *)
Lemma nextNode_parsing nm ts provider :
  hoare True (parsing nm ts provider) nextNode
    (fun _ p => parsing nm ts provider p /\ True)
    (fun e p => parsing nm ts provider p /\ parseError nm ts e).
Proof.
  intros p (Hname & Hrp & Hsub & Hnode). unfold nextNode, next.
  destruct (tokens p) as [| token rest] eqn:Hts.
  - split.
    + split; [exact Hname |]. split; [exact Hrp |]. simpl. split.
      * rewrite Hts. exact Hsub.
      * intros n Hn. discriminate Hn.
    + split; [exact Hname | right; reflexivity].
  - assert (Hin : token ∈ ts) by (apply Hsub; left).
    assert (Hrest : forall t, t ∈ rest -> t ∈ ts)
      by (intros t Ht; apply Hsub; right; exact Ht).
    assert (Hstate : forall o,
              (forall n, o = Some n -> allNodes (parsedNode ts provider) n) ->
              parsing nm ts provider (setNode (setTokens p rest) o)).
    { intros o Ho. split; [exact Hname |]. split; [exact Hrp |].
      split; [exact Hrest | exact Ho]. }
    destruct (decide (ID token = TokenError)) as [Herr | Hok].
    + split.
      * apply Hstate. intros n Hn. discriminate Hn.
      * split; [exact Hname | left; exact Hin].
    + destruct (astNodeMap (ID token)) as [pr |] eqn:Hpr.
      * split; [| exact Logic.I].
        apply Hstate. intros n Hn. injection Hn as <-.
        exact (parsedNode_instance ts provider p _ pr token Hrp Hpr Hin).
      * split.
        -- apply Hstate. intros n Hn. discriminate Hn.
        -- split; [exact Hname | left; exact Hin].
Qed.

Lemma run_parsing nm ts provider fuel rightBinding :
  hoare True (parsing nm ts provider) (run fuel rightBinding)
    (fun a p =>
       parsing nm ts provider p /\ allNodes (parsedNode ts provider) a)
    (fun e _ => parseError nm ts e).
Proof.
  apply run_keeps.
  - intros p n (_ & _ & _ & Hnode) Hn. exact (Hnode n Hn).
  - intros; exact Logic.I.
  - intros; exact Logic.I.
  - intros p Hp. pose proof (nextNode_parsing nm ts provider p Hp) as H.
    destruct (nextNode p) as [[a | e | | ] p']; auto. apply H.
  - intros p [Hp _]. exact (nextNode_parsing nm ts provider p Hp).
  - intros p ty d n t (Hname & _) Hn Ht.
    destruct (parsedNode_token ts provider n Hn) as (t' & Ht' & Hin).
    split; [exact Hname |]. left. simpl. congruence.
  - apply parsedNode_appendChild.
  - apply parsedNode_firstChild.
  - apply parsedNode_setFirstChild.
  - intros p id pr n (_ & Hrp & _) Hpr Hn.
    destruct (parsedNode_token ts provider n Hn) as (t & -> & Hin).
    exact (parsedNode_instance ts provider p id pr t Hrp Hpr Hin).
Qed.

(** * Properties of the parser on every stream of tokens *)

(** X1: on a stream of tokens which all have an entry in the table and of
    which the last is the EOF token, [ParseWithRuntime] returns a tree or a
    parser error: no nil pointer is followed, whatever the tokens are, and
    every node of the tree has a token. *)
Theorem parse_well_formed p :
  wellFormed (tokens p) ->
  (exists root, parse p = OK root /\ tokened root)
  \/ (exists e, parse p = Err e).
Proof.
  intros [Hknown Hlast]. unfold parse, next.
  destruct (tokens p) as [| token rest] eqn:Hts; [discriminate Hlast |].
  apply Forall_cons in Hknown as [Hk Hrest].
  destruct (decide (ID token = TokenError)) as [Herr | _];
    [destruct (known_not_error token Hk Herr) |].
  destruct Hk as [pr Hpr]. rewrite Hpr.
  set (first := instance p pr (Some token)).
  set (s := setNode (setTokens p rest) (Some first)).
  assert (Hend : endsWithEOF (token :: rest)).
  { intros t Ht. rewrite Ht in Hlast. simpl in Hlast. congruence. }
  assert (Hs : alive s).
  { split; [| split]; simpl.
    - exists first, token. split; [reflexivity |].
      split; [apply tokened_instance |]. split.
      + apply instance_fields.
      + intros ->. apply Hend. reflexivity.
    - exact Hrest.
    - exact (endsWithEOF_tail _ _ Hend). }
  pose proof (run_alive (S (length (tokens (setTokens p rest)))) 0 s Hs)
    as Hrun.
  pose proof (run_within (S (length (tokens (setTokens p rest)))) 0
                (length (tokens (setTokens p rest))) ltac:(lia) s eq_refl)
    as Hfuel.
  destruct (run _ _ s) as [[root | e | | ] p']; simpl.
  - left. exists root. split; [reflexivity | apply Hrun].
  - right. exists e. reflexivity.
  - destruct Hrun.
  - destruct Hfuel.
Qed.

Lemma parse_well_formed_witness :
  wellFormed getSongStream
  /\ ((exists root,
         parse (mkParser "demo" None getSongStream None) = OK root
         /\ tokened root)
      \/ (exists e, parse (mkParser "demo" None getSongStream None) = Err e)).
Proof.
  assert (H : wellFormed getSongStream).
  { split; [| reflexivity].
    repeat (constructor; [eexists; reflexivity |]). constructor. }
  split; [exact H |].
  exact (parse_well_formed (mkParser "demo" None getSongStream None) H).
Defined.

(** X2: every node of a tree which [ParseWithRuntime] returns has a token
    of the stream of tokens; its name, binding power and denotation
    functions are those of an entry of [astNodeMap]; and its runtime
    component is what the runtime provider returned for the node as
    [instance] made it, without children, or nil without a provider. *)
Theorem parse_nodes_from_input p root :
  parse p = OK root -> allNodes (parsedNode (tokens p) (rp p)) root.
Proof.
  unfold parse. destruct (next p) as [[first | e | | ] p'] eqn:Hnext;
    try discriminate.
  intros Hrun. unfold next in Hnext.
  destruct (tokens p) as [| token rest] eqn:Hts; [discriminate |].
  destruct (decide (ID token = TokenError)) as [Herr | Hok]; [discriminate |].
  destruct (astNodeMap (ID token)) as [pr |] eqn:Hpr; [| discriminate].
  injection Hnext as <- <-.
  assert (Hs : parsing (name p) (token :: rest) (rp p)
                 (setNode (setTokens p rest)
                    (Some (instance p pr (Some token))))).
  { split; [reflexivity |]. split; [reflexivity |]. simpl. split.
    - intros t Ht. right. exact Ht.
    - intros n Hn. injection Hn as <-.
      apply (parsedNode_instance _ _ p _ pr token eq_refl Hpr). left. }
  pose proof (run_parsing _ _ _ (S (length (tokens (setTokens p rest)))) 0
                _ Hs) as H.
  destruct (run _ _ _) as [[a | e | | ] p'']; simpl in Hrun;
    try discriminate.
  injection Hrun as <-. apply H.
Qed.

Lemma parse_nodes_from_input_witness :
  exists root,
    parse (mkParser "demo" None getSongStream None) = OK root
    /\ allNodes (parsedNode getSongStream None) root.
Proof.
  eexists.
  assert (H : parse (mkParser "demo" None getSongStream None) = OK _)
    by (vm_compute; reflexivity).
  split; [exact H |].
  exact (parse_nodes_from_input _ _ H).
Defined.

(** X3: a parser error which [ParseWithRuntime] returns has the name of the
    input as its source, and its token is a token of the stream of tokens,
    or the empty token when the channel of tokens was closed. *)
Theorem parse_error_from_input p e :
  parse p = Err e ->
  Source e = name p /\ (ErrToken e ∈ tokens p \/ ErrToken e = zeroToken).
Proof.
  unfold parse, next.
  destruct (tokens p) as [| token rest] eqn:Hts.
  { intros H. injection H as <-. split; [reflexivity | right; reflexivity]. }
  destruct (decide (ID token = TokenError)) as [Herr | Hok].
  { intros H. injection H as <-. split; [reflexivity | left; left]. }
  destruct (astNodeMap (ID token)) as [pr |] eqn:Hpr.
  2:{ intros H. injection H as <-. split; [reflexivity | left; left]. }
  intros Hrun.
  assert (Hs : parsing (name p) (token :: rest) (rp p)
                 (setNode (setTokens p rest)
                    (Some (instance p pr (Some token))))).
  { split; [reflexivity |]. split; [reflexivity |]. simpl. split.
    - intros t Ht. right. exact Ht.
    - intros n Hn. injection Hn as <-.
      apply (parsedNode_instance _ _ p _ pr token eq_refl Hpr). left. }
  pose proof (run_parsing _ _ _ (S (length (tokens (setTokens p rest)))) 0
                _ Hs) as H.
  destruct (run _ _ _) as [[a | e' | | ] p'']; simpl in Hrun;
    try discriminate.
  injection Hrun as <-. exact H.
Qed.

Lemma parse_error_from_input_witness :
  exists e,
    parse (mkParser "demo" None getSongWhereStream None) = Err e
    /\ Source e = "demo"
    /\ (ErrToken e ∈ getSongWhereStream \/ ErrToken e = zeroToken).
Proof.
  eexists.
  assert (H : parse (mkParser "demo" None getSongWhereStream None) = Err _)
    by (vm_compute; reflexivity).
  split; [exact H |].
  exact (parse_error_from_input _ _ H).
Defined.

(** * The parser on streams of a given shape *)

(** ** Steps of the parser *)

Lemma nextNode_failing p :
  failing (tokens p) ->
  exists e p', nextNode p = (Err e, p') /\ node p' = None.
Proof.
  unfold failing, nextNode, next. destruct (tokens p) as [| t r]; simpl.
  - intros _. eexists _, _. split; reflexivity.
  - intros Hnone. rewrite Hnone.
    destruct (decide (ID t = TokenError)); eexists _, _; split; reflexivity.
Qed.

Ltac fail_next Hrest :=
  match goal with
  | |- context [nextNode ?p] =>
      let e := fresh "e" in
      let p' := fresh "p'" in
      let Hnext := fresh "Hnext" in
      let Hnode := fresh "Hnode" in
      destruct (nextNode_failing p Hrest) as (e & p' & Hnext & Hnode);
      rewrite Hnext; simpl; rewrite ?Hnode
  end.

Lemma ndShow_panics run' fuel self nm cur v rest provider :
  Token cur = Some v -> ID v = TokenVALUE -> failing rest ->
  fst (ndShow run' fuel self (mkParser nm (Some cur) rest provider)) = Panic.
Proof.
  intros Hcur Hv Hrest.
  destruct cur as [cn ct cc cr cb cnd cld]. simpl in Hcur. subst ct.
  destruct v as [vid vpos vval vl vc]. simpl in Hv. subst vid.
  unfold ndShow, acceptShowTerm, acceptSuffix, curToken, skipToken, curToken.
  unfold bind, getNode, getParser, catch. simpl.
  fail_next Hrest. reflexivity.
Qed.

(** X4: a show token, a value token and then the closed channel or a token
    without an entry in the table, as the error token of the lexer:
    [ParseWithRuntime] panics.  [ndShow] ignores the error of the
    [skipToken] which takes the failing token, [p.node] is nil after it,
    and [p.node.Token.ID] is read next. *)
Theorem show_value_failure_panics nm provider s v rest :
  ID s = TokenSHOW -> ID v = TokenVALUE -> failing rest ->
  parse (mkParser nm None (s :: v :: rest) provider) = Panic.
Proof.
  intros Hs Hv Hrest.
  unfold parse. rewrite (next_cons _ _ _ _ _ (proto NodeSHOW 0 (Some NdShow) None)) by (rewrite Hs; reflexivity).
  unfold setNode. cbn [tokens length name node rp].
  set (ns := instance _ _ (Some s)).
  rewrite (run_step _ _ _ _ _ _ _ (proto NodeVALUE 0 (Some NdTerm) None) NdShow).
  2:{ rewrite Hv; reflexivity. }
  2:{ subst ns. apply instance_fields. }
  set (nv := instance _ _ (Some v)).
  unfold bind. cbn [callNullDenotation].
  pose proof (ndShow_panics (run (S (length rest))) (S (length rest)) ns nm
                nv v rest provider
                (proj1 (proj2 (instance_fields _ _ _))) Hv Hrest) as H.
  destruct (ndShow _ _ _ _) as [[| | |] p']; simpl in H; try discriminate H.
  reflexivity.
Qed.

Lemma show_value_failure_panics_witness :
  parse (mkParser "demo" None showErrorStream None) = Panic.
Proof.
  apply (show_value_failure_panics "demo" None (tok TokenSHOW "show")
           (tok TokenVALUE "name") [lexErrorToken]); reflexivity.
Defined.

Lemma ndLookup_panics run' fuel self nm cur k v c rest provider :
  Token cur = Some k -> ID k = TokenNODEKIND -> ID v = TokenVALUE ->
  ID c = TokenCOMMA -> failing rest ->
  fst (ndLookup run' (S fuel) self
         (mkParser nm (Some cur) (v :: c :: rest) provider)) = Panic.
Proof.
  intros Hcur Hk Hv Hc Hrest.
  destruct cur as [cn ct cc cr cb cnd cld]. simpl in Hcur. subst ct.
  destruct k as [kid kpos kval kl kc]. simpl in Hk. subst kid.
  destruct v as [vid vpos vval vl vc]. simpl in Hv. subst vid.
  destruct c as [cid cpos cval cl ccol]. simpl in Hc. subst cid.
  unfold ndLookup, acceptChild, skipToken, curToken.
  destruct provider as [f |];
    repeat (progress (unfold bind, getNode, catch, skipToken, curToken;
                      simpl));
    fail_next Hrest; destruct fuel; reflexivity.
Qed.

(** X5: a lookup token, a node kind, a value, a comma and then the closed
    channel or a token without an entry in the table: [ParseWithRuntime]
    panics.  The loop of [ndLookup] over the commas ends at the error of
    [skipToken], [p.node] is nil after it, and the loop over the rest reads
    [p.node.Token.ID]. *)
Theorem lookup_comma_failure_panics nm provider l k v c rest :
  ID l = TokenLOOKUP -> ID k = TokenNODEKIND -> ID v = TokenVALUE ->
  ID c = TokenCOMMA -> failing rest ->
  parse (mkParser nm None (l :: k :: v :: c :: rest) provider) = Panic.
Proof.
  intros Hl Hk Hv Hc Hrest.
  unfold parse.
  rewrite (next_cons _ _ _ _ _ (proto NodeLOOKUP 0 (Some NdLookup) None))
    by (rewrite Hl; reflexivity).
  unfold setNode. cbn [tokens length name node rp].
  set (nl := instance _ _ (Some l)).
  rewrite (run_step _ _ _ _ _ _ _ (proto NodeVALUE 0 (Some NdTerm) None)
             NdLookup).
  2:{ rewrite Hk; reflexivity. }
  2:{ subst nl. apply instance_fields. }
  set (nk := instance _ _ (Some k)).
  unfold bind. cbn [callNullDenotation].
  pose proof (ndLookup_panics (run (S (S (S (length rest)))))
                (S (S (length rest))) nl nm
                nk k v c rest provider
                (proj1 (proj2 (instance_fields _ _ _))) Hk Hv Hc Hrest) as H.
  destruct (ndLookup _ _ _ _) as [[| | |] p']; simpl in H; try discriminate H.
  reflexivity.
Qed.

Lemma lookup_comma_failure_panics_witness :
  parse (mkParser "demo" None lookupErrorStream None) = Panic.
Proof.
  apply (lookup_comma_failure_panics "demo" None (tok TokenLOOKUP "lookup")
           (tok TokenNODEKIND "Song") (tok TokenVALUE "a")
           (tok TokenCOMMA ",") [lexErrorToken]); reflexivity.
Defined.

Lemma curToken_at p cur t :
  node p = Some cur -> Token cur = Some t -> curToken p = (OK t, p).
Proof.
  intros Hn Ht. unfold curToken, bind, getNode. simpl. rewrite Hn. simpl.
  rewrite Ht. reflexivity.
Qed.

Lemma parseList_comma_panics fuel k stop self nm cur a c rest provider :
  Token cur = Some a -> ID a = TokenVALUE -> stop <> TokenVALUE ->
  nullDenotation cur = Some NdTerm ->
  ID c = TokenCOMMA -> failing rest ->
  fst (parseList (run (S fuel)) stop (S k) self
         (mkParser nm (Some cur) (c :: rest) provider)) = Panic.
Proof.
  intros Hcur Ha Hstop Hnd Hc Hrest.
  cbn [parseList]. unfold bind at 1.
  rewrite (curToken_at (mkParser nm (Some cur) (c :: rest) provider) cur a
             eq_refl Hcur).
  rewrite Ha. destruct (decide (TokenVALUE <> stop)) as [_ | Hn];
    [| destruct Hn; congruence].
  unfold bind at 1.
  rewrite (run_operand fuel 0 nm cur c rest provider
             (proto NodeCOMMA 0 None None) Hnd);
    [| rewrite Hc; reflexivity | simpl; lia].
  destruct c as [cid cpos cval cl ccol]. simpl in Hc. subst cid.
  destruct provider as [f |];
    repeat (progress (unfold skipComma, bind, getNode, catch, skipToken,
                        curToken; simpl));
    fail_next Hrest;
    destruct k; simpl; unfold bind, curToken, bind, getNode; simpl;
    rewrite Hnode; reflexivity.
Qed.

(** X6: a with token, a value, a comma and then the closed channel or a
    token without an entry in the table: [ParseWithRuntime] panics.
    [ndWith] ignores the error of the [skipToken] which skips the comma,
    and its loop reads [p.node.Token.ID] of the nil node. *)
Theorem with_comma_failure_panics nm provider w a c rest :
  ID w = TokenWITH -> ID a = TokenVALUE -> ID c = TokenCOMMA ->
  failing rest ->
  parse (mkParser nm None (w :: a :: c :: rest) provider) = Panic.
Proof.
  intros Hw Ha Hc Hrest.
  unfold parse.
  rewrite (next_cons _ _ _ _ _ (proto NodeWITH 0 (Some NdWith) None))
    by (rewrite Hw; reflexivity).
  unfold setNode. cbn [tokens length name node rp].
  set (nw := instance _ _ (Some w)).
  rewrite (run_step _ _ _ _ _ _ _ (proto NodeVALUE 0 (Some NdTerm) None)
             NdWith).
  2:{ rewrite Ha; reflexivity. }
  2:{ subst nw. apply instance_fields. }
  set (na := instance _ _ (Some a)).
  unfold bind. cbn [callNullDenotation]. unfold ndWith.
  pose proof (parseList_comma_panics (S (length rest)) (S (length rest))
                TokenEOF nw nm na a c rest provider
                (proj1 (proj2 (instance_fields _ _ _))) Ha ltac:(discriminate)
                (proj1 (proj2 (proj2 (proj2 (proj2 (instance_fields _ _ _))))))
                Hc Hrest) as H.
  destruct (parseList _ _ _ _ _) as [[| | |] p']; simpl in H;
    try discriminate H.
  reflexivity.
Qed.

Lemma with_comma_failure_panics_witness :
  parse (mkParser "demo" None withErrorStream None) = Panic.
Proof.
  apply (with_comma_failure_panics "demo" None (tok TokenWITH "with")
           (tok TokenVALUE "a") (tok TokenCOMMA ",") [lexErrorToken]);
    reflexivity.
Defined.

Lemma acceptChild_cons self id nm cur t ts provider pr tok :
  astNodeMap (ID t) = Some pr -> Token cur = Some tok ->
  acceptChild self id (mkParser nm (Some cur) (t :: ts) provider) =
  (if decide (ID tok = id) then OK (appendChild self cur)
   else Err (mkParserError nm ErrUnexpectedToken (DetailString (Val tok)) tok),
   mkParser nm
     (Some (instance (mkParser nm (Some cur) (t :: ts) provider) pr (Some t)))
     ts provider).
Proof.
  intros Hpr Htok. unfold acceptChild, bind, getNode. cbv beta iota.
  rewrite (nextNode_cons _ _ _ _ _ _ Hpr). cbn [node deref ret].
  rewrite Htok. cbn [deref ret].
  destruct (decide (ID tok = id)); reflexivity.
Qed.

(** X7: a get token followed by a token which is not a node kind, and
    then by another token with an entry in the table: [ParseWithRuntime]
    returns the error of an unexpected token, with the value of the token
    after get as detail and that token as its token. *)
Theorem get_unexpected_token nm provider g t t' rest :
  ID g = TokenGET -> ID t <> TokenNODEKIND -> known t -> known t' ->
  parse (mkParser nm None (g :: t :: t' :: rest) provider) =
  Err (mkParserError nm ErrUnexpectedToken (DetailString (Val t)) t).
Proof.
  intros Hg Ht [pr Hpr] [pr' Hpr'].
  unfold parse.
  rewrite (next_cons _ _ _ _ _ (proto NodeGET 0 (Some NdGet) None))
    by (rewrite Hg; reflexivity).
  unfold setNode. cbn [tokens length name node rp].
  set (ng := instance _ _ (Some g)).
  rewrite (run_step _ _ _ _ _ _ _ pr NdGet Hpr).
  2:{ subst ng. apply instance_fields. }
  set (nt := instance _ _ (Some t)).
  assert (Htok : Token nt = Some t) by (subst nt; apply instance_fields).
  unfold bind at 1. cbn [callNullDenotation]. unfold ndGet, bind at 1.
  rewrite (acceptChild_cons ng TokenNODEKIND nm nt t' rest provider pr' t
             Hpr' Htok).
  destruct (decide (ID t = TokenNODEKIND)) as [Heq | _]; [contradiction |].
  reflexivity.
Qed.

Lemma get_unexpected_token_witness :
  parse (mkParser "demo" None
           [tok TokenGET "get"; tok TokenVALUE "x"; tok TokenEOF ""] None) =
  Err (mkParserError "demo" ErrUnexpectedToken (DetailString "x")
         (tok TokenVALUE "x")).
Proof.
  apply (get_unexpected_token "demo" None (tok TokenGET "get")
           (tok TokenVALUE "x") (tok TokenEOF "") []);
    [reflexivity | discriminate | eexists; reflexivity
    | eexists; reflexivity].
Defined.

(** X8: three operands joined by two infix operators.  When the second
    operator binds more than the first, it takes the second and the third
    operand, and its node is the right child of the first operator;
    otherwise the node of the first operator, with the first and the
    second operand, is the left child of the second operator. *)
Theorem infix_precedence nm provider a op1 b op2 c eof :
  isOperand a -> isOperand b -> isOperand c ->
  isInfix op1 -> isInfix op2 -> ID eof = TokenEOF ->
  exists root,
    parse (mkParser nm None [a; op1; b; op2; c; eof] provider) = OK root
    /\ sexp root =
         if decide (bindingOf op1 < bindingOf op2)
         then nodeOf op1 [nodeOf a []; nodeOf op2 [nodeOf b []; nodeOf c []]]
         else nodeOf op2 [nodeOf op1 [nodeOf a []; nodeOf b []]; nodeOf c []].
Proof.
  intros Ha Hb Hc H1 H2 Heof.
  destruct (isOperand_binding a Ha) as (pa & Hpa & Hnda & Hba & Hna).
  destruct (isOperand_binding b Hb) as (pb & Hpb & Hndb & Hbb & Hnb).
  destruct (isOperand_binding c Hc) as (pc & Hpc & Hndc & Hbc & Hnc).
  destruct (isInfix_binding op1 H1) as (p1 & Hp1 & Hld1 & Hb1 & Hn1 & Hpos1).
  destruct (isInfix_binding op2 H2) as (p2 & Hp2 & Hld2 & Hb2 & Hn2 & Hpos2).
  assert (Hpe : astNodeMap (ID eof) = Some (proto NodeEOF 0 (Some NdTerm) None))
    by (rewrite Heof; reflexivity).
  unfold parse. rewrite (next_cons _ _ _ _ _ _ Hpa).
  unfold setNode. cbn [tokens length name node rp].
  set (na := instance _ pa (Some a)).
  assert (Hna' : nullDenotation na = Some NdTerm).
  { subst na. destruct (instance_fields
      (mkParser nm None [a; op1; b; op2; c; eof] provider) pa (Some a))
      as (_ & _ & _ & _ & -> & _). exact Hnda. }
  rewrite (run_start_operand 5 0 nm na op1 _ provider p1 Hna' Hp1).
  set (n1 := instance _ p1 (Some op1)).
  assert (Hn1' : binding n1 = binding p1
                 /\ leftDenotation n1 = Some LdInfix
                 /\ sexp n1 = nodeOf op1 []).
  { subst n1. rewrite sexp_instance. unfold nodeOf. rewrite <- Hn1.
    destruct (instance_fields
      (mkParser nm (Some na) [op1; b; op2; c; eof] provider) p1 (Some op1))
      as (_ & _ & _ & -> & _ & ->). auto. }
  destruct Hn1' as (Hbn1 & Hldn1 & Hsn1).
  destruct (decide (bindingOf op1 < bindingOf op2)) as [Hlt | Hge].
  - set (nb := instance (mkParser nm (Some n1) [b; op2; c; eof] provider) pb
                 (Some b)).
    assert (Hnb' : nullDenotation nb = Some NdTerm).
    { subst nb. destruct (instance_fields
        (mkParser nm (Some n1) [b; op2; c; eof] provider) pb (Some b))
        as (_ & _ & _ & _ & -> & _). exact Hndb. }
    set (n2 := instance (mkParser nm (Some nb) [op2; c; eof] provider) p2
                 (Some op2)).
    assert (Hn2' : binding n2 = binding p2
                   /\ leftDenotation n2 = Some LdInfix
                   /\ sexp n2 = nodeOf op2 []).
    { subst n2. rewrite sexp_instance. unfold nodeOf. rewrite <- Hn2.
      destruct (instance_fields
        (mkParser nm (Some nb) [op2; c; eof] provider) p2 (Some op2))
        as (_ & _ & _ & -> & _ & ->). auto. }
    destruct Hn2' as (Hbn2 & Hldn2 & Hsn2).
    set (nc := instance (mkParser nm (Some n2) [c; eof] provider) pc
                 (Some c)).
    set (ne := instance (mkParser nm (Some nc) [eof] provider)
                 (proto NodeEOF 0 (Some NdTerm) None) (Some eof)).
    assert (Hne : binding ne = 0).
    { subst ne. destruct (instance_fields
        (mkParser nm (Some nc) [eof] provider)
        (proto NodeEOF 0 (Some NdTerm) None) (Some eof))
        as (_ & _ & _ & -> & _). reflexivity. }
    assert (Hright :
      run 5 (binding n1) (mkParser nm (Some nb) [op2; c; eof] provider) =
      (OK (appendChild (appendChild n2 nb) nc),
       mkParser nm (Some ne) [] provider)).
    { rewrite (run_start_operand 4 _ nm nb op2 _ provider p2 Hnb' Hp2).
      fold n2.
      rewrite (runLoop_infix_operand 3 3 (binding n1) nb nm n2 c eof []
                 provider pc _ ltac:(lia) Hldn2 Hpc Hndc Hpe);
        [| simpl; lia].
      apply runLoop_stop. rewrite Hne. lia. }
    rewrite (runLoop_infix (run 5) 4 0 na nm n1 b [op2; c; eof] provider pb
               _ _ ltac:(lia) Hldn1 Hpb Hright).
    rewrite runLoop_stop by lia.
    eexists. split; [reflexivity |].
    rewrite !sexp_appendChild, Hsn1, Hsn2. subst na nb nc.
    rewrite !sexp_instance. unfold nodeOf. simpl.
    rewrite Hna, Hnb, Hnc. reflexivity.
  - rewrite (runLoop_infix_operand 4 4 0 na nm n1 b op2 [c; eof] provider
               pb p2); try assumption; try lia.
    set (nb := instance _ pb (Some b)).
    set (n2 := instance _ p2 (Some op2)).
    assert (Hn2' : binding n2 = binding p2
                   /\ leftDenotation n2 = Some LdInfix
                   /\ sexp n2 = nodeOf op2 []).
    { subst n2. rewrite sexp_instance. unfold nodeOf. rewrite <- Hn2.
      destruct (instance_fields
        (mkParser nm (Some nb) [op2; c; eof] provider) p2 (Some op2))
        as (_ & _ & _ & -> & _ & ->). auto. }
    destruct Hn2' as (Hbn2 & Hldn2 & Hsn2).
    rewrite (runLoop_infix_operand 4 3 0 _ nm n2 c eof [] provider
               pc _ ltac:(lia) Hldn2 Hpc Hndc Hpe); [| simpl; lia].
    set (nc := instance _ pc (Some c)).
    rewrite runLoop_stop.
    2:{ destruct (instance_fields
          (mkParser nm (Some nc) [eof] provider)
          (proto NodeEOF 0 (Some NdTerm) None) (Some eof))
          as (_ & _ & _ & -> & _). simpl. lia. }
    eexists. split; [reflexivity |].
    rewrite !sexp_appendChild, Hsn1, Hsn2. subst na nb nc.
    rewrite !sexp_instance. unfold nodeOf. simpl.
    rewrite Hna, Hnb, Hnc. reflexivity.
Qed.

Lemma infix_precedence_witness :
  exists root,
    parse (mkParser "demo" None
             [tok TokenVALUE "1"; tok TokenPLUS "+"; tok TokenVALUE "2";
              tok TokenTIMES "*"; tok TokenVALUE "3"; tok TokenEOF ""]
             None) = OK root
    /\ sexp root =
         binary NodePLUS "+" (value "1")
           (binary NodeTIMES "*" (value "2") (value "3")).
Proof.
  apply (infix_precedence "demo" None (tok TokenVALUE "1")
           (tok TokenPLUS "+") (tok TokenVALUE "2") (tok TokenTIMES "*")
           (tok TokenVALUE "3") (tok TokenEOF "")); reflexivity.
Defined.

Lemma isPrefix_binding t :
  isPrefix t ->
  exists pr,
    astNodeMap (ID t) = Some pr /\ nullDenotation pr = Some NdPrefix
    /\ binding pr = bindingOf t /\ Name pr = nameOf t /\ 0 <= binding pr.
Proof.
  unfold isPrefix, bindingOf, nameOf.
  destruct (ID t); simpl; intros H; try discriminate H;
    eexists; (split; [reflexivity |]); repeat split; simpl; lia.
Qed.

(** X9: a prefix operator, an operand, an infix operator and an operand.
    [ndPrefix] parses its operand with the binding power of the prefix
    operator plus 20: an infix operator which binds more than that is
    inside the node of the prefix operator, with both operands; any other
    infix operator has the node of the prefix operator, with the first
    operand, as its left child. *)
Theorem prefix_scope nm provider pre a op b eof :
  isPrefix pre -> isOperand a -> isInfix op -> isOperand b ->
  ID eof = TokenEOF ->
  exists root,
    parse (mkParser nm None [pre; a; op; b; eof] provider) = OK root
    /\ sexp root =
         if decide (bindingOf pre + 20 < bindingOf op)
         then nodeOf pre [nodeOf op [nodeOf a []; nodeOf b []]]
         else nodeOf op [nodeOf pre [nodeOf a []]; nodeOf b []].
Proof.
  intros Hpre Ha Hop Hb Heof.
  destruct (isPrefix_binding pre Hpre) as (pp & Hpp & Hndp & Hbp & Hnp & Hpos).
  destruct (isOperand_binding a Ha) as (pa & Hpa & Hnda & Hba & Hna).
  destruct (isOperand_binding b Hb) as (pb & Hpb & Hndb & Hbb & Hnb).
  destruct (isInfix_binding op Hop) as (po & Hpo & Hldo & Hbo & Hno & Hposo).
  assert (Hpe : astNodeMap (ID eof) = Some (proto NodeEOF 0 (Some NdTerm) None))
    by (rewrite Heof; reflexivity).
  unfold parse. rewrite (next_cons _ _ _ _ _ _ Hpp).
  unfold setNode. cbn [tokens length name node rp].
  set (np := instance _ pp (Some pre)).
  assert (Hnp' : nullDenotation np = Some NdPrefix /\ binding np = binding pp
                 /\ sexp np = nodeOf pre []).
  { subst np. rewrite sexp_instance. unfold nodeOf. rewrite <- Hnp.
    destruct (instance_fields
      (mkParser nm None [pre; a; op; b; eof] provider) pp (Some pre))
      as (_ & _ & _ & -> & -> & _). auto. }
  destruct Hnp' as (Hndp' & Hbp' & Hsp).
  rewrite (run_step 4 0 nm np a _ provider pa NdPrefix Hpa Hndp').
  set (na := instance _ pa (Some a)).
  assert (Hna' : nullDenotation na = Some NdTerm).
  { subst na. destruct (instance_fields
      (mkParser nm (Some np) [a; op; b; eof] provider) pa (Some a))
      as (_ & _ & _ & _ & -> & _). exact Hnda. }
  cbn [callNullDenotation]. unfold ndPrefix.
  set (n1 := instance (mkParser nm (Some na) [op; b; eof] provider) po
               (Some op)).
  assert (Hn1' : binding n1 = binding po
                 /\ leftDenotation n1 = Some LdInfix
                 /\ sexp n1 = nodeOf op []).
  { subst n1. rewrite sexp_instance. unfold nodeOf. rewrite <- Hno.
    destruct (instance_fields
      (mkParser nm (Some na) [op; b; eof] provider) po (Some op))
      as (_ & _ & _ & -> & _ & ->). auto. }
  destruct Hn1' as (Hbn1 & Hldn1 & Hsn1).
  set (nb := instance (mkParser nm (Some n1) [b; eof] provider) pb (Some b)).
  set (ne := instance (mkParser nm (Some nb) [eof] provider)
               (proto NodeEOF 0 (Some NdTerm) None) (Some eof)).
  assert (Hne : binding ne = 0).
  { subst ne. destruct (instance_fields
      (mkParser nm (Some nb) [eof] provider)
      (proto NodeEOF 0 (Some NdTerm) None) (Some eof))
      as (_ & _ & _ & -> & _). reflexivity. }
  destruct (decide (bindingOf pre + 20 < bindingOf op)) as [Hlt | Hge].
  - assert (Hinner :
      run 4 (binding np + 20) (mkParser nm (Some na) [op; b; eof] provider) =
      (OK (appendChild (appendChild n1 na) nb),
       mkParser nm (Some ne) [] provider)).
    { rewrite (run_start_operand 3 _ nm na op _ provider po Hna' Hpo).
      fold n1.
      rewrite (runLoop_infix_operand 2 2 (binding np + 20) na nm n1 b eof []
                 provider pb _ ltac:(lia) Hldn1 Hpb Hndb Hpe);
        [| simpl; lia].
      apply runLoop_stop. rewrite Hne. lia. }
    unfold bind at 1 2. rewrite Hinner. cbn [ret].
    rewrite runLoop_stop by lia.
    eexists. split; [reflexivity |].
    rewrite !sexp_appendChild, Hsn1, Hsp. subst na nb.
    rewrite !sexp_instance. unfold nodeOf. simpl.
    rewrite Hna, Hnb. reflexivity.
  - assert (Hinner :
      run 4 (binding np + 20) (mkParser nm (Some na) [op; b; eof] provider) =
      (OK na, mkParser nm (Some n1) [b; eof] provider)).
    { apply run_operand; [exact Hna' | exact Hpo | lia]. }
    unfold bind at 1 2. rewrite Hinner. cbn [ret].
    rewrite (runLoop_infix_operand 3 3 0 _ nm n1 b eof [] provider
               pb _ ltac:(lia) Hldn1 Hpb Hndb Hpe); [| simpl; lia].
    rewrite runLoop_stop by (fold nb; fold ne; lia).
    eexists. split; [reflexivity |].
    rewrite !sexp_appendChild, Hsn1, Hsp. subst na nb.
    rewrite !sexp_instance. unfold nodeOf. simpl.
    rewrite Hna, Hnb. reflexivity.
Qed.

Lemma prefix_scope_witness :
  exists root,
    parse (mkParser "demo" None
             [tok TokenNOT "not"; tok TokenVALUE "a"; tok TokenEQ "=";
              tok TokenVALUE "b"; tok TokenEOF ""] None) = OK root
    /\ sexp root =
         SNode NodeNOT (Some "not")
           [binary NodeEQ "=" (value "a") (value "b")].
Proof.
  apply (prefix_scope "demo" None (tok TokenNOT "not") (tok TokenVALUE "a")
           (tok TokenEQ "=") (tok TokenVALUE "b") (tok TokenEOF ""));
    reflexivity.
Defined.

(** X16: an operand followed by a token with an entry of binding power
    zero, as another operand: [ParseWithRuntime] returns the node of the
    first operand alone, without an error, whatever the tokens after it
    are.  [run] ends at the first token which does not bind, and
    [ParseWithRuntime] does not look at what is left of the stream. *)
Theorem operand_rest_ignored nm provider a t rest :
  isOperand a -> known t -> bindingOf t = 0 ->
  exists root,
    parse (mkParser nm None (a :: t :: rest) provider) = OK root
    /\ sexp root = nodeOf a [].
Proof.
  intros Ha [pr Hpr] Hb.
  destruct (isOperand_binding a Ha) as (pa & Hpa & Hnda & Hba & Hna).
  unfold parse. rewrite (next_cons _ _ _ _ _ _ Hpa).
  unfold setNode. cbn [tokens length name node rp].
  rewrite (run_operand _ 0 nm _ t rest provider pr).
  - eexists. split; [reflexivity |]. rewrite sexp_instance.
    unfold nodeOf. rewrite Hna. reflexivity.
  - destruct (instance_fields
      (mkParser nm None (a :: t :: rest) provider) pa (Some a))
      as (_ & _ & _ & _ & -> & _). exact Hnda.
  - exact Hpr.
  - unfold bindingOf in Hb. rewrite Hpr in Hb. lia.
Qed.

Lemma operand_rest_ignored_witness :
  exists root,
    parse (mkParser "demo" None
             [tok TokenVALUE "a"; tok TokenVALUE "b"; tok TokenEOF ""] None)
      = OK root
    /\ sexp root = value "a".
Proof.
  apply (operand_rest_ignored "demo" None (tok TokenVALUE "a")
           (tok TokenVALUE "b") [tok TokenEOF ""]);
    [reflexivity | eexists; reflexivity | reflexivity].
Defined.

Lemma skipToken_cons ids nm cur tok t ts provider pr :
  Token cur = Some tok -> canSkip ids (ID tok) = true ->
  astNodeMap (ID t) = Some pr ->
  skipToken ids (mkParser nm (Some cur) (t :: ts) provider) =
  (OK tt,
   mkParser nm
     (Some (instance (mkParser nm (Some cur) (t :: ts) provider) pr (Some t)))
     ts provider).
Proof.
  intros Htok Hcan Hpr. unfold skipToken, bind.
  rewrite (curToken_at (mkParser nm (Some cur) (t :: ts) provider) cur tok
             eq_refl Htok). rewrite Hcan. simpl negb.
  cbv iota. exact (nextNode_cons _ _ _ _ _ _ Hpr).
Qed.

(** X17: an expression in parentheses is the right operand of an infix
    operator whatever the binding powers of the operators are, and the
    nodes of the parentheses are not in the tree: [ndInner] returns the
    inner expression and skips the closing parenthesis. *)
Theorem parenthesised_operand nm provider a op1 open b op2 c close eof :
  isOperand a -> isOperand b -> isOperand c ->
  isInfix op1 -> isInfix op2 ->
  ID open = TokenLPAREN -> ID close = TokenRPAREN -> ID eof = TokenEOF ->
  exists root,
    parse (mkParser nm None [a; op1; open; b; op2; c; close; eof] provider)
      = OK root
    /\ sexp root =
         nodeOf op1 [nodeOf a []; nodeOf op2 [nodeOf b []; nodeOf c []]].
Proof.
  intros Ha Hb Hc H1 H2 Hopen Hclose Heof.
  destruct (isOperand_binding a Ha) as (pa & Hpa & Hnda & Hba & Hna).
  destruct (isOperand_binding b Hb) as (pb & Hpb & Hndb & Hbb & Hnb).
  destruct (isOperand_binding c Hc) as (pc & Hpc & Hndc & Hbc & Hnc).
  destruct (isInfix_binding op1 H1) as (p1 & Hp1 & Hld1 & Hb1 & Hn1 & Hpos1).
  destruct (isInfix_binding op2 H2) as (p2 & Hp2 & Hld2 & Hb2 & Hn2 & Hpos2).
  assert (Hpe : astNodeMap (ID eof) = Some (proto NodeEOF 0 (Some NdTerm) None))
    by (rewrite Heof; reflexivity).
  assert (Hpl : astNodeMap (ID open) =
                Some (proto NodeLPAREN 150 (Some NdInner) None))
    by (rewrite Hopen; reflexivity).
  assert (Hpr : astNodeMap (ID close) = Some (proto NodeRPAREN 0 None None))
    by (rewrite Hclose; reflexivity).
  unfold parse. rewrite (next_cons _ _ _ _ _ _ Hpa).
  unfold setNode. cbn [tokens length name node rp].
  set (na := instance _ pa (Some a)).
  assert (Hna' : nullDenotation na = Some NdTerm).
  { subst na. rewrite (proj1 (proj2 (proj2 (proj2 (proj2
      (instance_fields _ _ _)))))). exact Hnda. }
  rewrite (run_start_operand 7 0 nm na op1 _ provider p1 Hna' Hp1).
  set (n1 := instance _ p1 (Some op1)).
  assert (Hn1' : binding n1 = binding p1
                 /\ leftDenotation n1 = Some LdInfix
                 /\ sexp n1 = nodeOf op1 []).
  { subst n1. rewrite sexp_instance. unfold nodeOf. rewrite <- Hn1.
    destruct (instance_fields
      (mkParser nm (Some na) [op1; open; b; op2; c; close; eof] provider) p1
      (Some op1)) as (_ & _ & _ & -> & _ & ->). auto. }
  destruct Hn1' as (Hbn1 & Hldn1 & Hsn1).
  set (nl := instance (mkParser nm (Some n1) [open; b; op2; c; close; eof] provider)
               (proto NodeLPAREN 150 (Some NdInner) None) (Some open)).
  assert (Hnl : nullDenotation nl = Some NdInner).
  { subst nl. apply instance_fields. }
  set (nb := instance (mkParser nm (Some nl) [b; op2; c; close; eof] provider)
               pb (Some b)).
  assert (Hnb' : nullDenotation nb = Some NdTerm).
  { subst nb. rewrite (proj1 (proj2 (proj2 (proj2 (proj2
      (instance_fields _ _ _)))))). exact Hndb. }
  set (n2 := instance (mkParser nm (Some nb) [op2; c; close; eof] provider) p2
               (Some op2)).
  assert (Hn2' : binding n2 = binding p2
                 /\ leftDenotation n2 = Some LdInfix
                 /\ sexp n2 = nodeOf op2 []).
  { subst n2. rewrite sexp_instance. unfold nodeOf. rewrite <- Hn2.
    destruct (instance_fields
      (mkParser nm (Some nb) [op2; c; close; eof] provider) p2 (Some op2))
      as (_ & _ & _ & -> & _ & ->). auto. }
  destruct Hn2' as (Hbn2 & Hldn2 & Hsn2).
  set (nc := instance (mkParser nm (Some n2) [c; close; eof] provider) pc
               (Some c)).
  set (nr := instance (mkParser nm (Some nc) [close; eof] provider)
               (proto NodeRPAREN 0 None None) (Some close)).
  assert (Hnr : binding nr = 0 /\ Token nr = Some close).
  { subst nr. split; apply instance_fields. }
  destruct Hnr as [Hbr Htr].
  set (ne := instance (mkParser nm (Some nr) [eof] provider)
               (proto NodeEOF 0 (Some NdTerm) None) (Some eof)).
  assert (Hne : binding ne = 0).
  { subst ne. apply instance_fields. }
  assert (Hexp :
    run 6 0 (mkParser nm (Some nb) [op2; c; close; eof] provider) =
    (OK (appendChild (appendChild n2 nb) nc),
     mkParser nm (Some nr) [eof] provider)).
  { rewrite (run_start_operand 5 0 nm nb op2 _ provider p2 Hnb' Hp2).
    fold n2.
    rewrite (runLoop_infix_operand 4 4 0 nb nm n2 c close [eof] provider
               pc _ ltac:(lia) Hldn2 Hpc Hndc Hpr); [| simpl; lia].
    apply runLoop_stop. fold nc. fold nr. lia. }
  assert (Hright :
    run 7 (binding n1)
      (mkParser nm (Some nl) [b; op2; c; close; eof] provider) =
    (OK (appendChild (appendChild n2 nb) nc),
     mkParser nm (Some ne) [] provider)).
  { rewrite (run_step 6 _ nm nl b _ provider pb NdInner Hpb Hnl).
    fold nb. cbn [callNullDenotation]. unfold ndInner.
    unfold bind at 1 2. rewrite Hexp. unfold bind at 1.
    rewrite (skipToken_cons [TokenRPAREN] nm nr close eof [] provider _ Htr
               ltac:(rewrite Hclose; reflexivity) Hpe).
    fold ne. cbn [ret]. apply runLoop_stop. lia. }
  rewrite (runLoop_infix (run 7) 6 0 na nm n1 open _ provider _
             _ _ ltac:(lia) Hldn1 Hpl Hright).
  rewrite runLoop_stop by lia.
  eexists. split; [reflexivity |].
  rewrite !sexp_appendChild, Hsn1, Hsn2. subst na nb nc.
  rewrite !sexp_instance. unfold nodeOf. simpl.
  rewrite Hna, Hnb, Hnc. reflexivity.
Qed.

Lemma parenthesised_operand_witness :
  exists root,
    parse (mkParser "demo" None
             [tok TokenVALUE "a"; tok TokenTIMES "*"; tok TokenLPAREN "(";
              tok TokenVALUE "b"; tok TokenPLUS "+"; tok TokenVALUE "c";
              tok TokenRPAREN ")"; tok TokenEOF ""] None) = OK root
    /\ sexp root =
         binary NodeTIMES "*" (value "a")
           (binary NodePLUS "+" (value "b") (value "c")).
Proof.
  apply (parenthesised_operand "demo" None (tok TokenVALUE "a")
           (tok TokenTIMES "*") (tok TokenLPAREN "(") (tok TokenVALUE "b")
           (tok TokenPLUS "+") (tok TokenVALUE "c") (tok TokenRPAREN ")")
           (tok TokenEOF "")); reflexivity.
Defined.

Lemma parseList_step fuel k stop self nm cur tok t ts provider pr :
  Token cur = Some tok -> ID tok <> stop ->
  nullDenotation cur = Some NdTerm ->
  astNodeMap (ID t) = Some pr -> binding pr <= 0 ->
  parseList (run (S fuel)) stop (S k) self
    (mkParser nm (Some cur) (t :: ts) provider) =
  (do _ <- skipComma;
   parseList (run (S fuel)) stop k (appendChild self cur))
    (mkParser nm
       (Some (instance (mkParser nm (Some cur) (t :: ts) provider) pr
                (Some t))) ts provider).
Proof.
  intros Htok Hne Hnd Hpr Hb. cbn [parseList]. unfold bind at 1.
  rewrite (curToken_at (mkParser nm (Some cur) (t :: ts) provider) cur tok
             eq_refl Htok).
  destruct (decide (ID tok <> stop)) as [_ | Hn]; [| contradiction].
  unfold bind at 1.
  rewrite (run_operand fuel 0 nm cur t ts provider pr Hnd Hpr Hb).
  reflexivity.
Qed.

Lemma parseList_stop run' k stop self p cur tok :
  node p = Some cur -> Token cur = Some tok -> ID tok = stop ->
  parseList run' stop k self p = (OK self, p).
Proof.
  intros Hn Htok Heq. destruct k; cbn [parseList]; unfold bind;
    rewrite (curToken_at p cur tok Hn Htok);
    (destruct (decide (ID tok <> stop)) as [Hne | _]; [contradiction |]);
    reflexivity.
Qed.

Lemma skipComma_comma nm cur tok t ts provider pr :
  Token cur = Some tok -> ID tok = TokenCOMMA ->
  astNodeMap (ID t) = Some pr ->
  skipComma (mkParser nm (Some cur) (t :: ts) provider) =
  (OK tt,
   mkParser nm
     (Some (instance (mkParser nm (Some cur) (t :: ts) provider) pr (Some t)))
     ts provider).
Proof.
  intros Htok Hc Hpr. unfold skipComma, bind at 1.
  rewrite (curToken_at (mkParser nm (Some cur) (t :: ts) provider) cur tok
             eq_refl Htok).
  destruct (decide (ID tok = TokenCOMMA)) as [_ | Hn]; [| contradiction].
  unfold bind, catch.
  rewrite (skipToken_cons [TokenCOMMA] nm cur tok t ts provider pr Htok
             ltac:(rewrite Hc; reflexivity) Hpr).
  reflexivity.
Qed.

Lemma skipComma_other p cur tok :
  node p = Some cur -> Token cur = Some tok -> ID tok <> TokenCOMMA ->
  skipComma p = (OK tt, p).
Proof.
  intros Hn Htok Hne. unfold skipComma, bind.
  rewrite (curToken_at p cur tok Hn Htok).
  destruct (decide (ID tok = TokenCOMMA)); [contradiction | reflexivity].
Qed.

(** X18: two operands with a comma between them, in square brackets, are
    parsed to a node named LIST which has the token of the opening bracket
    and the nodes of the operands as its children; the nodes of the
    brackets and of the comma are not in the tree. *)
Theorem list_of_two nm provider open a comma b close eof :
  ID open = TokenLBRACK -> isOperand a -> ID comma = TokenCOMMA ->
  isOperand b -> ID close = TokenRBRACK -> ID eof = TokenEOF ->
  exists root,
    parse (mkParser nm None [open; a; comma; b; close; eof] provider)
      = OK root
    /\ sexp root =
         SNode NodeLIST (Some (Val open)) [nodeOf a []; nodeOf b []].
Proof.
  intros Hopen Ha Hcomma Hb Hclose Heof.
  destruct (isOperand_binding a Ha) as (pa & Hpa & Hnda & Hba & Hna).
  destruct (isOperand_binding b Hb) as (pb & Hpb & Hndb & Hbb & Hnb).
  assert (Hpe : astNodeMap (ID eof) = Some (proto NodeEOF 0 (Some NdTerm) None))
    by (rewrite Heof; reflexivity).
  assert (Hpo : astNodeMap (ID open) =
                Some (proto NodeLBRACK 150 (Some NdList) None))
    by (rewrite Hopen; reflexivity).
  assert (Hpc : astNodeMap (ID close) = Some (proto NodeRBRACK 0 None None))
    by (rewrite Hclose; reflexivity).
  assert (Hpm : astNodeMap (ID comma) = Some (proto NodeCOMMA 0 None None))
    by (rewrite Hcomma; reflexivity).
  assert (Hane : ID a <> TokenRBRACK).
  { intros Heq. unfold isOperand in Ha. rewrite Heq in Ha. discriminate Ha. }
  assert (Hbne : ID b <> TokenRBRACK).
  { intros Heq. unfold isOperand in Hb. rewrite Heq in Hb. discriminate Hb. }
  unfold parse. rewrite (next_cons _ _ _ _ _ _ Hpo).
  unfold setNode. cbn [tokens length name node rp].
  set (no := instance _ _ (Some open)).
  assert (Hno : nullDenotation no = Some NdList /\ Token no = Some open).
  { subst no. split; apply instance_fields. }
  destruct Hno as [Hndo Hto].
  rewrite (run_step 5 0 nm no a _ provider pa NdList Hpa Hndo).
  set (na := instance _ pa (Some a)).
  assert (Hna' : nullDenotation na = Some NdTerm /\ Token na = Some a).
  { subst na. split; [| apply instance_fields].
    rewrite (proj1 (proj2 (proj2 (proj2 (proj2
      (instance_fields _ _ _)))))). exact Hnda. }
  destruct Hna' as [Hnda' Hta].
  cbn [callNullDenotation]. unfold ndList.
  unfold bind at 1 2. unfold getParser at 1. cbv beta iota.
  unfold bind at 1. cbn [astNodeMap deref ret]. rewrite Hto.
  set (st := instance _ (proto NodeLIST 0 None None) (Some open)).
  set (nm1 := instance (mkParser nm (Some na) [comma; b; close; eof] provider)
                (proto NodeCOMMA 0 None None) (Some comma)).
  assert (Htm : Token nm1 = Some comma) by (subst nm1; apply instance_fields).
  set (nb := instance (mkParser nm (Some nm1) [b; close; eof] provider) pb
               (Some b)).
  assert (Hnb' : nullDenotation nb = Some NdTerm /\ Token nb = Some b).
  { subst nb. split; [| apply instance_fields].
    rewrite (proj1 (proj2 (proj2 (proj2 (proj2
      (instance_fields _ _ _)))))). exact Hndb. }
  destruct Hnb' as [Hndb' Htb].
  set (nc := instance (mkParser nm (Some nb) [close; eof] provider)
               (proto NodeRBRACK 0 None None) (Some close)).
  assert (Htc : Token nc = Some close) by (subst nc; apply instance_fields).
  set (ne := instance (mkParser nm (Some nc) [eof] provider)
               (proto NodeEOF 0 (Some NdTerm) None) (Some eof)).
  assert (Hne : binding ne = 0) by (subst ne; apply instance_fields).
  unfold bind at 1 2.
  rewrite (parseList_step 4 4 TokenRBRACK st nm na a comma _ provider _
             Hta Hane Hnda' Hpm ltac:(simpl; lia)).
  fold nm1. unfold bind at 1.
  rewrite (skipComma_comma nm nm1 comma b _ provider pb Htm Hcomma Hpb).
  fold nb.
  rewrite (parseList_step 4 3 TokenRBRACK _ nm nb b close _ provider _
             Htb Hbne Hndb' Hpc ltac:(simpl; lia)).
  fold nc. unfold bind at 1.
  rewrite (skipComma_other (mkParser nm (Some nc) [eof] provider) nc close
             eq_refl Htc) by (rewrite Hclose; discriminate).
  rewrite (parseList_stop _ _ _ _ (mkParser nm (Some nc) [eof] provider) nc
             close eq_refl Htc Hclose).
  rewrite (skipToken_cons [TokenRBRACK] nm nc close eof [] provider _ Htc
             ltac:(rewrite Hclose; reflexivity) Hpe).
  fold ne. cbn [ret]. rewrite runLoop_stop by lia.
  eexists. split; [reflexivity |].
  rewrite !sexp_appendChild. subst st na nb.
  rewrite !sexp_instance. unfold nodeOf. simpl.
  rewrite Hna, Hnb. reflexivity.
Qed.

Lemma list_of_two_witness :
  exists root,
    parse (mkParser "demo" None
             [tok TokenLBRACK "["; tok TokenVALUE "1"; tok TokenCOMMA ",";
              tok TokenVALUE "2"; tok TokenRBRACK "]"; tok TokenEOF ""]
             None) = OK root
    /\ sexp root = SNode NodeLIST (Some "[") [value "1"; value "2"].
Proof.
  apply (list_of_two "demo" None (tok TokenLBRACK "[") (tok TokenVALUE "1")
           (tok TokenCOMMA ",") (tok TokenVALUE "2") (tok TokenRBRACK "]")
           (tok TokenEOF "")); reflexivity.
Defined.

Lemma ndFunc_panics fuel self nm cur f open v rest provider :
  Token cur = Some f -> ID f = TokenVALUE -> ID open = TokenLPAREN ->
  ID v = TokenVALUE -> failing rest ->
  fst (ndFunc (S fuel) self
         (mkParser nm (Some cur) (open :: v :: rest) provider)) = Panic.
Proof.
  intros Hcur Hf Hopen Hv Hrest.
  destruct cur as [cn ct cc cr cb cnd cld]. simpl in Hcur. subst ct.
  destruct f as [fid fpos fval fl fc]. simpl in Hf. subst fid.
  destruct open as [oid opos oval ol oc]. simpl in Hopen. subst oid.
  destruct v as [vid vpos vval vl vc]. simpl in Hv. subst vid.
  unfold ndFunc, acceptChild, skipToken, curToken.
  destruct provider as [g |];
    repeat (progress (unfold bind, getNode, catch, skipToken, curToken;
                      simpl));
    fail_next Hrest; reflexivity.
Qed.

(** X20: the token of a function, its name, an opening parenthesis, a
    value and then the closed channel or a token without an entry in the
    table: [ParseWithRuntime] panics.  The call of [acceptChild] for the
    first parameter in [ndFunc], whose error is ignored, fails in [next]:
    [p.node] is nil after it, and the [skipToken] of the loop over the
    commas reads [p.node.Token.ID]. *)
Theorem func_value_failure_panics nm provider at' f open v rest :
  ID at' = TokenAT -> ID f = TokenVALUE -> ID open = TokenLPAREN ->
  ID v = TokenVALUE -> failing rest ->
  parse (mkParser nm None (at' :: f :: open :: v :: rest) provider) = Panic.
Proof.
  intros Hat Hf Hopen Hv Hrest.
  unfold parse.
  rewrite (next_cons _ _ _ _ _ (proto NodeFUNC 0 (Some NdFunc) None))
    by (rewrite Hat; reflexivity).
  unfold setNode. cbn [tokens length name node rp].
  set (na := instance _ _ (Some at')).
  rewrite (run_step _ _ _ _ _ _ _ (proto NodeVALUE 0 (Some NdTerm) None)
             NdFunc).
  2:{ rewrite Hf; reflexivity. }
  2:{ subst na. apply instance_fields. }
  set (nf := instance _ _ (Some f)).
  unfold bind. cbn [callNullDenotation].
  pose proof (ndFunc_panics (S (S (length rest))) na nm nf f open v rest
                provider
                (proj1 (proj2 (instance_fields _ _ _))) Hf Hopen Hv Hrest)
    as H.
  destruct (ndFunc _ _ _) as [[| | |] p']; simpl in H; try discriminate H.
  reflexivity.
Qed.

Lemma func_value_failure_panics_witness :
  parse (mkParser "demo" None funcErrorStream None) = Panic.
Proof.
  apply (func_value_failure_panics "demo" None (tok TokenAT "@")
           (tok TokenVALUE "count") (tok TokenLPAREN "(")
           (tok TokenVALUE "1") [lexErrorToken]); reflexivity.
Defined.

Lemma sexp_setChildren n cs :
  sexp (setChildren n cs) =
  match sexp n with
  | SNode nm v _ => SNode nm v (sexp <$> cs)
  end.
Proof. destruct n as [nm t cs' r b nd ld]. reflexivity. Qed.

(** X21: from, group and a value are parsed to a node named FROM whose
    only child is the node of the group token, and that node has the node
    of the value as its only child: [ndFrom] appends the group name to
    [self.Children[0]]. *)
Theorem from_group nm provider from group v eof :
  ID from = TokenFROM -> ID group = TokenGROUP -> ID v = TokenVALUE ->
  ID eof = TokenEOF ->
  exists root,
    parse (mkParser nm None [from; group; v; eof] provider) = OK root
    /\ sexp root =
         SNode NodeFROM (Some (Val from))
           [SNode NodeGROUP (Some (Val group)) [value (Val v)]].
Proof.
  intros Hfrom Hgroup Hv Heof.
  assert (Hpe : astNodeMap (ID eof) = Some (proto NodeEOF 0 (Some NdTerm) None))
    by (rewrite Heof; reflexivity).
  assert (Hpf : astNodeMap (ID from) =
                Some (proto NodeFROM 0 (Some NdFrom) None))
    by (rewrite Hfrom; reflexivity).
  assert (Hpg : astNodeMap (ID group) = Some (proto NodeGROUP 0 None None))
    by (rewrite Hgroup; reflexivity).
  assert (Hpv : astNodeMap (ID v) = Some (proto NodeVALUE 0 (Some NdTerm) None))
    by (rewrite Hv; reflexivity).
  unfold parse. rewrite (next_cons _ _ _ _ _ _ Hpf).
  unfold setNode. cbn [tokens length name node rp].
  set (nf := instance _ _ (Some from)).
  rewrite (run_step 3 0 nm nf group _ provider _ NdFrom Hpg
             ltac:(subst nf; apply instance_fields)).
  set (ng := instance _ _ (Some group)).
  assert (Htg : Token ng = Some group) by (subst ng; apply instance_fields).
  cbn [callNullDenotation]. unfold ndFrom. unfold bind at 1 2.
  rewrite (acceptChild_cons nf TokenGROUP nm ng v [eof] provider _ group
             Hpv Htg).
  destruct (decide (ID group = TokenGROUP)) as [_ | Hn]; [| contradiction].
  set (nv := instance _ _ (Some v)).
  assert (Htv : Token nv = Some v) by (subst nv; apply instance_fields).
  assert (Hkids : Children (appendChild nf ng) = [ng]).
  { subst nf. simpl.
    rewrite (proj1 (proj2 (proj2 (instance_fields _ _ _)))). reflexivity. }
  rewrite Hkids. unfold bind at 1.
  rewrite (acceptChild_cons ng TokenVALUE nm nv eof [] provider _ v
             Hpe Htv).
  destruct (decide (ID v = TokenVALUE)) as [_ | Hn]; [| contradiction].
  set (ne := instance _ _ (Some eof)).
  assert (Hne : binding ne = 0) by (subst ne; apply instance_fields).
  cbn [ret]. rewrite runLoop_stop by lia.
  eexists. split; [reflexivity |].
  rewrite sexp_setChildren, !fmap_cons, !sexp_appendChild. subst nf ng nv.
  rewrite !sexp_instance. reflexivity.
Qed.

Lemma from_group_witness :
  exists root,
    parse (mkParser "demo" None
             [tok TokenFROM "from"; tok TokenGROUP "group";
              tok TokenVALUE "test"; tok TokenEOF ""] None) = OK root
    /\ sexp root =
         SNode NodeFROM (Some "from")
           [SNode NodeGROUP (Some "group") [value "test"]].
Proof.
  apply (from_group "demo" None (tok TokenFROM "from")
           (tok TokenGROUP "group") (tok TokenVALUE "test")
           (tok TokenEOF "")); reflexivity.
Defined.

Lemma traverseRest_step fuel k self nm cur tok t ts provider pr :
  Token cur = Some tok -> ID tok <> TokenEOF -> ID tok <> TokenEND ->
  nullDenotation cur = Some NdTerm ->
  astNodeMap (ID t) = Some pr -> binding pr <= 0 ->
  traverseRest (run (S fuel)) (S k) self
    (mkParser nm (Some cur) (t :: ts) provider) =
  traverseRest (run (S fuel)) k (appendChild self cur)
    (mkParser nm
       (Some (instance (mkParser nm (Some cur) (t :: ts) provider) pr
                (Some t))) ts provider).
Proof.
  intros Htok Hne1 Hne2 Hnd Hpr Hb. cbn [traverseRest]. unfold bind at 1.
  rewrite (curToken_at (mkParser nm (Some cur) (t :: ts) provider) cur tok
             eq_refl Htok).
  destruct (decide (ID tok <> TokenEOF /\ ID tok <> TokenEND)) as [_ | Hn];
    [| destruct Hn; split; assumption].
  unfold bind at 1.
  rewrite (run_operand fuel 0 nm cur t ts provider pr Hnd Hpr Hb).
  reflexivity.
Qed.

Lemma traverseRest_stop run' k self p cur tok :
  node p = Some cur -> Token cur = Some tok ->
  ID tok = TokenEOF \/ ID tok = TokenEND ->
  traverseRest run' k self p = (OK self, p).
Proof.
  intros Hn Htok Heq. destruct k; cbn [traverseRest]; unfold bind;
    rewrite (curToken_at p cur tok Hn Htok);
    (destruct (decide (ID tok <> TokenEOF /\ ID tok <> TokenEND))
       as [[Hne1 Hne2] | _]; [destruct Heq; contradiction |]);
    reflexivity.
Qed.

(** X22: traverse, a traversal specification, a value and end are parsed
    to a node named TRAVERSE with the nodes of the specification and of
    the value as its children: the loop of [ndTraverse] ends at the end
    token, which is skipped and leaves no node. *)
Theorem traverse_end nm provider tr spec a end' eof :
  ID tr = TokenTRAVERSE -> ID spec = TokenVALUE -> ID a = TokenVALUE ->
  ID end' = TokenEND -> ID eof = TokenEOF ->
  exists root,
    parse (mkParser nm None [tr; spec; a; end'; eof] provider) = OK root
    /\ sexp root =
         SNode NodeTRAVERSE (Some (Val tr)) [value (Val spec); value (Val a)].
Proof.
  intros Htr Hspec Ha Hend Heof.
  assert (Hpe : astNodeMap (ID eof) = Some (proto NodeEOF 0 (Some NdTerm) None))
    by (rewrite Heof; reflexivity).
  assert (Hpt : astNodeMap (ID tr) =
                Some (proto NodeTRAVERSE 0 (Some NdTraverse) None))
    by (rewrite Htr; reflexivity).
  assert (Hps : astNodeMap (ID spec) =
                Some (proto NodeVALUE 0 (Some NdTerm) None))
    by (rewrite Hspec; reflexivity).
  assert (Hpa : astNodeMap (ID a) =
                Some (proto NodeVALUE 0 (Some NdTerm) None))
    by (rewrite Ha; reflexivity).
  assert (Hpn : astNodeMap (ID end') = Some (proto NodeEND 0 None None))
    by (rewrite Hend; reflexivity).
  unfold parse. rewrite (next_cons _ _ _ _ _ _ Hpt).
  unfold setNode. cbn [tokens length name node rp].
  set (nt := instance _ _ (Some tr)).
  rewrite (run_step 4 0 nm nt spec _ provider _ NdTraverse Hps
             ltac:(subst nt; apply instance_fields)).
  set (ns := instance _ _ (Some spec)).
  assert (Hts : Token ns = Some spec) by (subst ns; apply instance_fields).
  cbn [callNullDenotation]. unfold ndTraverse. unfold bind at 1 2.
  rewrite (acceptChild_cons nt TokenVALUE nm ns a [end'; eof] provider _ spec
             Hpa Hts).
  destruct (decide (ID spec = TokenVALUE)) as [_ | Hn]; [| contradiction].
  set (na := instance _ _ (Some a)).
  assert (Hna : Token na = Some a /\ nullDenotation na = Some NdTerm).
  { subst na. split; apply instance_fields. }
  destruct Hna as [Hta Hnda].
  unfold bind at 1.
  rewrite (traverseRest_step 3 3 _ nm na a end' [eof] provider _ Hta
             ltac:(rewrite Ha; discriminate) ltac:(rewrite Ha; discriminate)
             Hnda Hpn ltac:(simpl; lia)).
  set (nn := instance _ _ (Some end')).
  assert (Htn : Token nn = Some end') by (subst nn; apply instance_fields).
  rewrite (traverseRest_stop _ _ _ (mkParser nm (Some nn) [eof] provider)
             nn end' eq_refl Htn (or_intror Hend)).
  unfold bind at 1.
  rewrite (curToken_at (mkParser nm (Some nn) [eof] provider) nn end'
             eq_refl Htn).
  destruct (decide (ID end' = TokenEND)) as [_ | Hn]; [| contradiction].
  unfold bind at 1 2. unfold catch.
  rewrite (skipToken_cons [TokenEND] nm nn end' eof [] provider _ Htn
             ltac:(rewrite Hend; reflexivity) Hpe).
  set (ne := instance _ _ (Some eof)).
  assert (Hne : binding ne = 0) by (subst ne; apply instance_fields).
  cbn [ret]. rewrite runLoop_stop by lia.
  eexists. split; [reflexivity |].
  rewrite !sexp_appendChild. subst nt ns na. rewrite !sexp_instance.
  reflexivity.
Qed.

Lemma traverse_end_witness :
  exists root,
    parse (mkParser "demo" None
             [tok TokenTRAVERSE "traverse"; tok TokenVALUE "::Song";
              tok TokenVALUE "a"; tok TokenEND "end"; tok TokenEOF ""]
             None) = OK root
    /\ sexp root =
         SNode NodeTRAVERSE (Some "traverse") [value "::Song"; value "a"].
Proof.
  apply (traverse_end "demo" None (tok TokenTRAVERSE "traverse")
           (tok TokenVALUE "::Song") (tok TokenVALUE "a")
           (tok TokenEND "end") (tok TokenEOF "")); reflexivity.
Defined.

(** ** The trees of the clauses *)

(** A token whose identifier is known. *)
Ltac concrete t H :=
  let id := fresh "id" in
  destruct t as [id ? ? ? ?]; simpl in H; subst id.

(** X23: show with a value, as with a value and format with a value is
    parsed to a node named SHOW with one child named SHOWTERM, which has
    the token of the first value; its children are the node of as and the
    node of format, each with the node of its value as its only child.
    The value is appended to the node of as after that node was appended
    to the show term, and is in the tree. *)
Theorem show_as_format nm provider show n as' x format y eof :
  ID show = TokenSHOW -> ID n = TokenVALUE -> ID as' = TokenAS ->
  ID x = TokenVALUE -> ID format = TokenFORMAT -> ID y = TokenVALUE ->
  ID eof = TokenEOF ->
  exists root,
    parse (mkParser nm None [show; n; as'; x; format; y; eof] provider)
      = OK root
    /\ sexp root =
         SNode NodeSHOW (Some (Val show))
           [SNode NodeSHOWTERM (Some (Val n))
              [SNode NodeAS (Some (Val as')) [value (Val x)];
               SNode NodeFORMAT (Some (Val format)) [value (Val y)]]].
Proof.
  intros Hshow Hn Has Hx Hformat Hy Heof.
  concrete show Hshow. concrete n Hn. concrete as' Has. concrete x Hx.
  concrete format Hformat. concrete y Hy. concrete eof Heof.
  destruct provider as [f |]; eexists; (split; [vm_compute; reflexivity |]);
    reflexivity.
Qed.

Lemma show_as_format_witness :
  exists root,
    parse (mkParser "demo" None
             [tok TokenSHOW "show"; tok TokenVALUE "name"; tok TokenAS "as";
              tok TokenVALUE "x"; tok TokenFORMAT "format";
              tok TokenVALUE "y"; tok TokenEOF ""] None) = OK root
    /\ sexp root =
         SNode NodeSHOW (Some "show")
           [SNode NodeSHOWTERM (Some "name")
              [SNode NodeAS (Some "as") [value "x"];
               SNode NodeFORMAT (Some "format") [value "y"]]].
Proof.
  apply (show_as_format "demo" None (tok TokenSHOW "show")
           (tok TokenVALUE "name") (tok TokenAS "as") (tok TokenVALUE "x")
           (tok TokenFORMAT "format") (tok TokenVALUE "y")
           (tok TokenEOF "")); reflexivity.
Defined.

(** X24: with, a directive, and a prefix operator with its operand in
    parentheses are parsed to a node named WITH whose child is the node of
    the directive, which has the node of the operator with its operand as
    its child; the parentheses leave no node. *)
Theorem with_directive nm provider with' ordering open asc v close eof :
  ID with' = TokenWITH -> ID ordering = TokenORDERING ->
  ID open = TokenLPAREN -> ID asc = TokenASCENDING -> ID v = TokenVALUE ->
  ID close = TokenRPAREN -> ID eof = TokenEOF ->
  exists root,
    parse (mkParser nm None [with'; ordering; open; asc; v; close; eof]
             provider) = OK root
    /\ sexp root =
         SNode NodeWITH (Some (Val with'))
           [SNode NodeORDERING (Some (Val ordering))
              [SNode NodeASCENDING (Some (Val asc)) [value (Val v)]]].
Proof.
  intros Hwith Hord Hopen Hasc Hv Hclose Heof.
  concrete with' Hwith. concrete ordering Hord. concrete open Hopen.
  concrete asc Hasc. concrete v Hv. concrete close Hclose.
  concrete eof Heof.
  destruct provider as [f |]; eexists; (split; [vm_compute; reflexivity |]);
    reflexivity.
Qed.

Lemma with_directive_witness :
  exists root,
    parse (mkParser "demo" None
             [tok TokenWITH "with"; tok TokenORDERING "ordering";
              tok TokenLPAREN "("; tok TokenASCENDING "ascending";
              tok TokenVALUE "name"; tok TokenRPAREN ")"; tok TokenEOF ""]
             None) = OK root
    /\ sexp root =
         SNode NodeWITH (Some "with")
           [SNode NodeORDERING (Some "ordering")
              [SNode NodeASCENDING (Some "ascending") [value "name"]]].
Proof.
  apply (with_directive "demo" None (tok TokenWITH "with")
           (tok TokenORDERING "ordering") (tok TokenLPAREN "(")
           (tok TokenASCENDING "ascending") (tok TokenVALUE "name")
           (tok TokenRPAREN ")") (tok TokenEOF "")); reflexivity.
Defined.

(** X25: lookup, a node kind and two values with a comma between them
    are parsed to a node named LOOKUP whose children are the node of the
    node kind, named VALUE, and the nodes of the two values; the comma
    leaves no node. *)
Theorem lookup_keys nm provider lookup kind a comma b eof :
  ID lookup = TokenLOOKUP -> ID kind = TokenNODEKIND -> ID a = TokenVALUE ->
  ID comma = TokenCOMMA -> ID b = TokenVALUE -> ID eof = TokenEOF ->
  exists root,
    parse (mkParser nm None [lookup; kind; a; comma; b; eof] provider)
      = OK root
    /\ sexp root =
         SNode NodeLOOKUP (Some (Val lookup))
           [value (Val kind); value (Val a); value (Val b)].
Proof.
  intros Hlookup Hkind Ha Hcomma Hb Heof.
  concrete lookup Hlookup. concrete kind Hkind. concrete a Ha.
  concrete comma Hcomma. concrete b Hb. concrete eof Heof.
  destruct provider as [f |]; eexists; (split; [vm_compute; reflexivity |]);
    reflexivity.
Qed.

Lemma lookup_keys_witness :
  exists root,
    parse (mkParser "demo" None
             [tok TokenLOOKUP "lookup"; tok TokenNODEKIND "Song";
              tok TokenVALUE "a"; tok TokenCOMMA ","; tok TokenVALUE "b";
              tok TokenEOF ""] None) = OK root
    /\ sexp root =
         SNode NodeLOOKUP (Some "lookup") [value "Song"; value "a"; value "b"].
Proof.
  apply (lookup_keys "demo" None (tok TokenLOOKUP "lookup")
           (tok TokenNODEKIND "Song") (tok TokenVALUE "a")
           (tok TokenCOMMA ",") (tok TokenVALUE "b") (tok TokenEOF ""));
    reflexivity.
Defined.

(** X26: the token of a function, its name and two values with a comma
    between them in parentheses are parsed to a node named FUNC whose
    children are the node of the name and the nodes of the two values;
    the parentheses and the comma leave no node. *)
Theorem func_parameters nm provider at' f open a comma b close eof :
  ID at' = TokenAT -> ID f = TokenVALUE -> ID open = TokenLPAREN ->
  ID a = TokenVALUE -> ID comma = TokenCOMMA -> ID b = TokenVALUE ->
  ID close = TokenRPAREN -> ID eof = TokenEOF ->
  exists root,
    parse (mkParser nm None [at'; f; open; a; comma; b; close; eof] provider)
      = OK root
    /\ sexp root =
         SNode NodeFUNC (Some (Val at'))
           [value (Val f); value (Val a); value (Val b)].
Proof.
  intros Hat Hf Hopen Ha Hcomma Hb Hclose Heof.
  concrete at' Hat. concrete f Hf. concrete open Hopen. concrete a Ha.
  concrete comma Hcomma. concrete b Hb. concrete close Hclose.
  concrete eof Heof.
  destruct provider as [g |]; eexists; (split; [vm_compute; reflexivity |]);
    reflexivity.
Qed.

Lemma func_parameters_witness :
  exists root,
    parse (mkParser "demo" None
             [tok TokenAT "@"; tok TokenVALUE "count"; tok TokenLPAREN "(";
              tok TokenVALUE "1"; tok TokenCOMMA ","; tok TokenVALUE "2";
              tok TokenRPAREN ")"; tok TokenEOF ""] None) = OK root
    /\ sexp root =
         SNode NodeFUNC (Some "@") [value "count"; value "1"; value "2"].
Proof.
  apply (func_parameters "demo" None (tok TokenAT "@")
           (tok TokenVALUE "count") (tok TokenLPAREN "(")
           (tok TokenVALUE "1") (tok TokenCOMMA ",") (tok TokenVALUE "2")
           (tok TokenRPAREN ")") (tok TokenEOF "")); reflexivity.
Defined.

(** * Properties of the plain ASTs *)

Lemma convertMaps_Forall2 l cs :
  convertMaps l = Converted cs ->
  Forall2 (fun child c => ASTFromPlain child = Converted c) l cs.
Proof.
  revert cs. induction l as [| child l IH]; intros cs H; simpl in H.
  - injection H as <-. constructor.
  - destruct (ASTFromPlain child) as [c | |] eqn:Hc; try discriminate H.
    destruct (convertMaps l) as [cs' | |]; try discriminate H.
    injection H as <-. constructor; [exact Hc | apply IH; reflexivity].
Qed.

Lemma forallb_isMap ic :
  forallb isMap ic = true -> exists l, ic = IMap <$> l.
Proof.
  induction ic as [| v ic IH]; simpl; intros H.
  - exists []. reflexivity.
  - apply andb_prop in H as [Hv Hic]. destruct (IH Hic) as [l ->].
    destruct v; try discriminate Hv. exists (m :: l). reflexivity.
Qed.

Lemma childrenFromPlain_Converted v cs :
  childrenFromPlain v = Converted cs ->
  exists l, Forall2 (fun child c => ASTFromPlain child = Converted c) l cs.
Proof.
  destruct v as [s | l | ic | m | s]; try discriminate.
  - rewrite childrenFromPlain_maps. intros H. exists l.
    exact (convertMaps_Forall2 l cs H).
  - destruct (forallb isMap ic) eqn:Hic.
    + destruct (forallb_isMap ic Hic) as [l ->].
      rewrite childrenFromPlain_values. intros H. exists l.
      exact (convertMaps_Forall2 l cs H).
    + simpl. rewrite Hic. discriminate.
Qed.

Lemma ASTFromPlain_plainMade n :
  forall m, ASTFromPlain m = Converted n -> allNodes plainMade n.
Proof.
  induction n as [n IH] using ASTNode_children_ind. intros [es] H.
  rewrite ASTFromPlain_eq in H.
  destruct (es !! "name") as [nm |]; [| discriminate H].
  destruct (es !! "value") as [v |]; [| discriminate H]. cbv zeta in H.
  destruct (es !! "children") as [c |].
  - destruct (childrenFromPlain c) as [cs | |] eqn:Hc; try discriminate H.
    injection H as <-. simpl in IH. constructor.
    + repeat split. eexists. reflexivity.
    + simpl. destruct (childrenFromPlain_Converted c cs Hc) as [l Hl].
      clear Hc. induction Hl as [| child c' l cs Hchild Hl IHl];
        [constructor |].
      inversion IH as [| c0 cs0 Hc' Hrest]; subst.
      constructor; [exact (Hc' child Hchild) | exact (IHl Hrest)].
  - injection H as <-. constructor; [| constructor].
    repeat split. eexists. reflexivity.
Qed.

Lemma plainMade_roundtrip n :
  allNodes plainMade n ->
  exists m, Plain n = Some m /\ ASTFromPlain m = Converted n.
Proof.
  induction n as [n IH] using ASTNode_children_ind. intros Hn.
  destruct Hn as [n ((v & Ht) & Hr & Hb & Hnd & Hld) Hcs].
  assert (Hkids : exists ms,
            mapM Plain (Children n) = Some ms
            /\ convertMaps ms = Converted (Children n)).
  { clear Ht Hr Hb Hnd Hld. induction (Children n) as [| c cs IHcs].
    - exists []. split; reflexivity.
    - inversion IH as [| c0 cs0 Hc IHrest]; subst.
      inversion Hcs as [| c0 cs0 Htc Htcs]; subst.
      destruct (Hc Htc) as (m & Hm & Hc').
      destruct (IHcs IHrest Htcs) as (ms & Hms & Hcs').
      exists (m :: ms). split.
      + simpl. rewrite Hm. simpl. rewrite Hms. reflexivity.
      + simpl. rewrite Hc', Hcs'. reflexivity. }
  destruct Hkids as (ms & Hms & Hcs').
  destruct n as [nm tok cs r b nd ld]. simpl in *. subst.
  rewrite Hms. simpl.
  destruct (decide (0 < Z.of_nat (length cs))) as [Hsome | Hnone];
    (eexists; split; [reflexivity |]); rewrite ASTFromPlain_eq.
  - rewrite lookup_insert_ne, lookup_insert_ne, lookup_insert_eq by done.
    rewrite lookup_insert_eq.
    rewrite lookup_insert_ne, lookup_insert_eq by done.
    rewrite childrenFromPlain_maps, Hcs'. reflexivity.
  - rewrite lookup_insert_ne, lookup_insert_eq by done.
    rewrite lookup_insert_eq.
    rewrite lookup_insert_ne, lookup_insert_ne, lookup_empty by done.
    simpl. destruct cs as [| c cs]; [reflexivity |]. simpl in Hnone. lia.
Qed.

(** X10: every node of a tree which [ASTFromPlain] returns has a general
    token at position, line and column zero, no runtime component, binding
    power zero and no denotation function; [Plain] of the tree does not
    panic, and [ASTFromPlain] of that plain AST is the same tree, in all
    its fields. *)
Theorem ASTFromPlain_plain_fixpoint m n :
  ASTFromPlain m = Converted n ->
  allNodes plainMade n
  /\ exists m', Plain n = Some m' /\ ASTFromPlain m' = Converted n.
Proof.
  intros H. pose proof (ASTFromPlain_plainMade n m H) as Hmade.
  split; [exact Hmade | exact (plainMade_roundtrip n Hmade)].
Qed.

Lemma ASTFromPlain_plain_fixpoint_witness :
  exists n,
    ASTFromPlain jsonPlain = Converted n
    /\ allNodes plainMade n
    /\ exists m', Plain n = Some m' /\ ASTFromPlain m' = Converted n.
Proof.
  eexists.
  assert (H : ASTFromPlain jsonPlain = Converted _) by reflexivity.
  split; [exact H | exact (ASTFromPlain_plain_fixpoint _ _ H)].
Defined.

Lemma Plain_Some_tokened n : is_Some (Plain n) -> tokened n.
Proof.
  induction n as [n IH] using ASTNode_children_ind. intros [m Hm].
  destruct n as [nm t cs r b nd ld]. simpl in *.
  destruct (mapM Plain cs) as [ms |] eqn:Hms; [| discriminate Hm].
  simpl in Hm. destruct t as [token |]; [| discriminate Hm].
  constructor; simpl; [eauto |].
  apply mapM_Some in Hms. clear Hm.
  induction Hms as [| c m' cs ms Hc Hms IHms]; [constructor |].
  inversion IH as [| c0 cs0 Hc' Hrest]; subst.
  constructor; [apply Hc'; eauto | exact (IHms Hrest)].
Qed.

(** X11: [Plain] returns a plain AST exactly when every node of the tree
    has a token; it panics on the nil token of a node otherwise. *)
Theorem Plain_defined_iff_tokened n : is_Some (Plain n) <-> tokened n.
Proof.
  split; [apply Plain_Some_tokened |].
  intros Hn. destruct (plain_roundtrip_tokened n Hn) as (m & _ & Hm & _).
  exists m. exact Hm.
Qed.

Lemma Plain_sexp n : forall n', sexp n = sexp n' -> Plain n = Plain n'.
Proof.
  induction n as [n IH] using ASTNode_children_ind. intros n' Heq.
  destruct n as [nm t cs r b nd ld], n' as [nm' t' cs' r' b' nd' ld'].
  simpl in *. injection Heq as Hnm Hval Hcs. subst nm'.
  assert (Hkids : mapM Plain cs = mapM Plain cs').
  { clear Hval. revert cs' Hcs.
    induction cs as [| c cs IHcs]; intros [| c' cs'] Hcs;
      try discriminate Hcs; [reflexivity |].
    rewrite !fmap_cons in Hcs. injection Hcs as Hc Hcs.
    inversion IH as [| c0 cs0 Hc' Hrest]; subst.
    simpl. rewrite (Hc' c' Hc), (IHcs Hrest cs' Hcs). reflexivity. }
  assert (Hlen : length cs = length cs').
  { rewrite <- (length_fmap sexp cs), Hcs, length_fmap. reflexivity. }
  rewrite Hkids, Hlen.
  destruct t as [token |], t' as [token' |]; try discriminate Hval;
    [| reflexivity].
  simpl in Hval. injection Hval as Hval. simpl. rewrite Hval. reflexivity.
Qed.

(** X12: two trees whose nodes have their tokens have the same plain AST
    exactly when they have the same node names, token values and children,
    recursively: [Plain] keeps these and nothing else of a tree. *)
Theorem Plain_eq_iff_structEq n n' :
  tokened n -> tokened n' -> (Plain n = Plain n' <-> structEq n n').
Proof.
  intros Hn Hn'. split; [| apply Plain_sexp].
  destruct (plain_roundtrip_tokened n Hn) as (m & n1 & Hm & Hn1 & Heq).
  destruct (plain_roundtrip_tokened n' Hn') as (m' & n1' & Hm' & Hn1' & Heq').
  intros Hsame. unfold structEq in *.
  assert (m' = m) by congruence. subst m'.
  assert (n1' = n1) by congruence. subst n1'. congruence.
Qed.

Lemma Plain_eq_iff_structEq_witness :
  Plain valueNode = Plain valueNodeLater <-> structEq valueNode valueNodeLater.
Proof.
  apply (Plain_eq_iff_structEq valueNode valueNodeLater);
    apply tokened_instance.
Defined.

(** X13: [ASTFromPlain] gives the same result for children in a slice of
    values which are maps, as a JSON decoder builds it, and for the same
    children in a slice of maps, in a plain AST with a name and a value. *)
Theorem ASTFromPlain_value_slice es l :
  is_Some (es !! "name") -> is_Some (es !! "value") ->
  ASTFromPlain (PlainMap (<["children" := ISlice (IMap <$> l)]> es)) =
  ASTFromPlain (PlainMap (<["children" := IMapSlice l]> es)).
Proof.
  intros [nm Hnm] [v Hv]. rewrite !ASTFromPlain_eq.
  rewrite !(lookup_insert_ne _ "children" "name") by done.
  rewrite !(lookup_insert_ne _ "children" "value") by done.
  rewrite Hnm, Hv, !lookup_insert_eq.
  rewrite childrenFromPlain_values, childrenFromPlain_maps. reflexivity.
Qed.

Lemma ASTFromPlain_value_slice_witness :
  ASTFromPlain jsonPlain =
  ASTFromPlain (plainNode "AND" "and" (IMapSlice [plainLeaf "VALUE" "a"])).
Proof.
  pose proof (ASTFromPlain_value_slice
                (<["value" := IString "and"]> (<["name" := IString "AND"]> ∅))
                [plainLeaf "VALUE" "a"]
                ltac:(eexists; reflexivity) ltac:(eexists; reflexivity))
    as H.
  exact H.
Defined.

(** X14: [ASTFromPlain] of a plain AST with a name and a value panics
    when the value under the key children is not a slice, or is a slice of
    values of which one is not a map: the type assertions are made on
    every element before the first child is converted, so that an error of
    a child is not returned. *)
Theorem ASTFromPlain_children_panic es c :
  is_Some (es !! "name") -> is_Some (es !! "value") ->
  es !! "children" = Some c -> notMapList c ->
  ASTFromPlain (PlainMap es) = ConvPanic.
Proof.
  intros [nm Hnm] [v Hv] Hc Hbad. rewrite ASTFromPlain_eq, Hnm, Hv, Hc.
  cbv zeta.
  destruct c as [s | l | ic | m | s]; try reflexivity.
  - destruct Hbad.
  - simpl in Hbad. simpl. rewrite Hbad. reflexivity.
Qed.

Lemma ASTFromPlain_children_panic_witness :
  ASTFromPlain mixedPlain = ConvPanic.
Proof.
  apply (ASTFromPlain_children_panic _
           (ISlice [IMap (PlainMap ∅); IString "b"]));
    [eexists; reflexivity | eexists; reflexivity | reflexivity
    | reflexivity].
Defined.

(** X15: [ASTFromPlain] reads the keys name, value and children only: an
    entry under another key does not change the result for a plain AST
    with a name and a value. *)
Theorem ASTFromPlain_other_keys es k v :
  k <> "name" -> k <> "value" -> k <> "children" ->
  is_Some (es !! "name") -> is_Some (es !! "value") ->
  ASTFromPlain (PlainMap (<[k := v]> es)) = ASTFromPlain (PlainMap es).
Proof.
  intros Hk1 Hk2 Hk3 [nm Hnm] [val Hv]. rewrite !ASTFromPlain_eq.
  rewrite !lookup_insert_ne by done. rewrite Hnm, Hv. reflexivity.
Qed.

Lemma ASTFromPlain_other_keys_witness :
  ASTFromPlain
    (PlainMap (<["line" := IOther "1"]> (entriesOf (plainLeaf "VALUE" "a")))) =
  ASTFromPlain (plainLeaf "VALUE" "a").
Proof.
  apply (ASTFromPlain_other_keys (entriesOf (plainLeaf "VALUE" "a")) "line"
           (IOther "1"));
    [discriminate | discriminate | discriminate | eexists; reflexivity
    | eexists; reflexivity].
Defined.
